(** * The simplex tableau method (Bierlaire, Algorithms 16.2, 16.3, 16.5)

    Shallow embedding of the notebooks' Python/numpy routines
    [simplexTableau], [pivoting], [simplexAlgorithmTableau], [getRow] and
    [simplex], of [printResults]' reading of the final tableau, and of the
    entering-variable selection of the basis-form [simplex].

    Numbers.  numpy's float64 is modelled by [num]: the rationals for the
    finite values, and the IEEE-754 special values +inf, -inf and NaN with
    their arithmetic and comparison rules.  Comparisons, [abs] and the
    unary minus are exact in binary64, and so they are here.  The sums,
    products and quotients of [Num] are not rounded: the general
    properties stated on them are about the shapes of the arrays, the
    comparisons and the flow of control, and the concrete runs are
    evaluated on them.  What [pivoting] does to the values is stated on
    [Binary64], where every sum, product and quotient is rounded to
    binary64 and where an int64 array has its own operations; the dtype of
    the arrays that [simplex] writes into is a parameter of
    [simplex_as].

    Arrays.  A 1-D array is a [list num]; a 2-D array is the list of its
    rows together with its number of columns.  Indices are natural numbers
    (Python's negative indices are written out where the code uses them).

    Effects.  A call returns, raises or exhausts the bound put on its
    loops ([result]).  [simplex] writes into the arrays of its caller, so it
    is given them as a [problem] and gives their final contents back;
    [pivoting] allocates its result, which [pivoting_heap] makes explicit.
    What Python leaves open, the element [set.pop()] removes and the order
    in which [list] enumerates a set, is a parameter of [simplex]. *)

From Stdlib Require Import List Arith Bool Lia ZArith QArith Qcanon Qround Qpower
  Qabs Lqa Permutation.
Import ListNotations.

(* ================================================================= *)
(** ** Numbers *)

Module Num.

Inductive num : Type :=
| Fin (x : Qc)
| PInf
| NInf
| NaN.

Definition Qc_ltb (x y : Qc) : bool := negb (Qle_bool y x).
Definition Qc_eqb (x y : Qc) : bool := Qeq_bool x y.

Definition zero : num := Fin (Q2Qc 0).
Definition one : num := Fin (Q2Qc 1).
Definition of_Z (z : Z) : num := Fin (Q2Qc (inject_Z z)).

(** [np.inf] *)
Definition inf : num := PInf.

(** [np.finfo(float).eps] is 2^-52 and [np.sqrt] of it is exactly 2^-26. *)
Definition eps : num := Fin (Q2Qc (1 # 4503599627370496)).
Definition sqrt_eps : num := Fin (Q2Qc (1 # 67108864)).

Definition is_finite (a : num) : bool :=
  match a with Fin _ => true | _ => false end.

(** Unary minus. *)
Definition neg (a : num) : num :=
  match a with
  | Fin x => Fin (- x)
  | PInf => NInf
  | NInf => PInf
  | NaN => NaN
  end.

Definition add (a b : num) : num :=
  match a, b with
  | NaN, _ | _, NaN => NaN
  | Fin x, Fin y => Fin (x + y)
  | PInf, NInf | NInf, PInf => NaN
  | PInf, _ | _, PInf => PInf
  | NInf, _ | _, NInf => NInf
  end.

Definition sub (a b : num) : num := add a (neg b).

(** The infinity whose sign is that of [x]; NaN for a zero [x]. *)
Definition signed_inf (x : Qc) (pos : bool) : num :=
  if Qc_eqb x (Q2Qc 0) then NaN
  else if xorb (Qc_ltb (Q2Qc 0) x) pos then NInf else PInf.

Definition mul (a b : num) : num :=
  match a, b with
  | NaN, _ | _, NaN => NaN
  | Fin x, Fin y => Fin (x * y)
  | Fin x, PInf | PInf, Fin x => signed_inf x true
  | Fin x, NInf | NInf, Fin x => signed_inf x false
  | PInf, PInf | NInf, NInf => PInf
  | PInf, NInf | NInf, PInf => NInf
  end.

(** Division.  A finite value divided by zero gives the infinity of the
    sign of the numerator (NaN for 0/0); an infinity divided by a finite
    value keeps or flips its sign (a zero divisor counts as positive). *)
Definition div (a b : num) : num :=
  match a, b with
  | NaN, _ | _, NaN => NaN
  | Fin x, Fin y =>
      if Qc_eqb y (Q2Qc 0) then signed_inf x true else Fin (x / y)
  | Fin _, _ => zero
  | PInf, Fin y => if Qc_ltb y (Q2Qc 0) then NInf else PInf
  | NInf, Fin y => if Qc_ltb y (Q2Qc 0) then PInf else NInf
  | _, _ => NaN
  end.

(** [np.abs] *)
Definition abs (a : num) : num :=
  match a with
  | Fin x => Fin (if Qc_ltb x (Q2Qc 0) then - x else x)
  | PInf | NInf => PInf
  | NaN => NaN
  end.

(** [a < b]; every comparison with NaN is false. *)
Definition ltb (a b : num) : bool :=
  match a, b with
  | NaN, _ | _, NaN => false
  | Fin x, Fin y => Qc_ltb x y
  | NInf, NInf | PInf, _ | _, NInf => false
  | _, _ => true
  end.

(** [a == b] *)
Definition eqb (a b : num) : bool :=
  match a, b with
  | Fin x, Fin y => Qc_eqb x y
  | PInf, PInf | NInf, NInf => true
  | _, _ => false
  end.

(** [a <= b] *)
Definition leb (a b : num) : bool := ltb a b || eqb a b.
(** [a > b] and [a >= b] *)
Definition gtb (a b : num) : bool := ltb b a.
Definition geb (a b : num) : bool := leb b a.

(** [np.sum] of a 1-D array (0 for the empty array). *)
Definition sum (l : list num) : num := fold_left add l zero.

End Num.

Export Num.

Declare Scope num_scope.
Delimit Scope num_scope with num.
Bind Scope num_scope with num.
Infix "+" := add : num_scope.
Infix "-" := sub : num_scope.
Infix "*" := mul : num_scope.
Infix "/" := div : num_scope.
Notation "- x" := (neg x) : num_scope.
Infix "<?" := ltb : num_scope.
Infix "<=?" := leb : num_scope.
Infix ">?" := gtb : num_scope.
Infix ">=?" := geb : num_scope.
Infix "=?" := eqb : num_scope.

Local Open Scope num_scope.

(* ================================================================= *)
(** ** numpy arrays and the helpers the notebooks use *)

Definition array1 := list num.

(** A 2-D array: its rows, and its number of columns (kept apart so that an
    array with no rows still has a shape). *)
Record array2 : Type := Array2 { ncols : nat; rows : list array1 }.

Definition nrows (T : array2) : nat := length (rows T).

(** numpy arrays are rectangular. *)
Definition wf_array2 (T : array2) : Prop :=
  Forall (fun r => length r = ncols T) (rows T).

(** [T[i, :]], [v[j]] and [T[i][j]] for indices in range. *)
Definition row (T : array2) (i : nat) : array1 := nth i (rows T) [].
Definition get1 (v : array1) (j : nat) : num := nth j v NaN.
Definition get (T : array2) (i j : nat) : num := get1 (row T i) j.
(** [T[:, j]] *)
Definition column (T : array2) (j : nat) : array1 :=
  map (fun r => get1 r j) (rows T).

(** Elementwise operations on rows: [v / c], [c * v], [u - v]. *)
Definition vdiv (v : array1) (c : num) : array1 := map (fun x => x / c) v.
Definition vmul (c : num) (v : array1) : array1 := map (fun x => c * x) v.
Definition vsub (u v : array1) : array1 :=
  map (fun xy => fst xy - snd xy) (combine u v).
Definition vneg (v : array1) : array1 := map neg v.

(** [a.any()] for a boolean array. *)
Definition any (l : list bool) : bool := existsb (fun x => x) l.

(** [np.argmax] of a non-empty boolean array: the first index holding the
    maximum, that is the first [True], and 0 when there is none. *)
Fixpoint argmax_bool (l : list bool) : nat :=
  match l with
  | [] => 0
  | true :: _ => 0
  | false :: l' => if any l' then S (argmax_bool l') else 0
  end.

(** [np.argmin] of a float array, as numpy's scan does it: the running
    minimum [mp] is replaced by an element [x] when [not (x >= mp)], and the
    scan stops at the first NaN. *)
Fixpoint argmin_scan (l : array1) (i : nat) (mp : num) (ind : nat) : nat :=
  match l with
  | [] => ind
  | x :: l' =>
      if negb (x >=? mp) then
        match x with
        | NaN => i
        | _ => argmin_scan l' (S i) x i
        end
      else argmin_scan l' (S i) mp ind
  end.

(** What the notebooks' code can raise. *)
Inductive error : Type :=
| IncompatibleSizes        (* simplex: shapes of A, b, c *)
| PivotRowOutOfRange       (* pivoting: q >= m *)
| PivotColumnOutOfRange    (* pivoting: p >= n *)
| PivotTooCloseToZero      (* pivoting: |pivot| < eps *)
| VariableOutOfRange       (* getRow: index not in range(n) *)
| ValueError               (* np.argmin of an empty array *)
| IndexError.              (* an index out of bounds *)

(** Outcome of a call: a returned value, a raised exception, or the loop
    bound of the model exhausted. *)
Inductive result (A : Type) : Type :=
| Return (a : A)
| Raise (e : error)
| OutOfFuel.
Arguments Return {A} a.
Arguments Raise {A} e.
Arguments OutOfFuel {A}.

Definition bind {A B : Type} (r : result A) (k : A -> result B) : result B :=
  match r with
  | Return a => k a
  | Raise e => Raise e
  | OutOfFuel => OutOfFuel
  end.
Notation "x <- r ;; k" := (bind r (fun x => k))
  (at level 61, r at next level, right associativity).

Definition argmin (l : array1) : result nat :=
  match l with
  | [] => Raise ValueError
  | NaN :: _ => Return 0%nat
  | x :: l' => Return (argmin_scan l' 1 x 0)
  end.

(** [np.delete(T, idx, 0)] for a list of row indices: an index out of
    bounds raises [IndexError]; repeated indices delete the row once. *)
Definition mem (k : nat) (l : list nat) : bool := existsb (Nat.eqb k) l.

Fixpoint drop_at {A : Type} (idx : list nat) (i : nat) (l : list A) : list A :=
  match l with
  | [] => []
  | x :: l' =>
      if mem i idx then drop_at idx (S i) l' else x :: drop_at idx (S i) l'
  end.

Definition delete_rows (T : array2) (idx : list nat) : result array2 :=
  if forallb (fun i => i <? nrows T)%nat idx
  then Return (Array2 (ncols T) (drop_at idx 0 (rows T)))
  else Raise IndexError.

(** [np.delete(T, range(lo, hi), 1)] with [hi <= ncols T]. *)
Definition delete_columns (T : array2) (lo hi : nat) : array2 :=
  Array2 (ncols T - (hi - lo))
         (map (fun r => firstn lo r ++ skipn hi r) (rows T)).

(* ================================================================= *)
(** ** One iteration of the simplex on the tableau: [simplexTableau] *)

(** [tableau[-1, :-1]] *)
Definition reducedCost (tableau : array2) : array1 :=
  removelast (last (rows tableau) []).

(** [reducedCost < 0] *)
Definition negativeReducedCost (tableau : array2) : list bool :=
  map (fun x => x <? zero) (reducedCost tableau).

(** The entering column, [p = np.argmax(negativeReducedCost)]. *)
Definition entering (tableau : array2) : nat :=
  argmax_bool (negativeReducedCost tableau).

(** [steps] for the column [p]:
    [xb[k] / minusd[k] if minusd[k] > 0 else np.inf for k in range(m)],
    with [xb = tableau[:-1, -1]] and [minusd = tableau[:-1, p]]. *)
Definition steps (tableau : array2) (p : nat) : array1 :=
  map (fun r =>
         let xbk := last r NaN in
         let minusdk := get1 r p in
         if minusdk >? zero then xbk / minusdk else inf)
      (removelast (rows tableau)).

(** Returns [(p, q, opt, bounded)]. *)
Definition simplexTableau (tableau : array2)
  : result (option nat * option nat * bool * bool) :=
  match rows tableau with
  | [] => Raise IndexError
  | _ =>
      if negb (any (negativeReducedCost tableau)) then
        Return (None, None, true, true)
      else
        let p := entering tableau in
        q <- argmin (steps tableau p) ;;
        let step := get1 (steps tableau p) q in
        if step =? inf then Return (None, None, false, false)
        else Return (Some p, Some q, false, true)
  end.

(** The same selection in the basis-form [simplex]: there [reducedCost] is
    [c.T - c[basis].T @ minusd] and the entering index is again
    [np.argmax(reducedCost < 0)]. *)
Definition basis_entering (reducedCost : array1) : option nat :=
  let negativeReducedCost := map (fun x => x <? zero) reducedCost in
  if negb (any negativeReducedCost) then None
  else Some (argmax_bool negativeReducedCost).

(* ================================================================= *)
(** ** The pivot: [pivoting] *)

Definition pivoting (tableau : array2) (p q : nat) : result array2 :=
  let m := nrows tableau in
  let n := ncols tableau in
  if (m <=? q)%nat then Raise PivotRowOutOfRange
  else if (n <=? p)%nat then Raise PivotColumnOutOfRange
  else
    let thepivot := get tableau q p in
    if abs thepivot <? eps then Raise PivotTooCloseToZero
    else
      let thepivotrow := row tableau q in
      Return (Array2 n
        (map (fun i =>
                if (i =? q)%nat then vdiv (row tableau q) thepivot
                else vsub (row tableau i)
                          (vdiv (vmul (get tableau i p) thepivotrow) thepivot))
             (seq 0 m))).

(** Arrays live in a heap; [pivoting] reads the array it is given and
    writes only into the [newtableau] it allocates with [np.empty]. *)
Definition heap := list array2.
Definition loc := nat.

Definition alloc (h : heap) (T : array2) : heap * loc :=
  (h ++ [T], length h).

Definition pivoting_heap (h : heap) (l : loc) (p q : nat)
  : heap * result loc :=
  match nth_error h l with
  | None => (h, Raise IndexError)
  | Some tableau =>
      match pivoting tableau p q with
      | Return newtableau =>
          let (h', l') := alloc h newtableau in (h', Return l')
      | Raise e => (h, Raise e)
      | OutOfFuel => (h, OutOfFuel)
      end
  end.

(* ================================================================= *)
(** ** The iteration: [simplexAlgorithmTableau] *)

(** Returns [(tableau, optimal, unbounded)]; [fuel] bounds the number of
    passes through the [while True] loop. *)
Fixpoint simplexAlgorithmTableau (fuel : nat) (tableau : array2)
  : result (array2 * bool * bool) :=
  match fuel with
  | O => OutOfFuel
  | S fuel' =>
      sel <- simplexTableau tableau ;;
      match sel with
      | (colPivot, rowPivot, optimal, bounded) =>
          if optimal then Return (tableau, true, false)
          else if negb bounded then Return (tableau, false, true)
          else
            match colPivot, rowPivot with
            | Some p, Some q =>
                newtableau <- pivoting tableau p q ;;
                simplexAlgorithmTableau fuel' newtableau
            | _, _ => Raise IndexError
            end
      end
  end.

(* ================================================================= *)
(** ** The row of a basic variable: [getRow] *)

Fixpoint getRow_loop (column : array1) (j : nat) (rowIndex : option nat)
  : option nat :=
  match column with
  | [] => rowIndex
  | x :: rest =>
      if abs x >? sqrt_eps then
        match rowIndex with
        | None =>
            if abs (x - one) <=? eps then getRow_loop rest (S j) (Some j)
            else None
        | Some _ => None
        end
      else getRow_loop rest (S j) rowIndex
  end.

Definition getRow (tableau : array2) (index : nat) : result (option nat) :=
  let n := (ncols tableau - 1)%nat in
  if negb (index <? n)%nat then Raise VariableOutOfRange
  else Return (getRow_loop (column tableau index) 0 None).

(* ================================================================= *)
(** ** The complete algorithm: [simplex] *)

(** The caller's three arrays.  [simplex] receives references to them, so
    its assignments [A[i, :] = ...] and [b[i] = ...] write into them. *)
Record problem : Type := Problem { pA : array2; pb : array1; pc : array1 }.

(** [l[i] = x] for [i] in range. *)
Fixpoint update {A : Type} (l : list A) (i : nat) (x : A) : list A :=
  match l, i with
  | [], _ => []
  | _ :: l', O => x :: l'
  | y :: l', S i' => y :: update l' i' x
  end.

(** [np.argwhere(b < 0)] *)
Definition negativeb (b : array1) : list nat :=
  filter (fun i => get1 b i <? zero) (seq 0 (length b)).

(** [for i in negativeb: A[i, :] = - A[i, :]; b[i] = - b[i]] *)
Definition normalize (st : problem) : problem :=
  fold_left
    (fun s i =>
       Problem (Array2 (ncols (pA s)) (update (rows (pA s)) i (vneg (row (pA s) i))))
               (update (pb s) i (- get1 (pb s) i))
               (pc s))
    (negativeb (pb st)) st.

(** Row [i] of [np.eye(m)]. *)
Definition eye_row (m i : nat) : array1 :=
  map (fun j => if (j =? i)%nat then one else zero) (seq 0 m).

(** First tableau for the auxiliary problem. *)
Definition firstTableau (A : array2) (b : array1) : array2 :=
  let m := nrows A in
  let n := ncols A in
  let upper :=
    Array2 (n + m + 1)
           (map (fun i => row A i ++ eye_row m i ++ [get1 b i]) (seq 0 m)) in
  Array2 (n + m + 1)
         (rows upper ++
          [map (fun k => - sum (column upper k)) (seq 0 n)
           ++ repeat zero m
           ++ [- sum (column upper (n + m))]]).

Fixpoint mapM {A B : Type} (f : A -> result B) (l : list A) : result (list B) :=
  match l with
  | [] => Return []
  | x :: l' => y <- f x ;; ys <- mapM f l' ;; Return (y :: ys)
  end.

(** [np.array([getRow(tableau, k) for k in range(count)])] *)
Definition basicRowsOf (tableau : array2) (count : nat)
  : result (list (option nat)) :=
  mapM (getRow tableau) (seq 0 count).

(** [np.where(basicRows != None)[0]] and [np.where(basicRows == None)[0]] *)
Definition whereNotNone (basicRows : list (option nat)) : list nat :=
  filter (fun k => match nth k basicRows None with Some _ => true | None => false end)
         (seq 0 (length basicRows)).
Definition whereNone (basicRows : list (option nat)) : list nat :=
  filter (fun k => match nth k basicRows None with Some _ => false | None => true end)
         (seq 0 (length basicRows)).

(** The last row of a tableau replaced. *)
Definition set_last_row (T : array2) (r : array1) : array2 :=
  Array2 (ncols T) (removelast (rows T) ++ [r]).

(** The body of the loop [while not clean] once [tobeCleaned] is not
    empty, for the column [auxiliaryColumn] that [tobeCleaned.pop()] gave
    and the list [originalNonbasic]; it updates the local variables
    [phaseOneTableau], [basicRows] and [rowsToRemove]. *)
Definition cleanBody (n m : nat) (phaseOneTableau : array2)
    (basicRows : list (option nat)) (rowsToRemove : list nat)
    (auxiliaryColumn : nat) (originalNonbasic : list nat)
  : result (array2 * list (option nat) * list nat) :=
  match nth auxiliaryColumn basicRows None with
  | None => Raise IndexError
  | Some rowpivotIndex =>
      let rowpivot := row phaseOneTableau rowpivotIndex in
      let nonzerosPivots :=
        map (fun k => abs (get1 rowpivot k) >? eps) originalNonbasic in
      if any nonzerosPivots then
        (* It is possible to pivot *)
        let colpivot := nth (argmax_bool nonzerosPivots) originalNonbasic 0%nat in
        newtableau <- pivoting phaseOneTableau colpivot rowpivotIndex ;;
        Return (newtableau,
                update (update basicRows colpivot (Some rowpivotIndex))
                       auxiliaryColumn None,
                rowsToRemove)
      else
        (* There is a redundant constraint to be removed *)
        let rowsToRemove' := rowsToRemove ++ [rowpivotIndex] in
        newtableau <- delete_rows phaseOneTableau rowsToRemove' ;;
        basicRows' <- basicRowsOf newtableau (m + n) ;;
        Return (newtableau, basicRows', rowsToRemove')
  end.

(** [set(basicIndices).intersection(set(range(n, n + m)))] and
    [set(range(n)) - set(basicIndices)], as increasing lists. *)
Definition tobeCleaned (n m : nat) (basicRows : list (option nat)) : list nat :=
  filter (fun k => (n <=? k)%nat && (k <? n + m)%nat) (whereNotNone basicRows).
Definition nonbasicSet (n : nat) (basicRows : list (option nat)) : list nat :=
  filter (fun k => negb (mem k (whereNotNone basicRows))) (seq 0 n).

(** The last row of the phase II tableau, from the cost vector [c]: the
    entries of the non basic columns and the right-hand side are assigned,
    the other entries are those of the last row of [startPhaseTwo].  Each
    assignment reads only entries that no earlier one has written. *)
Definition phaseTwoLastRow (startPhaseTwo : array2) (c : array1)
    (basicRows : list (option nat)) (n : nat) : array1 :=
  let basicIndices := whereNotNone basicRows in
  let nonbasicIndices := whereNone basicRows in
  let old := last (rows startPhaseTwo) [] in
  let rowOf j := match nth j basicRows None with Some r => r | None => 0%nat end in
  map (fun k =>
         if mem k nonbasicIndices then
           get1 c k -
           sum (map (fun j => get1 c j * get startPhaseTwo (rowOf j) k) basicIndices)
         else get1 old k)
      (seq 0 n)
  ++ [- sum (map (fun j => get1 c j * last (row startPhaseTwo (rowOf j)) NaN)
                 basicIndices)].

(** The end of [simplex], from [# Delete columns] on: the artificial
    columns are deleted, the last row is calculated from [c] and phase II
    is run.  Returns [(tableau, unbounded, infeasible)]. *)
Definition phaseTwo (fuel n m : nat) (c : array1) (phaseOneTableau : array2)
  : result (array2 * bool * bool) :=
  let startPhaseTwo := delete_columns phaseOneTableau n (n + m) in
  basicRows <- basicRowsOf startPhaseTwo n ;;
  match rows startPhaseTwo with
  | [] => Raise IndexError
  | _ =>
      let startPhaseTwo' :=
        set_last_row startPhaseTwo
                     (phaseTwoLastRow startPhaseTwo c basicRows n) in
      r2 <- simplexAlgorithmTableau fuel startPhaseTwo' ;;
      match r2 with
      | (phaseTwoTableau, optimal, unbounded) =>
          Return (phaseTwoTableau, unbounded, false)
      end
  end.

Section Driver.

(** Python leaves open which element [set.pop()] removes and in which
    order [list(s)] enumerates a set [s]; both are parameters here.  Sets of
    indices are given to them as increasing lists. *)
Variable set_pop : list nat -> nat.
Variable set_list : list nat -> list nat.

(** The loop [while not clean], on the local variables [phaseOneTableau],
    [basicRows] and [rowsToRemove]; returns the first and the last. *)
Fixpoint cleanBasis (fuel n m : nat) (phaseOneTableau : array2)
    (basicRows : list (option nat)) (rowsToRemove : list nat)
  : result (array2 * list nat) :=
  match fuel with
  | O => OutOfFuel
  | S fuel' =>
      match tobeCleaned n m basicRows with
      | [] => Return (phaseOneTableau, rowsToRemove)
      | s =>
          st <- cleanBody n m phaseOneTableau basicRows rowsToRemove
                          (set_pop s) (set_list (nonbasicSet n basicRows)) ;;
          match st with
          | (phaseOneTableau', basicRows', rowsToRemove') =>
              cleanBasis fuel' n m phaseOneTableau' basicRows' rowsToRemove'
          end
      end
  end.

(** What [simplex] does once [b] has been made non negative; from here on
    [A], [b] and [c] are only read.  Returns
    [(tableau, unbounded, infeasible)]; [fuel] bounds each of the three
    loops (phase I, [while not clean], phase II). *)
Definition simplexPhases (fuel : nat) (A : array2) (b c : array1)
  : result (array2 * bool * bool) :=
  let m := nrows A in
  let n := ncols A in
  let tableau := firstTableau A b in
  r1 <- simplexAlgorithmTableau fuel tableau ;;
  match r1 with
  | (phaseOneTableau, optimal, unbounded) =>
      if unbounded then Return (tableau, true, false)
      else if last (last (rows phaseOneTableau) []) NaN <? - sqrt_eps then
        Return (phaseOneTableau, false, true)
      else
        basicRows <- basicRowsOf phaseOneTableau (m + n) ;;
        cl <- cleanBasis fuel n m phaseOneTableau basicRows [] ;;
        phaseTwo fuel n m c (fst cl)
  end.

(** [simplex(A, b, c)]: the final contents of the caller's arrays, and the
    outcome of the call. *)
Definition simplex (fuel : nat) (st : problem)
  : problem * result (array2 * bool * bool) :=
  let m := nrows (pA st) in
  let n := ncols (pA st) in
  if negb (length (pb st) =? m)%nat then (st, Raise IncompatibleSizes)
  else if negb (length (pc st) =? n)%nat then (st, Raise IncompatibleSizes)
  else
    let st' := normalize st in
    (st', simplexPhases fuel (pA st') (pb st') (pc st')).

End Driver.

(** What is asked of the two parameters: [pop] gives an element of the set,
    [list] enumerates the set. *)
Definition valid_pop (set_pop : list nat -> nat) : Prop :=
  forall s, s <> [] -> In (set_pop s) s.
Definition valid_list (set_list : list nat -> list nat) : Prop :=
  forall s, Permutation (set_list s) s.

(** One admissible choice: [pop] removes the least element and [list]
    enumerates in increasing order (what CPython does for a set of
    integers below 8, which it keeps in slots indexed by the values). *)
Definition pop_least (s : list nat) : nat := hd 0%nat s.
Definition list_increasing (s : list nat) : list nat := s.

(* ================================================================= *)
(** ** Reading the result: from [printResults] *)

Section Results.

Variable finalTableau : array2.

(** [basicRows = [getRow(finalTableau, k) for k in range(n)]] and
    [solution = [finalTableau[basicRows[k], -1] if basicRows[k] is not None
                 else 0 for k in range(n)]] *)
Definition solution : result array1 :=
  let n := (ncols finalTableau - 1)%nat in
  basicRows <- basicRowsOf finalTableau n ;;
  Return (map (fun br =>
                 match br with
                 | Some r => last (row finalTableau r) NaN
                 | None => zero
                 end) basicRows).

(** [copt = -finalTableau[-1, -1]] *)
Definition copt : num := - last (last (rows finalTableau) []) NaN.

End Results.

(* ================================================================= *)
(** ** Concrete arrays *)

Definition vecZ (l : list Z) : array1 := map of_Z l.
Definition matZ (n : nat) (l : list (list Z)) : array2 := Array2 n (map vecZ l).
Definition ratio (a : Z) (b : positive) : num := Fin (Q2Qc (a # b)).

(** Decidable equality of numbers and arrays, for checking computed
    results ([NaN] is equal to itself here, unlike with [==]). *)
Definition same (a b : num) : bool :=
  match a, b with
  | NaN, NaN => true
  | _, _ => a =? b
  end.
Fixpoint same1 (u v : array1) : bool :=
  match u, v with
  | [], [] => true
  | x :: u', y :: v' => same x y && same1 u' v'
  | _, _ => false
  end.
Fixpoint same_rows (u v : list array1) : bool :=
  match u, v with
  | [], [] => true
  | x :: u', y :: v' => same1 x y && same_rows u' v'
  | _, _ => false
  end.
Definition same2 (S T : array2) : bool :=
  (ncols S =? ncols T)%nat && same_rows (rows S) (rows T).

(** Numbers that are not NaN; [<] and [<=] order them totally. *)
Definition ordered (a : num) : Prop := a <> NaN.

(** A call that does not raise [IncompatibleSizes]. *)
Definition no_size_error {A : Type} (r : result A) : Prop :=
  r <> Raise IncompatibleSizes.

(** All entries finite. *)
Definition finite1 (v : array1) : bool := forallb is_finite v.
Definition finite2 (T : array2) : bool := forallb finite1 (rows T).

Local Open Scope Z_scope.

(** Example 1 of the tableau notebook. *)
Definition example1 : problem :=
  Problem (matZ 4 [[1; 2; 3; 0]; [-1; 2; 6; 0]; [0; 4; 9; 0]; [0; 0; 3; 1]])
          (vecZ [3; 2; 5; 1])
          (vecZ [1; 1; 1; 0]).

(** Example 1 with row 2 of [A] and entry 2 of [b] appended once more. *)
Definition example1_row2_again : problem :=
  Problem (matZ 4 [[1; 2; 3; 0]; [-1; 2; 6; 0]; [0; 4; 9; 0]; [0; 0; 3; 1];
                   [0; 4; 9; 0]])
          (vecZ [3; 2; 5; 1; 5])
          (vecZ [1; 1; 1; 0]).

(** Example 3 of the tableau notebook (infeasible; both entries of [b] are
    negative). *)
Definition example3 : problem :=
  Problem (matZ 4 [[1; -1; 1; 0]; [-1; 1; 0; 1]])
          (vecZ [-2; -1])
          (vecZ [-4; 2; 0; 0]).

(** The caller's arrays of Example 3 once [simplex] has returned. *)
Definition example3_after : problem :=
  Problem (matZ 4 [[-1; 1; -1; 0]; [1; -1; 0; -1]])
          (vecZ [2; 1])
          (vecZ [-4; 2; 0; 0]).

(** The tableau [simplex] returns on Example 3. *)
Definition example3_tableau : array2 :=
  matZ 7 [[-1; 1; -1; 0; 1; 0; 2];
          [1; -1; 0; -1; 0; 1; 1];
          [0; 0; 1; 1; 0; 0; -3]].

(** Example 6 of the tableau notebook (unbounded). *)
Definition example6 : problem :=
  Problem (matZ 2 [[1; 0]]) (vecZ [1]) (vecZ [3; -2]).

(** A tableau whose reduced costs are -1 and -2. *)
Definition two_negative_costs : array2 :=
  matZ 3 [[1; 1; 4]; [-1; -2; 0]].

(** The first tableau of the pivoting notebook's Example 1. *)
Definition pivoting_example1 : array2 :=
  Array2 7
    [[zero; ratio 3 2; one; one; ratio (-1) 2; zero; of_Z 10];
     [one; ratio 1 2; one; zero; ratio 1 2; zero; of_Z 10];
     vecZ [0; 1; -1; 0; -1; 1; 0];
     vecZ [0; -7; -2; 0; 5; 0; 100]].

(** The new tableau the pivoting notebook prints for it (column 1, row 2). *)
Definition pivoting_example1_printed : array2 :=
  Array2 7
    [[zero; zero; ratio 5 2; one; one; ratio (-3) 2; of_Z 10];
     [one; zero; ratio 3 2; zero; one; ratio (-1) 2; of_Z 10];
     vecZ [0; 1; -1; 0; -1; 1; 0];
     vecZ [0; 0; -9; 0; -2; 7; 100]].

(** A tableau with no constraint row and a negative reduced cost. *)
Definition no_constraint_row : array2 := matZ 2 [[-1; 0]].

(** min -x1 subject to 0 x1 + 0 x2 = 0: its only constraint is redundant. *)
Definition only_redundant : problem :=
  Problem (matZ 2 [[0; 0]]) (vecZ [0]) (vecZ [-1; 0]).

(** A problem with a NaN in [A]. *)
Definition nan_problem : problem :=
  Problem (Array2 1 [[NaN]]) [one] [one].

Local Close Scope Z_scope.

(* ================================================================= *)
(** ** The tests of [getRow], and further concrete arrays *)

(** What [getRow] tests on an entry [x] of the column: that [x] is not zero,
    [np.abs(x) > np.sqrt(eps)], and that it is one,
    [np.abs(x - 1) <= eps]. *)
Definition counts_nonzero (x : num) : bool := abs x >? sqrt_eps.
Definition counts_one (x : num) : bool := abs (x - one) <=? eps.

(** min x1 + x2 subject to x1 = 1. *)
Definition free_variable_problem : problem :=
  Problem (matZ 2 [[1; 0]]%Z) (vecZ [1]%Z) (vecZ [1; 1]%Z).

(** The final tableau of [simplex] on it, and the solution and the
    optimal value that [printResults] reads. *)
Definition free_variable_tableau : array2 :=
  matZ 3 [[1; 0; 1]; [0; 1; -1]]%Z.

(** The product [u @ y] of a row by a vector of the same length. *)
Definition dot (u y : array1) : num :=
  sum (map (fun xy => fst xy * snd xy) (combine u y)).


(* ================================================================= *)
(** ** The simplex in basis form *)

Module BasisForm.

(** One entry of [iters]:
    [[xb, cost, basis.copy(), reducedCost, -minusd[:, p], step, p, q]],
    the last four [None] in the iteration that finds the basis optimal. *)
Record iteration : Type := Iteration {
  it_xb : array1;
  it_cost : num;
  it_basis : list nat;
  it_reducedCost : array1;
  it_direction : option array1;
  it_step : option num;
  it_p : option nat;
  it_q : option nat
}.

(** What [optimalbasis] is bound to on return: the list object that the
    caller passed as [basis], or a new array [np.zeros((m, 1))]. *)
Inductive optimalbasis : Type :=
| CallerBasis
| Zeros (m : nat).

(** [A[:, basis]] and [c[basis]] for a list of indices. *)
Definition take_columns (A : array2) (basis : list nat) : result array2 :=
  if forallb (fun j => j <? ncols A)%nat basis
  then Return (Array2 (length basis)
                      (map (fun r => map (fun j => get1 r j) basis) (rows A)))
  else Raise IndexError.

Definition take (c : array1) (basis : list nat) : result array1 :=
  if forallb (fun j => j <? length c)%nat basis
  then Return (map (fun j => get1 c j) basis)
  else Raise IndexError.

(** [u @ v] for two 1-D arrays, [u @ M] for a 1-D and a 2-D array. *)
Definition matmul_vv (u v : array1) : result num :=
  if (length u =? length v)%nat then Return (dot u v) else Raise ValueError.

Definition matmul_vm (u : array1) (M : array2) : result array1 :=
  if (length u =? nrows M)%nat
  then Return (map (fun j => dot u (column M j)) (seq 0 (ncols M)))
  else Raise ValueError.

(** [u - v] for two 1-D arrays, with numpy's broadcasting of an array of
    length 1. *)
Definition subtract (u v : array1) : result array1 :=
  if (length u =? length v)%nat then Return (vsub u v)
  else match u, v with
       | _, [y] => Return (map (fun x => x - y) u)
       | [x], _ => Return (map (fun y => x - y) v)
       | _, _ => Raise ValueError
       end.

(** [xb[k] / minusd[k][p] if minusd[k][p] > 0 else np.inf] *)
Definition step_at (xb : array1) (minusd : array2) (p k : nat) : result num :=
  if (k <? nrows minusd)%nat && (p <? ncols minusd)%nat then
    if get minusd k p >? zero then
      if (k <? length xb)%nat then Return (get1 xb k / get minusd k p)
      else Raise IndexError
    else Return inf
  else Raise IndexError.

(** How one pass through the loop ends: [stop] has been set, with the
    values of [optimalbasis] and [unbounded], or [basis[q] = p] has been
    done. *)
Inductive pass : Type :=
| Stop (optimal : optimalbasis) (unbounded : bool) (it : iteration)
| Exchange (basis : list nat) (it : iteration).

Section Solve.

(** [np.linalg.solve(B, b)] for a 1-D and for a 2-D right-hand side: what
    they return, or raise, is left open. *)
Variable solve_vector : array2 -> array1 -> result array1.
Variable solve_matrix : array2 -> array2 -> result array2.

(** The body of [while not stop], on the contents of the list [basis]. *)
Definition body (A : array2) (b c : array1) (basis : list nat)
  : result pass :=
  let m := nrows A in
  B <- take_columns A basis ;;
  xb <- solve_vector B b ;;
  minusd <- solve_matrix B A ;;
  cB <- take c basis ;;
  cost <- matmul_vv cB xb ;;
  cBd <- matmul_vm cB minusd ;;
  reducedCost <- subtract c cBd ;;
  let negativeReducedCost := map (fun x => x <? zero) reducedCost in
  if negb (any negativeReducedCost) then
    Return (Stop CallerBasis false
              (Iteration xb cost basis reducedCost None None None None))
  else
    let p := argmax_bool negativeReducedCost in
    steps <- mapM (step_at xb minusd p) (seq 0 m) ;;
    q <- argmin steps ;;
    let step := get1 steps q in
    let it := Iteration xb cost basis reducedCost
                        (Some (vneg (column minusd p))) (Some step)
                        (Some p) (Some q) in
    if step =? inf then Return (Stop (Zeros m) true it)
    else if (q <? length basis)%nat
         then Return (Exchange (update basis q p) it)
         else Raise IndexError.

(** The loop, on the contents of the caller's list [basis] and on
    [iters]; [fuel] bounds the number of passes. *)
Fixpoint loop (fuel : nat) (A : array2) (b c : array1) (basis : list nat)
    (iters : list iteration)
  : list nat * result (optimalbasis * bool * list iteration) :=
  match fuel with
  | O => (basis, OutOfFuel)
  | S fuel' =>
      match body A b c basis with
      | Return (Stop optimal unbounded it) =>
          (basis, Return (optimal, unbounded, iters ++ [it]))
      | Return (Exchange basis' it) =>
          loop fuel' A b c basis' (iters ++ [it])
      | Raise e => (basis, Raise e)
      | OutOfFuel => (basis, OutOfFuel)
      end
  end.

(** [simplex(A, b, c, basis)]: the final contents of the caller's list
    [basis], and the outcome [(optimalbasis, unbounded, iters)]. *)
Definition simplex (fuel : nat) (A : array2) (b c : array1)
    (basis : list nat)
  : list nat * result (optimalbasis * bool * list iteration) :=
  let m := nrows A in
  let n := ncols A in
  if negb (length b =? m)%nat then (basis, Raise IncompatibleSizes)
  else if negb (length c =? n)%nat then (basis, Raise IncompatibleSizes)
  else loop fuel A b c basis [].

End Solve.

(** The basis of the iteration after [it1] is that of [it1] with
    [basis[q] = p] done. *)
Definition exchanged (it1 it2 : iteration) : Prop :=
  exists p q,
    it_p it1 = Some p /\ it_q it1 = Some q /\
    (q < length (it_basis it1))%nat /\
    it_step it1 <> Some inf /\
    it_basis it2 = update (it_basis it1) q p.

Fixpoint chained (iters : list iteration) : Prop :=
  match iters with
  | it1 :: (it2 :: _) as rest => exchanged it1 it2 /\ chained rest
  | _ => True
  end.

(** An oracle for [np.linalg.solve] on the systems whose matrix needs no
    exchange of rows: Gauss-Jordan elimination on [[B | M]], with the
    pivots taken on the diagonal. *)
Definition augment (B M : array2) : array2 :=
  Array2 (ncols B + ncols M)
         (map (fun i => row B i ++ row M i) (seq 0 (nrows B))).

Fixpoint eliminate (count k : nat) (T : array2) : result array2 :=
  match count with
  | O => Return T
  | S count' => T' <- pivoting T k k ;; eliminate count' (S k) T'
  end.

Definition gauss_matrix (B M : array2) : result array2 :=
  T <- eliminate (nrows B) 0 (augment B M) ;;
  Return (delete_columns T 0 (ncols B)).

Definition gauss_vector (B : array2) (b : array1) : result array1 :=
  X <- gauss_matrix B (Array2 1 (map (fun x => [x]) b)) ;;
  Return (column X 0).

(** min -x1 - x2 subject to x1 + x3 = 1, x2 + x4 = 1. *)
Definition square_A : array2 := matZ 4 [[1; 0; 1; 0]; [0; 1; 0; 1]]%Z.
Definition square_b : array1 := vecZ [1; 1]%Z.
Definition square_c : array1 := vecZ [-1; -1; 0; 0]%Z.

End BasisForm.

(* ================================================================= *)
(** ** Newton's local method *)

Module Newton.

(** The second component of the value returned. *)
Inductive message : Type :=
| PrecisionReached (normg eps : num)
    (* 'Required precision has been reached: {normg} <= {eps}' *)
| MaximumIterations (maxiter : Z)
    (* 'Maximum number of iterations reached: {maxiter}' *)
| NumericalIssue (k : Z).
    (* 'Numerical issue encountered in iteration {k}: {e}' *)

(** How a call ends.  The notebook imports numpy as [np] only, so the
    name [LinAlgError] of the clause [except LinAlgError as e] is not
    bound: when a statement of the [try] block raises, the evaluation of
    the clause raises [NameError]. *)
Inductive outcome : Type :=
| Returns (x : option array1) (m : message)
| NameError
| RaisedByFct
| NoFuel.

(** [x + d] for two 1-D arrays, with numpy's broadcasting of an array of
    length 1; [None] when the shapes cannot be broadcast. *)
Definition plus (x d : array1) : option array1 :=
  if (length x =? length d)%nat
  then Some (map (fun xy => fst xy + snd xy) (combine x d))
  else match x, d with
       | _, [y] => Some (map (fun a => a + y) x)
       | [a], _ => Some (map (fun y => a + y) d)
       | _, _ => None
       end.

Section Method.

(** The function [fct], which returns [(f, g, H)] or raises ([None]);
    [np.linalg.norm]; and [np.linalg.solve], which returns the solution or
    raises ([None]). *)
Variable fct : array1 -> option (num * array1 * array2).
Variable norm : array1 -> num.
Variable solve : array2 -> array1 -> option array1.

Variable eps : num.
Variable maxiter : Z.

(** The loop and the two [return] after it, on the variables [k], [x],
    [g] and [H]; [fuel] bounds the number of passes. *)
Fixpoint iterate (fuel : nat) (k : Z) (x g : array1) (H : array2) : outcome :=
  match fuel with
  | O => NoFuel
  | S fuel' =>
      if (norm g >? eps) && (k <=? maxiter)%Z then
        match solve H (vneg g) with
        | None => NameError
        | Some d =>
            match plus x d with
            | None => NameError
            | Some x' =>
                match fct x' with
                | None => RaisedByFct
                | Some (_, g', H') => iterate fuel' (k + 1)%Z x' g' H'
                end
            end
        end
      else if norm g <=? eps then
        Returns (Some x) (PrecisionReached (norm g) eps)
      else Returns None (MaximumIterations maxiter)
  end.

Definition newtonLocal (fuel : nat) (x0 : array1) : outcome :=
  match fct x0 with
  | None => RaisedByFct
  | Some (_, g, H) => iterate fuel 0%Z x0 g H
  end.

(** One pass through the body of the loop, [x = x + d] with
    [d = np.linalg.solve(H, -g)], and the point after [n] passes from
    [x]; [None] when a call raises. *)
Definition step (x : array1) : option array1 :=
  match fct x with
  | Some (_, g, H) =>
      match solve H (vneg g) with
      | Some d => plus x d
      | None => None
      end
  | None => None
  end.

Fixpoint point (n : nat) (x : array1) : option array1 :=
  match n with
  | O => Some x
  | S n' =>
      match step x with
      | Some x' => point n' x'
      | None => None
      end
  end.

End Method.

(** The function of the notebook,
    f(x) = 2 x1^3 + 6 x1 x2^2 - 3 x2^3 - 150 x1, with its gradient and
    its Hessian; an index out of the array raises. *)
Definition func (x : array1) : option (num * array1 * array2) :=
  match x with
  | x0 :: x1 :: _ =>
      let f := of_Z 2 * (x0 * x0 * x0) + of_Z 6 * x0 * (x1 * x1)
               - of_Z 3 * (x1 * x1 * x1) - of_Z 150 * x0 in
      let g := [of_Z 6 * (x0 * x0) + of_Z 6 * (x1 * x1) - of_Z 150;
                of_Z 12 * x0 * x1 - of_Z 9 * (x1 * x1)] in
      let h := Array2 2 [[of_Z 12 * x0; of_Z 12 * x1];
                         [of_Z 12 * x1; of_Z 12 * x0 - of_Z 18 * x1]] in
      Some (f, g, h)
  | _ => None
  end.

(** For the examples: [np.linalg.solve] by the elimination above, and, in
    the place of the Euclidean norm, the sum of the absolute values, which
    stays rational. *)
Definition solve_exact (H : array2) (g : array1) : option array1 :=
  match BasisForm.gauss_vector H g with
  | Return d => Some d
  | _ => None
  end.

Definition norm1 (g : array1) : num := sum (map abs g).

End Newton.

(* ================================================================= *)
(** ** A problem with a duplicated column *)

(** A problem with twice the same column: min x1 + x2 subject to
    x1 + x2 = 1, and the tableau that [simplex] returns for it. *)
Definition duplicate_column_problem : problem :=
  Problem (matZ 2 [[1; 1]]%Z) (vecZ [1]%Z) (vecZ [1; 1]%Z).

Definition duplicate_column_tableau : array2 :=
  matZ 3 [[1; 1; 1]; [0; 0; -2]]%Z.

(* ================================================================= *)
(** ** binary64 arithmetic *)

(** The arithmetic of [Num] is exact; it serves for what depends on the
    shapes of the arrays, on comparisons and on the flow of control.  What
    [pivoting] does to the values is stated on the arithmetic of this
    module, which is that of numpy's float64: a sum, a product or a
    quotient of two finite numbers is the binary64 number nearest to the
    exact result, the one with an even last bit at a tie, and an infinity
    when that number would be 2^1024 or more in magnitude.  A binary64
    number has 53 significant bits, the last one of weight at least
    2^-1074.  The two zeros of binary64 are one number here: they compare
    equal, and [pivoting] does not divide by zero. *)

Module Binary64.

(** The integer nearest to [t], the even one of the two at a tie. *)
Definition nearest_even (t : Q) : Z :=
  let q := Qfloor t in
  match Qcompare (t - inject_Z q) (1 # 2) with
  | Lt => q
  | Gt => (q + 1)%Z
  | Eq => if Z.even q then q else (q + 1)%Z
  end.

(** For [x > 0], the exponent [e] with [2^e <= x < 2^(e+1)]. *)
Definition ilog2 (x : Q) : Z :=
  let k := (Z.log2 (Qnum x) - Z.log2 (Zpos (Qden x)))%Z in
  if Qle_bool (2 ^ k) x then k else (k - 1)%Z.

(** The weight of the last of the 53 bits of the binary64 numbers of the
    magnitude of [x] is [2 ^ ulp_exponent x] ([-1074] for the subnormal
    numbers, those below 2^-1022). *)
Definition ulp_exponent (x : Q) : Z := Z.max (ilog2 x - 52) (-1074).

(** For [x > 0], the multiple of that weight nearest to [x]. *)
Definition round_magnitude (x : Q) : Q :=
  let ex := ulp_exponent x in
  (inject_Z (nearest_even (x / 2 ^ ex)) * 2 ^ ex)%Q.

(** Rounding to nearest, ties to even, with overflow to the infinities. *)
Definition round (x : Qc) : num :=
  match Qcompare x 0 with
  | Eq => Fin (Q2Qc 0)
  | Gt => let y := round_magnitude x in
          if Qle_bool (2 ^ 1024) y then PInf else Fin (Q2Qc y)
  | Lt => let y := round_magnitude (- x) in
          if Qle_bool (2 ^ 1024) y then NInf else Fin (Q2Qc (- y))
  end.

(** The unit roundoff of binary64, 2^-53. *)
Definition unit_roundoff : Q := 1 # 9007199254740992.

(** The numbers a float64 array can hold. *)
Definition is_binary64 (a : num) : bool :=
  match a with
  | Fin x => match round x with Fin y => Qc_eqb x y | _ => false end
  | _ => true
  end.

(** A float64 array holds such numbers only. *)
Definition is_float64 (T : array2) : bool :=
  forallb (forallb is_binary64) (rows T).

(** [a + b], [a - b], [a * b] and [a / b] on float64; the operations on
    the infinities and NaN are those of [Num]. *)
Definition add (a b : num) : num :=
  match a, b with
  | Fin x, Fin y => round (x + y)
  | _, _ => Num.add a b
  end.

Definition sub (a b : num) : num := add a (neg b).

Definition mul (a b : num) : num :=
  match a, b with
  | Fin x, Fin y => round (x * y)
  | _, _ => Num.mul a b
  end.

Definition div (a b : num) : num :=
  match a, b with
  | Fin x, Fin y =>
      if Qc_eqb y (Q2Qc 0) then Num.div a b else round (x / y)
  | _, _ => Num.div a b
  end.

(** Elementwise operations on rows: [v / c], [c * v], [u - v]. *)
Definition vdiv (v : array1) (c : num) : array1 := map (fun x => div x c) v.
Definition vmul (c : num) (v : array1) : array1 := map (fun x => mul c x) v.
Definition vsub (u v : array1) : array1 :=
  map (fun xy => sub (fst xy) (snd xy)) (combine u v).

(** [pivoting] on a float64 tableau. *)
Definition pivoting (tableau : array2) (p q : nat) : result array2 :=
  let m := nrows tableau in
  let n := ncols tableau in
  if (m <=? q)%nat then Raise PivotRowOutOfRange
  else if (n <=? p)%nat then Raise PivotColumnOutOfRange
  else
    let thepivot := get tableau q p in
    if abs thepivot <? eps then Raise PivotTooCloseToZero
    else
      let thepivotrow := row tableau q in
      Return (Array2 n
        (map (fun i =>
                if (i =? q)%nat then vdiv (row tableau q) thepivot
                else vsub (row tableau i)
                          (vdiv (vmul (get tableau i p) thepivotrow) thepivot))
             (seq 0 m))).

(** The same in the heap: the result is the array [newtableau] that
    [np.empty] allocates. *)
Definition pivoting_heap (h : heap) (l : loc) (p q : nat)
  : heap * result loc :=
  match nth_error h l with
  | None => (h, Raise IndexError)
  | Some tableau =>
      match pivoting tableau p q with
      | Return newtableau =>
          let (h', l') := alloc h newtableau in (h', Return l')
      | Raise e => (h, Raise e)
      | OutOfFuel => (h, OutOfFuel)
      end
  end.

(** *** int64 arrays *)

(** [np.array] makes an int64 array of a list of Python integers (the
    tableau of Example 2 of the pivoting notebook is one).  Its entries are
    the integers from -2^63 to 2^63 - 1, and the result of an operation on
    them is reduced modulo 2^64 into that range. *)
Definition wrap_int64 (z : Z) : Z := ((z + 2 ^ 63) mod 2 ^ 64 - 2 ^ 63)%Z.

Definition in_int64 (z : Z) : bool :=
  ((- 2 ^ 63 <=? z) && (z <? 2 ^ 63))%Z.

(** The conversion of an int64 to float64. *)
Definition of_int64 (z : Z) : num := round (Q2Qc (inject_Z z)).

(** [np.abs] of an int64. *)
Definition abs_int64 (z : Z) : Z := wrap_int64 (Z.abs z).

Record int_array2 : Type := IntArray2 { int_ncols : nat; int_rows : list (list Z) }.

Definition int_nrows (T : int_array2) : nat := length (int_rows T).
Definition int_row (T : int_array2) (i : nat) : list Z := nth i (int_rows T) [].
Definition int_get (T : int_array2) (i j : nat) : Z := nth j (int_row T i) 0%Z.

Definition wf_int_array2 (T : int_array2) : Prop :=
  Forall (fun r => length r = int_ncols T /\
                   Forall (fun z => in_int64 z = true) r) (int_rows T).

(** [pivoting] on an int64 tableau: [tableau[q, :] / thepivot] converts
    both operands to float64 and divides; [tableau[i][p] * thepivotrow] is
    a product of int64, which is then converted and divided by the
    converted pivot; [tableau[i, :]] is converted for the subtraction.  The
    array [newtableau] is a float64 array. *)
Definition pivoting_int64 (tableau : int_array2) (p q : nat) : result array2 :=
  let m := int_nrows tableau in
  let n := int_ncols tableau in
  if (m <=? q)%nat then Raise PivotRowOutOfRange
  else if (n <=? p)%nat then Raise PivotColumnOutOfRange
  else
    let thepivot := int_get tableau q p in
    if of_int64 (abs_int64 thepivot) <? eps then Raise PivotTooCloseToZero
    else
      let thepivotrow := int_row tableau q in
      Return (Array2 n
        (map (fun i =>
                if (i =? q)%nat then
                  map (fun x => div (of_int64 x) (of_int64 thepivot))
                      (int_row tableau q)
                else
                  map (fun xy =>
                         sub (of_int64 (fst xy))
                             (div (of_int64
                                     (wrap_int64 (int_get tableau i p * snd xy)))
                                  (of_int64 thepivot)))
                      (combine (int_row tableau i) thepivotrow))
             (seq 0 m))).

(** The float64 that Python reads from the decimal literal [a / b]. *)
Definition literal (a : Z) (b : positive) : num := round (Q2Qc (a # b)).

End Binary64.

(** A tableau of four entries 0.1. *)
Definition tenths : array2 :=
  let tenth := Binary64.literal 1 10 in
  Array2 2 [[tenth; tenth]; [tenth; tenth]].

(** A tableau whose first column holds 0.1 and 0.1 * 2^31. *)
Definition tenth_and_large : array2 :=
  let tenth := Binary64.literal 1 10 in
  Array2 2 [[tenth; zero]; [Binary64.mul tenth (of_Z (2 ^ 31)); zero]].

(** The tableau of Example 2 of the pivoting notebook, an int64 array. *)
Definition pivoting_example2 : Binary64.int_array2 :=
  Binary64.IntArray2 7
    [[1; 5; 3; 7; 0; 0; 12];
     [0; 6; 9; 0; 1; 0; 6];
     [0; 0; 3; 7; 0; 1; 0]]%Z.

(* ================================================================= *)
(** ** The dtype of the caller's arrays *)

(** The arrays that [simplex] is given are float64 or int64 arrays, and its
    assignments [A[i, :] = - A[i, :]] and [b[i] = - b[i]] compute the
    opposite in the dtype of the array: exactly on float64, modulo 2^64 on
    int64, where the opposite of -2^63 is -2^63.  The entries of an int64
    array are the numbers [of_Z z]. *)
Inductive dtype : Type := float64 | int64.

Definition negative (d : dtype) (a : num) : num :=
  match d with
  | float64 => - a
  | int64 =>
      match a with
      | Fin x => of_Z (Binary64.wrap_int64 (- Qfloor x))
      | _ => - a
      end
  end.

Definition normalize_as (dA db : dtype) (st : problem) : problem :=
  fold_left
    (fun s i =>
       Problem (Array2 (ncols (pA s))
                       (update (rows (pA s)) i
                               (map (negative dA) (row (pA s) i))))
               (update (pb s) i (negative db (get1 (pb s) i)))
               (pc s))
    (negativeb (pb st)) st.

(** [simplex] on arrays [A] and [b] of the dtypes [dA] and [db]; [simplex]
    above is the case of two float64 arrays. *)
Definition simplex_as (set_pop : list nat -> nat)
    (set_list : list nat -> list nat) (dA db : dtype) (fuel : nat)
    (st : problem) : problem * result (array2 * bool * bool) :=
  let m := nrows (pA st) in
  let n := ncols (pA st) in
  if negb (length (pb st) =? m)%nat then (st, Raise IncompatibleSizes)
  else if negb (length (pc st) =? n)%nat then (st, Raise IncompatibleSizes)
  else
    let st' := normalize_as dA db st in
    (st', simplexPhases set_pop set_list fuel (pA st') (pb st') (pc st')).

(** The entries of an int64 array. *)
Definition int64_entry (a : num) : Prop :=
  exists z, a = of_Z z /\ (- 2 ^ 63 <= z < 2 ^ 63)%Z.

(** An int64 array [b] holding -2^63. *)
Definition least_int64_problem : problem :=
  Problem (matZ 1 [[1]]%Z) (vecZ [- 2 ^ 63]%Z) (vecZ [0]%Z).

(* ================================================================= *)
(** * Properties *)

(** ** binary64 rounding *)

Local Open Scope Q_scope.

Lemma nearest_even_comp (s t : Q) : s == t -> Binary64.nearest_even s = Binary64.nearest_even t.
Proof.
  intro E. unfold Binary64.nearest_even.
  rewrite (Qfloor_comp s t E).
  assert (C : (s - inject_Z (Qfloor t) ?= 1 # 2) = (t - inject_Z (Qfloor t) ?= 1 # 2)).
  { apply Qcompare_comp; [ rewrite E; reflexivity | reflexivity ]. }
  rewrite C. reflexivity.
Qed.

Lemma nearest_even_Z (z : Z) : Binary64.nearest_even (inject_Z z) = z.
Proof.
  unfold Binary64.nearest_even. rewrite Qfloor_Z.
  assert (C : (inject_Z z - inject_Z z ?= 1 # 2) = Lt).
  { rewrite <- Qlt_alt. setoid_replace (inject_Z z - inject_Z z) with 0 by ring.
    reflexivity. }
  rewrite C. reflexivity.
Qed.

Lemma nearest_even_bounds (t : Q) :
  (Qfloor t <= Binary64.nearest_even t <= Qfloor t + 1)%Z.
Proof.
  unfold Binary64.nearest_even.
  destruct (t - inject_Z (Qfloor t) ?= 1 # 2); [ destruct (Z.even _) | | ]; lia.
Qed.

Lemma nearest_even_nonneg (t : Q) : 0 <= t -> (0 <= Binary64.nearest_even t)%Z.
Proof.
  intro H. pose proof (nearest_even_bounds t) as B.
  assert (0 <= Qfloor t)%Z; [ | lia ].
  change 0%Z with (Qfloor 0). now apply Qfloor_resp_le.
Qed.

Lemma nearest_even_below (t : Q) (k : Z) :
  t < inject_Z k -> (Binary64.nearest_even t <= k)%Z.
Proof.
  intro H. pose proof (nearest_even_bounds t) as B.
  assert (Qfloor t < k)%Z; [ | lia ].
  rewrite Zlt_Qlt. eapply Qle_lt_trans; [ apply Qfloor_le | exact H ].
Qed.

Lemma two_power_pos (e : Z) : 0 < 2 ^ e.
Proof. apply Qpower_0_lt. reflexivity. Qed.

Lemma two_power_nonzero (e : Z) : ~ 2 ^ e == 0.
Proof. intro H. pose proof (two_power_pos e) as P. rewrite H in P. discriminate. Qed.

Lemma two_power_Z (e : Z) : (0 <= e)%Z -> inject_Z (2 ^ e) == 2 ^ e.
Proof. intro H. now rewrite Zpower_Qpower. Qed.

Lemma two_power_succ (e : Z) : 2 ^ (e + 1) == 2 * 2 ^ e.
Proof. rewrite Qpower_plus by discriminate. ring. Qed.

Lemma ilog2_spec (x : Q) : 0 < x -> 2 ^ Binary64.ilog2 x <= x /\ x < 2 ^ (Binary64.ilog2 x + 1).
Proof.
  intro P. destruct x as [n d]. unfold Binary64.ilog2. cbn [Qnum Qden].
  assert (Pn : (0 < n)%Z) by (unfold Qlt in P; cbn in P; lia).
  set (a := Z.log2 n). set (b := Z.log2 (Zpos d)).
  destruct (Z.log2_spec n Pn) as [A1 A2]. fold a in A1, A2.
  destruct (Z.log2_spec (Zpos d) ltac:(lia)) as [B1 B2]. fold b in B1, B2.
  assert (Ha : (0 <= a)%Z) by apply Z.log2_nonneg.
  assert (Hb : (0 <= b)%Z) by apply Z.log2_nonneg.
  assert (X : n # d == inject_Z n / inject_Z (Zpos d)) by apply Qmake_Qdiv.
  assert (Dp : 0 < inject_Z (Zpos d)) by reflexivity.
  (* bounds in Q *)
  assert (U : n # d < 2 ^ (a - b + 1)).
  { rewrite X. apply Qlt_shift_div_r; [ exact Dp | ].
    apply Qlt_le_trans with (2 ^ (a + 1)).
    - rewrite <- two_power_Z by lia. rewrite <- Zlt_Qlt.
      replace (a + 1)%Z with (Z.succ a) by lia. exact A2.
    - replace (a + 1)%Z with ((a - b + 1) + b)%Z by lia.
      rewrite Qpower_plus by discriminate.
      apply Qmult_le_l; [ apply two_power_pos | ].
      rewrite <- two_power_Z by lia. rewrite <- Zle_Qle. exact B1. }
  assert (L : 2 ^ (a - b - 1) <= n # d).
  { rewrite X. apply Qle_shift_div_l; [ exact Dp | ].
    apply Qle_trans with (2 ^ a).
    - replace a with ((a - b - 1) + (b + 1))%Z at 2 by lia.
      rewrite Qpower_plus by discriminate.
      apply Qmult_le_l; [ apply two_power_pos | ].
      rewrite <- two_power_Z by lia. rewrite <- Zle_Qle.
      replace (b + 1)%Z with (Z.succ b) by lia. lia.
    - rewrite <- two_power_Z by lia. rewrite <- Zle_Qle. exact A1. }
  destruct (Qle_bool (2 ^ (a - b)) (n # d)) eqn:E.
  - apply Qle_bool_iff in E. split; assumption.
  - split; [ exact L | ].
    replace (a - b - 1 + 1)%Z with (a - b)%Z by lia.
    apply Qnot_le_lt. intro C. apply Qle_bool_iff in C. congruence.
Qed.

Lemma ilog2_unique (x : Q) (e : Z) :
  2 ^ e <= x -> x < 2 ^ (e + 1) -> Binary64.ilog2 x = e.
Proof.
  intros L U.
  assert (P : 0 < x) by (eapply Qlt_le_trans; [ apply (two_power_pos e) | exact L ]).
  destruct (ilog2_spec x P) as [L' U'].
  assert (H1 : (Binary64.ilog2 x < e + 1)%Z).
  { apply Qpower_lt_compat_l_inv with (q := 2); [ | reflexivity ].
    eapply Qle_lt_trans; eassumption. }
  assert (H2 : (e < Binary64.ilog2 x + 1)%Z).
  { apply Qpower_lt_compat_l_inv with (q := 2); [ | reflexivity ].
    eapply Qle_lt_trans; eassumption. }
  lia.
Qed.

Lemma ilog2_comp (x y : Q) : 0 < x -> x == y -> Binary64.ilog2 x = Binary64.ilog2 y.
Proof.
  intros P E. destruct (ilog2_spec x P) as [L U].
  symmetry. apply ilog2_unique; rewrite <- E; assumption.
Qed.

Lemma round_magnitude_comp (x y : Q) :
  0 < x -> x == y -> Binary64.round_magnitude x == Binary64.round_magnitude y.
Proof.
  intros P E. unfold Binary64.round_magnitude, Binary64.ulp_exponent.
  rewrite (ilog2_comp x y P E).
  set (ex := Z.max _ _).
  rewrite (nearest_even_comp (x / 2 ^ ex) (y / 2 ^ ex)); [ reflexivity | ].
  rewrite E. reflexivity.
Qed.

Lemma inject_Z_pos (m : Z) : (0 < m)%Z -> 0 < inject_Z m.
Proof. intro H. change 0 with (inject_Z 0). now rewrite <- Zlt_Qlt. Qed.

Lemma representable_fixed (m ex : Z) (y : Q) :
  (0 < m <= 2 ^ 53)%Z -> (-1074 <= ex)%Z -> y == inject_Z m * 2 ^ ex ->
  Binary64.round_magnitude y == y.
Proof.
  intros [M0 M1] X Y.
  assert (Pm : 0 < inject_Z m) by now apply inject_Z_pos.
  assert (P : 0 < y).
  { rewrite Y. apply Qmult_lt_0_compat; [ exact Pm | apply two_power_pos ]. }
  destruct (Z.log2_spec m M0) as [A1 A2].
  set (a := Z.log2 m) in *.
  assert (Ha : (0 <= a)%Z) by apply Z.log2_nonneg.
  assert (Ha' : (a <= 53)%Z).
  { unfold a. change 53%Z with (Z.log2 (2 ^ 53)). now apply Z.log2_le_mono. }
  assert (E : Binary64.ilog2 y = (a + ex)%Z).
  { apply ilog2_unique; rewrite Y.
    - rewrite Qpower_plus by discriminate.
      apply Qmult_le_compat_r; [ | apply Qlt_le_weak, two_power_pos ].
      rewrite <- two_power_Z by lia. rewrite <- Zle_Qle. exact A1.
    - replace (a + ex + 1)%Z with ((a + 1) + ex)%Z by lia.
      rewrite Qpower_plus by discriminate.
      apply Qmult_lt_compat_r; [ apply two_power_pos | ].
      rewrite <- two_power_Z by lia. rewrite <- Zlt_Qlt.
      replace (a + 1)%Z with (Z.succ a) by lia. exact A2. }
  unfold Binary64.round_magnitude, Binary64.ulp_exponent. rewrite E.
  set (ex' := Z.max (a + ex - 52) (-1074)).
  assert (I : exists z : Z, y / 2 ^ ex' == inject_Z z).
  { destruct (Z_le_gt_dec a 52) as [ S | S ].
    - exists (m * 2 ^ (ex - ex'))%Z.
      rewrite inject_Z_mult, two_power_Z by lia.
      rewrite Y. rewrite Qpower_minus by discriminate.
      field. apply two_power_nonzero.
    - assert (A : a = 53%Z) by lia.
      assert (m = (2 ^ 53)%Z) by (rewrite A in A1; lia).
      exists (2 ^ 52)%Z.
      assert (X' : ex' = (ex + 1)%Z) by lia.
      rewrite X', Y. subst m.
      rewrite two_power_succ.
      rewrite !two_power_Z by lia.
      change (2 ^ 53) with (2 * 2 ^ 52).
      field. apply two_power_nonzero. }
  destruct I as [z Z].
  rewrite (nearest_even_comp _ _ Z), nearest_even_Z.
  rewrite <- Z. field. apply two_power_nonzero.
Qed.

Lemma round_magnitude_form (x : Q) :
  0 < x ->
  (0 <= Binary64.nearest_even (x / 2 ^ Binary64.ulp_exponent x) <= 2 ^ 53)%Z /\
  (-1074 <= Binary64.ulp_exponent x)%Z.
Proof.
  intro P. split; [ split | unfold Binary64.ulp_exponent; lia ].
  - apply nearest_even_nonneg.
    apply Qlt_le_weak, Qlt_shift_div_l; [ apply two_power_pos | ].
    now rewrite Qmult_0_l.
  - apply nearest_even_below.
    apply Qlt_shift_div_r; [ apply two_power_pos | ].
    destruct (ilog2_spec x P) as [_ U].
    eapply Qlt_le_trans; [ exact U | ].
    rewrite two_power_Z by lia.
    rewrite <- Qpower_plus by discriminate.
    apply Qpower_le_compat_l; [ unfold Binary64.ulp_exponent; lia | discriminate ].
Qed.

(** [nearest_even t] is an integer nearest to [t], and the even one of the
    two when [t] is half way between them. *)
Lemma nearest_even_error (t : Q) :
  Qabs (inject_Z (Binary64.nearest_even t) - t) <= 1 # 2.
Proof.
  pose proof (Qfloor_le t) as L. pose proof (Qlt_floor t) as U.
  rewrite inject_Z_plus in U. change (inject_Z 1) with 1 in U.
  apply Qabs_Qle_condition. unfold Binary64.nearest_even.
  destruct (t - inject_Z (Qfloor t) ?= 1 # 2) eqn:C.
  - apply Qeq_alt in C.
    destruct (Z.even (Qfloor t));
      rewrite ?inject_Z_plus; change (inject_Z 1) with 1; split; lra.
  - apply Qlt_alt in C. split; lra.
  - apply Qgt_alt in C. rewrite inject_Z_plus. change (inject_Z 1) with 1.
    split; lra.
Qed.

Lemma nearest_even_tie (t : Q) :
  t - inject_Z (Qfloor t) == 1 # 2 ->
  Z.even (Binary64.nearest_even t) = true.
Proof.
  intro H. unfold Binary64.nearest_even. apply Qeq_alt in H. rewrite H.
  destruct (Z.even (Qfloor t)) eqn:E; [ exact E | ].
  rewrite Z.even_add, E. reflexivity.
Qed.

(** The rounded magnitude is within half a unit of the last place. *)
Lemma round_magnitude_error (x : Q) :
  Qabs (Binary64.round_magnitude x - x)
  <= (1 # 2) * 2 ^ Binary64.ulp_exponent x.
Proof.
  unfold Binary64.round_magnitude.
  set (ex := Binary64.ulp_exponent x).
  set (m := Binary64.nearest_even (x / 2 ^ ex)).
  assert (E : inject_Z m * 2 ^ ex - x
              == (inject_Z m - x / 2 ^ ex) * 2 ^ ex)
    by (field; apply two_power_nonzero).
  rewrite E, Qabs_Qmult.
  rewrite (Qabs_pos (2 ^ ex)) by apply Qlt_le_weak, two_power_pos.
  apply Qmult_le_compat_r; [ | apply Qlt_le_weak, two_power_pos ].
  apply nearest_even_error.
Qed.

Lemma round_magnitude_idem (x : Q) :
  0 < x ->
  Binary64.round_magnitude x == 0 \/
  (0 < Binary64.round_magnitude x /\
   Binary64.round_magnitude (Binary64.round_magnitude x) == Binary64.round_magnitude x).
Proof.
  intro P. destruct (round_magnitude_form x P) as [[M0 M1] X].
  destruct (Z.eq_dec (Binary64.nearest_even (x / 2 ^ Binary64.ulp_exponent x)) 0) as [ Z | Z ].
  - left. unfold Binary64.round_magnitude. rewrite Z. ring.
  - right. split.
    + unfold Binary64.round_magnitude. apply Qmult_lt_0_compat; [ | apply two_power_pos ].
      apply inject_Z_pos. lia.
    + apply representable_fixed
        with (m := Binary64.nearest_even (x / 2 ^ Binary64.ulp_exponent x)) (ex := Binary64.ulp_exponent x);
        [ lia | exact X | reflexivity ].
Qed.

Lemma Fin_eq (x y : Qc) : x == y -> Fin x = Fin y.
Proof. intro E. f_equal. now apply Qc_is_canon. Qed.

Lemma Q2Qc_eq (x : Q) : Q2Qc x == x.
Proof. apply Qred_correct. Qed.

Lemma Qle_bool_comp (a x y : Q) : x == y -> Qle_bool a x = Qle_bool a y.
Proof.
  intro E. destruct (Qle_bool a x) eqn:X, (Qle_bool a y) eqn:Y; try reflexivity.
  - apply Qle_bool_iff in X. rewrite E in X. apply Qle_bool_iff in X. congruence.
  - apply Qle_bool_iff in Y. rewrite <- E in Y. apply Qle_bool_iff in Y. congruence.
Qed.

Lemma round_zero : Binary64.round (Q2Qc 0) = Fin (Q2Qc 0).
Proof. reflexivity. Qed.

Lemma round_positive (x : Qc) :
  0 < x ->
  Binary64.round x = if Qle_bool (2 ^ 1024) (Binary64.round_magnitude x) then PInf
            else Fin (Q2Qc (Binary64.round_magnitude x)).
Proof.
  intro P. unfold Binary64.round. rewrite Qgt_alt in P. unfold Qcompare in *.
  now rewrite P.
Qed.

Lemma round_negative (x : Qc) :
  x < 0 ->
  Binary64.round x = if Qle_bool (2 ^ 1024) (Binary64.round_magnitude (- x)) then NInf
            else Fin (Q2Qc (- Binary64.round_magnitude (- x))).
Proof.
  intro P. unfold Binary64.round. rewrite Qlt_alt in P. now rewrite P.
Qed.

Lemma round_null (x : Qc) : x == 0 -> Binary64.round x = Fin (Q2Qc 0).
Proof.
  intro P. unfold Binary64.round. rewrite Qeq_alt in P. now rewrite P.
Qed.

(** A number that [round] gives is a binary64 number: rounding it again
    gives it back. *)
Lemma round_idem (x y : Qc) : Binary64.round x = Fin y -> Binary64.round y = Fin y.
Proof.
  intro R. destruct (Q_dec x 0) as [ [ N | P ] | Z ].
  - (* negative *)
    rewrite (round_negative x N) in R.
    assert (P : 0 < - x) by (apply Qopp_lt_compat in N; exact N).
    destruct (Qle_bool _ _) eqn:O in R; [ discriminate | ].
    injection R as R.
    destruct (round_magnitude_idem (- x) P) as [ Z | [ P' I ] ].
    + assert (E : y == 0) by (rewrite <- R, Q2Qc_eq, Z; reflexivity).
      rewrite (round_null y E). symmetry. apply Fin_eq. rewrite E. reflexivity.
    + assert (E : - y == Binary64.round_magnitude (- x)) by (rewrite <- R, Q2Qc_eq; ring).
      assert (Ey : y == - Binary64.round_magnitude (- x)) by (rewrite <- E; ring).
      assert (N' : y < 0).
      { rewrite Ey. exact (Qopp_lt_compat _ _ P'). }
      rewrite (round_negative y N').
      assert (Py : 0 < - y) by (rewrite E; exact P').
      assert (I' : Binary64.round_magnitude (- y) == Binary64.round_magnitude (- x)).
      { rewrite (round_magnitude_comp _ _ Py E). exact I. }
      rewrite (Qle_bool_comp _ _ _ I'), O.
      apply Fin_eq. rewrite Q2Qc_eq, I', <- E. ring.
  - (* positive *)
    rewrite (round_positive x P) in R.
    destruct (Qle_bool _ _) eqn:O in R; [ discriminate | ].
    injection R as R.
    destruct (round_magnitude_idem x P) as [ Z | [ P' I ] ].
    + assert (E : y == 0) by (rewrite <- R, Q2Qc_eq, Z; reflexivity).
      rewrite (round_null y E). symmetry. apply Fin_eq. rewrite E. reflexivity.
    + assert (E : y == Binary64.round_magnitude x) by (rewrite <- R, Q2Qc_eq; reflexivity).
      assert (Py : 0 < y) by (rewrite E; exact P').
      rewrite (round_positive y Py).
      assert (I' : Binary64.round_magnitude y == Binary64.round_magnitude x).
      { rewrite (round_magnitude_comp _ _ Py E). exact I. }
      rewrite (Qle_bool_comp _ _ _ I'), O.
      apply Fin_eq. rewrite Q2Qc_eq, I', <- E. reflexivity.
  - rewrite (round_null x Z) in R. injection R as R. rewrite <- R.
    exact round_zero.
Qed.

(** In the range of the normal numbers rounding keeps the magnitude within
    its binade. *)
Lemma round_magnitude_normal (x : Q) :
  0 < x -> (-1022 <= Binary64.ilog2 x)%Z ->
  2 ^ Binary64.ilog2 x <= Binary64.round_magnitude x /\
  Binary64.round_magnitude x <= 2 ^ (Binary64.ilog2 x + 1).
Proof.
  intros P N. destruct (ilog2_spec x P) as [L U].
  destruct (round_magnitude_form x P) as [[_ M1] _].
  unfold Binary64.round_magnitude in *.
  assert (X : Binary64.ulp_exponent x = (Binary64.ilog2 x - 52)%Z)
    by (unfold Binary64.ulp_exponent; lia).
  rewrite X in *. set (e := Binary64.ilog2 x) in *.
  set (m := Binary64.nearest_even (x / 2 ^ (e - 52))) in *.
  assert (M0 : (2 ^ 52 <= m)%Z).
  { pose proof (nearest_even_bounds (x / 2 ^ (e - 52))) as B. fold m in B.
    assert (2 ^ 52 <= Qfloor (x / 2 ^ (e - 52)))%Z; [ | lia ].
    rewrite <- (Qfloor_Z (2 ^ 52)). apply Qfloor_resp_le.
    apply Qle_shift_div_l; [ apply two_power_pos | ].
    rewrite two_power_Z by lia. rewrite <- Qpower_plus by discriminate.
    replace (52 + (e - 52))%Z with e by lia. exact L. }
  split.
  - replace e with (52 + (e - 52))%Z at 1 by lia.
    rewrite Qpower_plus by discriminate.
    apply Qmult_le_compat_r; [ | apply Qlt_le_weak, two_power_pos ].
    rewrite <- two_power_Z by lia. now rewrite <- Zle_Qle.
  - replace (e + 1)%Z with (53 + (e - 52))%Z by lia.
    rewrite Qpower_plus by discriminate.
    apply Qmult_le_compat_r; [ | apply Qlt_le_weak, two_power_pos ].
    rewrite <- two_power_Z by lia. now rewrite <- Zle_Qle.
Qed.

(** The conversion of a non-zero integer of at most 64 bits is finite and
    not zero. *)
Lemma round_magnitude_integer (z : Z) :
  (0 < z <= 2 ^ 63)%Z ->
  1 <= Binary64.round_magnitude (inject_Z z) /\
  Binary64.round_magnitude (inject_Z z) < 2 ^ 1024.
Proof.
  intros [Z0 Z1].
  assert (P : 0 < inject_Z z) by now apply inject_Z_pos.
  destruct (ilog2_spec _ P) as [L U].
  assert (E0 : (0 <= Binary64.ilog2 (inject_Z z))%Z).
  { assert (-1 < Binary64.ilog2 (inject_Z z))%Z; [ | lia ].
    replace (-1)%Z with (0 - 1)%Z by lia. apply Z.lt_sub_lt_add_r.
    apply Qpower_lt_compat_l_inv with (q := 2); [ | reflexivity ].
    eapply Qle_lt_trans; [ | exact U ].
    change (2 ^ 0) with (inject_Z 1). rewrite <- Zle_Qle. lia. }
  assert (E1 : (Binary64.ilog2 (inject_Z z) < 64)%Z).
  { apply Qpower_lt_compat_l_inv with (q := 2); [ | reflexivity ].
    eapply Qle_lt_trans; [ exact L | ].
    rewrite <- two_power_Z by lia. rewrite <- Zlt_Qlt.
    eapply Z.le_lt_trans; [ exact Z1 | reflexivity ]. }
  destruct (round_magnitude_normal _ P ltac:(lia)) as [A B]. split.
  - eapply Qle_trans; [ | exact A ].
    change 1 with (2 ^ 0). apply Qpower_le_compat_l; [ lia | discriminate ].
  - eapply Qle_lt_trans; [ exact B | ].
    apply Qpower_lt_compat_l; [ lia | reflexivity ].
Qed.

Lemma Qle_bool_false (a b : Q) : b < a -> Qle_bool a b = false.
Proof.
  intro H. destruct (Qle_bool a b) eqn:E; [ | reflexivity ].
  apply Qle_bool_iff in E. exfalso. exact (Qlt_not_le _ _ H E).
Qed.

Lemma Q2Qc_nonzero (x : Q) : ~ x == 0 -> Q2Qc x <> Q2Qc 0.
Proof.
  intros H E. apply H. rewrite <- (Q2Qc_eq x), E. reflexivity.
Qed.

Lemma of_int64_nonzero (z : Z) :
  (- 2 ^ 63 <= z < 2 ^ 63)%Z -> z <> 0%Z ->
  exists x, Binary64.of_int64 z = Fin x /\ x <> Q2Qc 0.
Proof.
  intros R N. unfold Binary64.of_int64.
  assert (X : Q2Qc (inject_Z z) == inject_Z z) by apply Q2Qc_eq.
  destruct (Z.lt_trichotomy z 0) as [ L | [ E | G ] ]; [ | contradiction | ].
  - assert (P : 0 < inject_Z (- z)) by (apply inject_Z_pos; lia).
    assert (P' : 0 < - Q2Qc (inject_Z z)).
    { rewrite X, <- inject_Z_opp. exact P. }
    assert (N' : Q2Qc (inject_Z z) < 0).
    { rewrite X. change 0 with (inject_Z 0). rewrite <- Zlt_Qlt. exact L. }
    rewrite (round_negative _ N').
    assert (C : Binary64.round_magnitude (- Q2Qc (inject_Z z))
                == Binary64.round_magnitude (inject_Z (- z))).
    { apply round_magnitude_comp; [ exact P' | ].
      rewrite X, inject_Z_opp. reflexivity. }
    destruct (round_magnitude_integer (- z) ltac:(lia)) as [A B].
    rewrite Qle_bool_false by (rewrite C; exact B).
    eexists. split; [ reflexivity | ].
    apply Q2Qc_nonzero. intro Z. rewrite C in Z.
    assert (H : - Binary64.round_magnitude (inject_Z (- z)) == 0) by exact Z.
    apply (Qlt_not_le 0 1); [ reflexivity | ].
    eapply Qle_trans; [ exact A | ].
    setoid_replace (Binary64.round_magnitude (inject_Z (- z)))
      with (- - Binary64.round_magnitude (inject_Z (- z))) by ring.
    rewrite H. discriminate.
  - assert (P : 0 < inject_Z z) by (apply inject_Z_pos; lia).
    assert (P' : 0 < Q2Qc (inject_Z z)) by (rewrite X; exact P).
    rewrite (round_positive _ P').
    assert (C : Binary64.round_magnitude (Q2Qc (inject_Z z))
                == Binary64.round_magnitude (inject_Z z)).
    { apply round_magnitude_comp; [ exact P' | exact X ]. }
    destruct (round_magnitude_integer z ltac:(lia)) as [A B].
    rewrite Qle_bool_false by (rewrite C; exact B).
    eexists. split; [ reflexivity | ].
    apply Q2Qc_nonzero. intro Z. rewrite C in Z.
    apply (Qlt_not_le 0 1); [ reflexivity | ].
    eapply Qle_trans; [ exact A | ]. rewrite Z. discriminate.
Qed.

(** *** The accuracy of rounding *)

Lemma ilog2_lower (x : Q) (k : Z) :
  2 ^ k <= x -> (k <= Binary64.ilog2 x)%Z.
Proof.
  intro L.
  assert (P : 0 < x) by (eapply Qlt_le_trans; [ apply (two_power_pos k) | exact L ]).
  destruct (ilog2_spec x P) as [_ U].
  assert (k < Binary64.ilog2 x + 1)%Z; [ | lia ].
  apply Qpower_lt_compat_l_inv with (q := 2); [ | reflexivity ].
  eapply Qle_lt_trans; eassumption.
Qed.

Lemma ilog2_upper (x : Q) (k : Z) :
  0 < x -> x < 2 ^ k -> (Binary64.ilog2 x < k)%Z.
Proof.
  intros P U. destruct (ilog2_spec x P) as [L _].
  apply Qpower_lt_compat_l_inv with (q := 2); [ | reflexivity ].
  eapply Qle_lt_trans; eassumption.
Qed.

Lemma unit_roundoff_power : Binary64.unit_roundoff == 2 ^ (-53).
Proof. reflexivity. Qed.

(** Below 2^1023 the rounded magnitude is below 2^1024, and it differs from
    the magnitude by at most the unit roundoff times the magnitude, or by
    at most 2^-1075 when it is subnormal. *)
Lemma round_magnitude_accuracy (x : Q) :
  0 < x -> x < 2 ^ 1023 ->
  Binary64.round_magnitude x < 2 ^ 1024 /\
  Qabs (Binary64.round_magnitude x - x) <= Binary64.unit_roundoff * x + 2 ^ (-1075) /\
  (2 ^ (-1022) <= x ->
   Qabs (Binary64.round_magnitude x - x) <= Binary64.unit_roundoff * x).
Proof.
  intros P U.
  pose proof (ilog2_upper x 1023 P U) as E1.
  destruct (ilog2_spec x P) as [L _].
  pose proof (round_magnitude_error x) as Err.
  assert (Normal : (-1022 <= Binary64.ilog2 x)%Z ->
            Binary64.round_magnitude x < 2 ^ 1024 /\
            Qabs (Binary64.round_magnitude x - x) <= Binary64.unit_roundoff * x).
  { intro N. destruct (round_magnitude_normal x P N) as [_ B]. split.
    - eapply Qle_lt_trans; [ exact B | ].
      apply Qpower_lt_compat_l; [ lia | reflexivity ].
    - eapply Qle_trans; [ exact Err | ].
      replace (Binary64.ulp_exponent x) with (Binary64.ilog2 x - 52)%Z
        by (unfold Binary64.ulp_exponent; lia).
      apply Qle_trans with (Binary64.unit_roundoff * 2 ^ Binary64.ilog2 x).
      + rewrite unit_roundoff_power.
        replace (Binary64.ilog2 x - 52)%Z with (-52 + Binary64.ilog2 x)%Z by lia.
        rewrite Qpower_plus by discriminate.
        rewrite Qmult_assoc. apply Qmult_le_compat_r;
          [ discriminate | apply Qlt_le_weak, two_power_pos ].
      + apply Qmult_le_l; [ reflexivity | exact L ]. }
  destruct (Z_le_gt_dec (-1022) (Binary64.ilog2 x)) as [ N | S ].
  - destruct (Normal N) as [A B]. split; [ exact A | ]. split.
    + eapply Qle_trans; [ exact B | ].
      assert (0 <= 2 ^ (-1075)) by discriminate. lra.
    + intros _. exact B.
  - destruct (round_magnitude_form x P) as [[_ M] _].
    assert (X : Binary64.ulp_exponent x = (-1074)%Z)
      by (unfold Binary64.ulp_exponent; lia).
    split; [ | split ].
    + unfold Binary64.round_magnitude. rewrite X in *.
      apply Qle_lt_trans with (inject_Z (2 ^ 53) * 2 ^ (-1074)).
      * apply Qmult_le_compat_r; [ now rewrite <- Zle_Qle | discriminate ].
      * reflexivity.
    + eapply Qle_trans; [ exact Err | ]. rewrite X.
      assert (0 <= Binary64.unit_roundoff * x).
      { apply Qmult_le_0_compat; [ discriminate | now apply Qlt_le_weak ]. }
      setoid_replace ((1 # 2) * 2 ^ (-1074)) with (2 ^ (-1075)) by reflexivity.
      lra.
    + intro N. apply ilog2_lower in N. lia.
Qed.

Lemma round_accuracy (x : Qc) :
  Qabs x < 2 ^ 1023 ->
  exists y : Qc,
    Binary64.round x = Fin y /\
    Qabs (y - x) <= Binary64.unit_roundoff * Qabs x + 2 ^ (-1075) /\
    (2 ^ (-1022) <= Qabs x -> Qabs (y - x) <= Binary64.unit_roundoff * Qabs x).
Proof.
  intro U. destruct (Q_dec x 0) as [ [ N | P ] | Z ].
  - assert (A : Qabs x == - x) by (apply Qabs_neg; now apply Qlt_le_weak).
    rewrite A in U.
    assert (P : 0 < - x) by (exact (Qopp_lt_compat _ _ N)).
    destruct (round_magnitude_accuracy (- x) P U) as (O & E1 & E2).
    rewrite (round_negative x N), (Qle_bool_false _ _ O).
    eexists. split; [ reflexivity | ].
    assert (D : Qabs (Q2Qc (- Binary64.round_magnitude (- x)) - x)
                == Qabs (Binary64.round_magnitude (- x) - - x)).
    { rewrite Q2Qc_eq.
      setoid_replace (- Binary64.round_magnitude (- x) - x)
        with (- (Binary64.round_magnitude (- x) - - x)) by ring.
      apply Qabs_opp. }
    rewrite D, A. split; assumption.
  - assert (A : Qabs x == x) by (apply Qabs_pos; now apply Qlt_le_weak).
    rewrite A in U.
    destruct (round_magnitude_accuracy x P U) as (O & E1 & E2).
    rewrite (round_positive x P), (Qle_bool_false _ _ O).
    eexists. split; [ reflexivity | ].
    rewrite Q2Qc_eq, A. split; assumption.
  - rewrite (round_null x Z). exists (Q2Qc 0). split; [ reflexivity | ].
    assert (D : Qabs (Q2Qc 0 - x) == 0) by (rewrite Z; reflexivity).
    assert (A : Qabs x == 0) by (rewrite Z; reflexivity).
    rewrite D, A. split; [ discriminate | intros _; discriminate ].
Qed.

Lemma Qc_mult_eq (a d : Qc) : (a * d)%Qc == a * d.
Proof. apply Q2Qc_eq. Qed.

Lemma Qc_div_eq (a d : Qc) : (a / d)%Qc == a / d.
Proof.
  unfold Qcdiv, Qcmult, Qcinv. rewrite Q2Qc_eq, Q2Qc_eq. reflexivity.
Qed.

Lemma Qc_sub_eq (a d : Qc) : (a + - d)%Qc == a - d.
Proof.
  unfold Qcplus, Qcopp. rewrite Q2Qc_eq, Q2Qc_eq. reflexivity.
Qed.

Local Close Scope Q_scope.

(* ================================================================= *)
(** ** Arithmetic of the finite numbers *)

Lemma Qc_ltb_lt (x y : Qc) : Qc_ltb x y = true <-> (x < y)%Qc.
Proof.
  unfold Qc_ltb, Qclt. rewrite negb_true_iff.
  split; intro H.
  - apply Qnot_le_lt. intro L. apply Qle_bool_iff in L. congruence.
  - destruct (Qle_bool y x) eqn:E; [ | reflexivity ].
    apply Qle_bool_iff in E. exfalso. exact (Qlt_not_le _ _ H E).
Qed.

Lemma Qc_eqb_eq (x y : Qc) : Qc_eqb x y = true <-> x = y.
Proof.
  unfold Qc_eqb. rewrite Qeq_bool_iff. split; intro H.
  - now apply Qc_is_canon.
  - now subst.
Qed.

Lemma Qc_eqb_neq (x y : Qc) : x <> y -> Qc_eqb x y = false.
Proof.
  intro H. destruct (Qc_eqb x y) eqn:E; [ | reflexivity ].
  apply Qc_eqb_eq in E. contradiction.
Qed.

(** A pivot that passes the guard of [pivoting] is not zero. *)
Lemma guard_nonzero (x : Qc) :
  (abs (Fin x) <? eps) = false -> x <> Q2Qc 0.
Proof.
  intros H E. subst x. vm_compute in H. discriminate.
Qed.

Lemma div_Fin (x y : Qc) :
  y <> Q2Qc 0 -> Fin x / Fin y = Fin (x / y).
Proof.
  intro H. unfold div. now rewrite (Qc_eqb_neq _ _ H).
Qed.

Lemma finite_inv (a : num) : is_finite a = true -> exists x, a = Fin x.
Proof. destruct a; try discriminate. intros _. now exists x. Qed.

(** ** Arrays *)

Lemma get1_map (f : num -> num) (v : array1) (j : nat) :
  (j < length v)%nat -> get1 (map f v) j = f (get1 v j).
Proof.
  intro H. unfold get1.
  rewrite (nth_indep (map f v) NaN (f NaN)) by now rewrite length_map.
  apply map_nth.
Qed.

Lemma finite1_get1 (v : array1) (j : nat) :
  finite1 v = true -> (j < length v)%nat -> exists x, get1 v j = Fin x.
Proof.
  unfold finite1, get1. rewrite forallb_forall. intros F H.
  apply finite_inv, F, nth_In, H.
Qed.

Lemma wf_row_length (T : array2) (i : nat) :
  wf_array2 T -> (i < nrows T)%nat -> length (row T i) = ncols T.
Proof.
  unfold wf_array2, row, nrows. rewrite Forall_forall.
  intros W H. apply W, nth_In, H.
Qed.

Lemma finite2_row (T : array2) (i : nat) :
  finite2 T = true -> (i < nrows T)%nat -> finite1 (row T i) = true.
Proof.
  unfold finite2, row, nrows. rewrite forallb_forall.
  intros F H. apply F, nth_In, H.
Qed.

Lemma finite2_get (T : array2) (i j : nat) :
  wf_array2 T -> finite2 T = true ->
  (i < nrows T)%nat -> (j < ncols T)%nat -> exists x, get T i j = Fin x.
Proof.
  intros W F Hi Hj. unfold get.
  apply finite1_get1; [ now apply finite2_row | ].
  now rewrite wf_row_length.
Qed.

Lemma nth_map_seq {A : Type} (f : nat -> A) (m i : nat) (d : A) :
  (i < m)%nat -> nth i (map f (seq 0 m)) d = f i.
Proof.
  intro H.
  rewrite (nth_indep _ d (f 0%nat)) by now rewrite length_map, length_seq.
  rewrite map_nth, seq_nth by assumption. reflexivity.
Qed.

(** Checking computed numbers and rows. *)
Lemma same_eq (a b : num) : same a b = true -> a = b.
Proof.
  destruct a, b; cbn; try discriminate; try reflexivity.
  intro H. apply Qc_eqb_eq in H. now subst.
Qed.

Lemma same1_eq (u v : array1) : same1 u v = true -> u = v.
Proof.
  revert v. induction u as [ | a u IH ]; intros [ | b v ]; cbn;
    try discriminate; [ reflexivity | ].
  intro H. apply andb_true_iff in H. destruct H as [Ha Hu].
  f_equal; [ now apply same_eq | now apply IH ].
Qed.

(** ** The first [True] of a boolean array *)

Lemma argmax_bool_first (l : list bool) :
  any l = true ->
  (argmax_bool l < length l)%nat /\
  nth (argmax_bool l) l false = true /\
  forall j, (j < argmax_bool l)%nat -> nth j l false = false.
Proof.
  induction l as [ | b l IH ]; simpl; [ discriminate | ].
  destruct b; simpl.
  - intros _. repeat split; [ lia | intros j Hj; lia ].
  - intro H. rewrite H. destruct (IH H) as (L & V & F).
    repeat split; [ lia | exact V | ].
    intros [ | j ] Hj; [ reflexivity | apply F; lia ].
Qed.

(** ** What [pivoting] computes *)

Lemma length_vsub (u v : array1) :
  length u = length v -> length (vsub u v) = length u.
Proof.
  intro L. unfold vsub. rewrite length_map, length_combine. lia.
Qed.

Lemma length_vdiv (v : array1) (c : num) : length (vdiv v c) = length v.
Proof. apply length_map. Qed.

Lemma length_vmul (c : num) (v : array1) : length (vmul c v) = length v.
Proof. apply length_map. Qed.

Lemma array2_ext (S T : array2) :
  ncols S = ncols T -> nrows S = nrows T ->
  (forall i, (i < nrows S)%nat -> row S i = row T i) -> S = T.
Proof.
  destruct S as [n rs], T as [n' rt]. unfold nrows, row. simpl.
  intros -> L E. f_equal. apply (nth_ext _ _ [] []); assumption.
Qed.

Lemma Forall_rows (P : array1 -> Prop) (T : array2) :
  (forall i, (i < nrows T)%nat -> P (row T i)) -> Forall P (rows T).
Proof.
  intro H. apply Forall_forall. intros r Hr.
  destruct (In_nth _ _ [] Hr) as (i & Hi & <-). now apply H.
Qed.

(** The comparisons [>=] and [<] exclude each other. *)
Lemma geb_not_ltb (a b : num) : (a >=? b) = true -> (a <? b) = false.
Proof.
  unfold geb, leb. destruct a as [x | | | ], b as [y | | | ]; cbn;
    try reflexivity; try discriminate.
  intro H. destruct (Qc_ltb x y) eqn:E; [ | reflexivity ].
  apply Qc_ltb_lt in E. apply orb_true_iff in H. destruct H as [H | H].
  - apply Qc_ltb_lt in H. exfalso.
    exact (Qclt_not_le _ _ H (Qclt_le_weak _ _ E)).
  - apply Qc_eqb_eq in H. subst. exfalso.
    exact (Qclt_not_le _ _ E (Qcle_refl _)).
Qed.


(* ================================================================= *)
(** ** The entering column *)

(** C1 (as the code has it).  When the objective row, its right-hand side
    excluded, has a negative entry, the entering column is the first
    (lowest-index) column whose reduced cost is negative, whatever the
    sizes of the negative reduced costs; this is the column
    [simplexTableau] returns when it returns one, and the basis-form
    [simplex] selects its entering variable in the same way. *)
Theorem entering_first_negative (T : array2) :
  any (negativeReducedCost T) = true ->
  (entering T < length (reducedCost T))%nat /\
  (get1 (reducedCost T) (entering T) <? zero) = true /\
  (forall j, (j < entering T)%nat -> (get1 (reducedCost T) j <? zero) = false) /\
  (forall p q opt bounded,
      simplexTableau T = Return (Some p, q, opt, bounded) -> p = entering T) /\
  basis_entering (reducedCost T) = Some (entering T).
Proof.
  intro H. destruct (argmax_bool_first _ H) as (L & V & B).
  unfold entering, negativeReducedCost in *. rewrite length_map in L.
  repeat split.
  - exact L.
  - rewrite <- V.
    rewrite (nth_indep _ false ((fun x => x <? zero) NaN))
      by now rewrite length_map.
    symmetry. apply (map_nth (fun x => x <? zero)).
  - intros j Hj. rewrite <- (B j Hj).
    rewrite (nth_indep _ false ((fun x => x <? zero) NaN))
      by (rewrite length_map; lia).
    symmetry. apply (map_nth (fun x => x <? zero)).
  - intros p q opt bounded. unfold simplexTableau.
    destruct (rows T); [ discriminate | ].
    unfold negativeReducedCost, entering. rewrite H. cbn [negb].
    destruct (argmin _) as [ r | e | ]; cbn [bind]; try discriminate.
    destruct (_ =? inf); intro E; inversion E. reflexivity.
  - unfold basis_entering. now rewrite H.
Qed.

Lemma entering_first_negative_witness :
  entering two_negative_costs = 0%nat /\
  simplexTableau two_negative_costs = Return (Some 0%nat, Some 0%nat, false, true).
Proof.
  assert (H : any (negativeReducedCost two_negative_costs) = true)
    by reflexivity.
  destruct (entering_first_negative two_negative_costs H) as (_ & _ & _ & P & _).
  assert (E : simplexTableau two_negative_costs
              = Return (Some 0%nat, Some 0%nat, false, true))
    by (vm_compute; reflexivity).
  split; [ symmetry; exact (P _ _ _ _ E) | exact E ].
Defined.

(** C1 (as the claim has it) fails: with reduced costs -1 and -2 the code
    lets column 0 enter, in the tableau form and in the basis form,
    although column 1 has the more negative reduced cost. *)
Lemma entering_not_most_negative :
  simplexTableau two_negative_costs
  = Return (Some 0%nat, Some 0%nat, false, true) /\
  basis_entering (reducedCost two_negative_costs) = Some 0%nat /\
  reducedCost two_negative_costs = [of_Z (-1); of_Z (-2)] /\
  (get1 (reducedCost two_negative_costs) 1
   <? get1 (reducedCost two_negative_costs) 0) = true.
Proof. repeat split; vm_compute; reflexivity. Qed.

(* ================================================================= *)
(** ** The pivot *)



(* ================================================================= *)
(** ** The caller's arrays *)

Lemma length_update {A : Type} (l : list A) (i : nat) (x : A) :
  length (update l i x) = length l.
Proof.
  revert i. induction l as [ | y l IH ]; intros [ | i ]; simpl; auto.
Qed.

Lemma nth_update_same {A : Type} (l : list A) (i : nat) (x d : A) :
  (i < length l)%nat -> nth i (update l i x) d = x.
Proof.
  revert i. induction l as [ | y l IH ]; intros [ | i ] H; simpl in *;
    try lia; [ reflexivity | apply IH; lia ].
Qed.

Lemma nth_update_other {A : Type} (l : list A) (i j : nat) (x d : A) :
  j <> i -> nth j (update l i x) d = nth j l d.
Proof.
  revert i j. induction l as [ | y l IH ]; intros [ | i ] [ | j ] H;
    simpl; try reflexivity; try lia.
  apply IH. lia.
Qed.

Lemma In_negativeb (b : array1) (i : nat) :
  In i (negativeb b) <-> (i < length b)%nat /\ (get1 b i <? zero) = true.
Proof.
  unfold negativeb. rewrite filter_In, in_seq. intuition lia.
Qed.

Lemma NoDup_negativeb (b : array1) : NoDup (negativeb b).
Proof. apply NoDup_filter, seq_NoDup. Qed.

(** The loop over [negativeb]: the rows of [A] and the entries of [b] at
    the indices of the loop are replaced by their opposites in the dtype
    of the array, everything else is kept. *)
Lemma normalize_as_loop (dA db : dtype) (idx : list nat) (st : problem) :
  NoDup idx ->
  let st' :=
    fold_left
      (fun s i =>
         Problem (Array2 (ncols (pA s))
                         (update (rows (pA s)) i
                                 (map (negative dA) (row (pA s) i))))
                 (update (pb s) i (negative db (get1 (pb s) i)))
                 (pc s))
      idx st in
  pc st' = pc st /\
  ncols (pA st') = ncols (pA st) /\
  nrows (pA st') = nrows (pA st) /\
  length (pb st') = length (pb st) /\
  (forall i, ~ In i idx ->
     row (pA st') i = row (pA st) i /\ get1 (pb st') i = get1 (pb st) i) /\
  (forall i, In i idx ->
     ((i < nrows (pA st))%nat ->
      row (pA st') i = map (negative dA) (row (pA st) i)) /\
     ((i < length (pb st))%nat ->
      get1 (pb st') i = negative db (get1 (pb st) i))).
Proof.
  revert st. induction idx as [ | k idx IH ]; intros st ND; cbn [fold_left].
  - repeat split; try reflexivity; contradiction.
  - inversion ND as [ | ? ? Hk ND' ]; subst.
    set (s1 := Problem _ _ _).
    destruct (IH s1 ND') as (Ec & En & Em & El & Keep & Neg).
    assert (R1 : forall i, i <> k -> row (pA s1) i = row (pA st) i)
      by (intros i Hi; unfold row; cbn; now apply nth_update_other).
    assert (B1 : forall i, i <> k -> get1 (pb s1) i = get1 (pb st) i)
      by (intros i Hi; unfold get1; cbn; now apply nth_update_other).
    assert (M1 : nrows (pA s1) = nrows (pA st))
      by (unfold nrows; cbn; apply length_update).
    assert (L1 : length (pb s1) = length (pb st))
      by (cbn; apply length_update).
    split; [ exact Ec | ]. split; [ exact En | ].
    split; [ now rewrite Em | ]. split; [ now rewrite El | ]. split.
    + intros i Hi. cbn [In] in Hi.
      destruct (Keep i) as [Er Eb]; [ tauto | ].
      rewrite Er, Eb. split; [ apply R1 | apply B1 ]; intro; subst; tauto.
    + intros i [ <- | Hi ].
      * destruct (Keep k Hk) as [Er Eb]. rewrite Er, Eb. split; intro H.
        -- unfold row at 1. cbn. now apply nth_update_same.
        -- unfold get1 at 1. cbn. now apply nth_update_same.
      * destruct (Neg i Hi) as [Nr Nb].
        assert (i <> k) by (intro; subst; contradiction).
        rewrite M1, L1, R1, B1 in * by assumption. split; assumption.
Qed.

Lemma negativeb_nil (b : array1) :
  (forall i, (i < length b)%nat -> (get1 b i <? zero) = false) ->
  negativeb b = [].
Proof.
  intro H. unfold negativeb.
  assert (A : forall i, In i (seq 0 (length b)) -> (get1 b i <? zero) = false)
    by (intros i Hi; apply H; apply in_seq in Hi; lia).
  induction (seq 0 (length b)) as [ | i l IH ]; cbn [filter];
    [ reflexivity | ].
  rewrite (A i) by now left. apply IH. intros j Hj. apply A. now right.
Qed.

(** C3 (as the code has it).  When [simplex] has returned, raised or run
    out of fuel, the caller's [c] is as it was and so are every row of [A]
    and entry of [b] at an index where [b] was not negative; all three
    arrays are as they were when the sizes are incompatible, and when no
    entry of [b] is negative.  But when the sizes are compatible, every
    row of [A] and entry of [b] at an index where [b] was negative has been
    replaced, in the caller's arrays, by its opposite in the dtype of the
    array: the exact opposite on float64, the opposite modulo 2^64 on
    int64.  [simplex] is the case of float64 arrays. *)
Theorem simplex_caller_arrays (set_pop : list nat -> nat)
    (set_list : list nat -> list nat) (dA db : dtype) (fuel : nat)
    (st : problem) :
  let st' := fst (simplex_as set_pop set_list dA db fuel st) in
  simplex_as set_pop set_list float64 float64 fuel st
  = simplex set_pop set_list fuel st /\
  pc st' = pc st /\
  ncols (pA st') = ncols (pA st) /\
  nrows (pA st') = nrows (pA st) /\
  length (pb st') = length (pb st) /\
  (forall i, (get1 (pb st) i <? zero) = false ->
     row (pA st') i = row (pA st) i /\ get1 (pb st') i = get1 (pb st) i) /\
  (length (pb st) <> nrows (pA st) \/ length (pc st) <> ncols (pA st) ->
   st' = st) /\
  ((forall i, (i < length (pb st))%nat -> (get1 (pb st) i <? zero) = false) ->
   st' = st) /\
  (length (pb st) = nrows (pA st) -> length (pc st) = ncols (pA st) ->
   forall i, (i < length (pb st))%nat -> (get1 (pb st) i <? zero) = true ->
     row (pA st') i = map (negative dA) (row (pA st) i) /\
     get1 (pb st') i = negative db (get1 (pb st) i)).
Proof.
  split; [ reflexivity | ].
  unfold simplex_as.
  destruct (Nat.eqb_spec (length (pb st)) (nrows (pA st))) as [Hb | Hb];
    cbn [negb].
  2: { cbn [fst]. repeat split; reflexivity || (intros; contradiction). }
  destruct (Nat.eqb_spec (length (pc st)) (ncols (pA st))) as [Hc | Hc];
    cbn [negb].
  2: { cbn [fst]. repeat split; reflexivity || (intros; contradiction). }
  cbn [fst]. unfold normalize_as.
  destruct (normalize_as_loop dA db (negativeb (pb st)) st (NoDup_negativeb _))
    as (Ec & En & Em & El & Keep & Neg).
  repeat (split; [ assumption | ]). split; [ | split; [ | split ] ].
  - intros i Hi. apply Keep. rewrite In_negativeb. intros [_ H]. congruence.
  - intros [ H | H ]; contradiction.
  - intro H. now rewrite (negativeb_nil _ H).
  - intros _ _ i Hi Hneg.
    destruct (Neg i) as [Nr Nb]; [ now apply In_negativeb | ].
    split; [ apply Nr; lia | now apply Nb ].
Qed.

Lemma simplex_caller_arrays_witness :
  (row (pA (fst (simplex pop_least list_increasing 10 example3))) 0
   = vneg (row (pA example3) 0) /\
   get1 (pb (fst (simplex pop_least list_increasing 10 example3))) 0
   = - get1 (pb example3) 0) /\
  (let st' := fst (simplex_as pop_least list_increasing int64 int64 10
                              least_int64_problem) in
   row (pA st') 0 = [of_Z (-1)] /\ get1 (pb st') 0 = of_Z (- 2 ^ 63)).
Proof.
  split.
  - destruct (simplex_caller_arrays pop_least list_increasing float64 float64
                10 example3) as (E & _ & _ & _ & _ & _ & _ & _ & Neg).
    rewrite <- E. apply Neg.
    + reflexivity.
    + reflexivity.
    + vm_compute; lia.
    + vm_compute; reflexivity.
  - destruct (simplex_caller_arrays pop_least list_increasing int64 int64
                10 least_int64_problem) as (_ & _ & _ & _ & _ & _ & _ & _ & Neg).
    destruct (Neg eq_refl eq_refl 0%nat) as [Ra Rb].
    + vm_compute; lia.
    + vm_compute; reflexivity.
    + cbv zeta. rewrite Ra, Rb. split; apply same1_eq || apply same_eq;
        vm_compute; reflexivity.
Defined.

(** C3 (as the claim has it) fails: on Example 3, where both entries of [b]
    are negative, the caller's [A] and [b] come back negated. *)
Lemma simplex_mutates_A_and_b :
  fst (simplex pop_least list_increasing 10 example3) = example3_after /\
  pA example3_after <> pA example3 /\
  pb example3_after <> pb example3.
Proof.
  split; [ vm_compute; reflexivity | ].
  split; intro H; vm_compute in H; discriminate.
Qed.

(* ================================================================= *)
(** ** The outcomes of [simplex] *)

(** The ways in which [simplexPhases] returns. *)
Lemma simplexPhases_return (set_pop : list nat -> nat)
    (set_list : list nat -> list nat) (fuel : nat) (A : array2)
    (b c : array1) (T : array2) (u i : bool) :
  simplexPhases set_pop set_list fuel A b c = Return (T, u, i) ->
  exists T1 optimal unbounded,
    simplexAlgorithmTableau fuel (firstTableau A b)
    = Return (T1, optimal, unbounded) /\
    ((unbounded = true /\ T = firstTableau A b /\ u = true /\ i = false) \/
     (unbounded = false /\
      (last (last (rows T1) []) NaN <? - sqrt_eps) = true /\
      T = T1 /\ u = false /\ i = true) \/
     (unbounded = false /\
      (last (last (rows T1) []) NaN <? - sqrt_eps) = false /\
      i = false)).
Proof.
  unfold simplexPhases.
  destruct (simplexAlgorithmTableau fuel (firstTableau A b))
    as [ [[T1 optimal] unbounded] | e | ]; cbn [bind]; try discriminate.
  intro H. exists T1, optimal, unbounded. split; [ reflexivity | ].
  destruct unbounded.
  { left. inversion H. auto. }
  right. destruct (_ <? - sqrt_eps).
  { left. inversion H. auto. }
  right. repeat split.
  destruct (basicRowsOf T1 _) as [ br | e | ]; cbn [bind] in H;
    try discriminate.
  destruct (cleanBasis _ _ _ _ _ _ _ _) as [ cl | e | ]; cbn [bind] in H;
    try discriminate.
  unfold phaseTwo in H.
  destruct (basicRowsOf _ _) as [ br2 | e | ]; cbn [bind] in H;
    try discriminate.
  destruct (rows (delete_columns _ _ _)); try discriminate.
  destruct (simplexAlgorithmTableau _ _) as [ [[T2 o2] u2] | e | ];
    cbn [bind] in H; try discriminate.
  now inversion H.
Qed.

Lemma simplex_return (set_pop : list nat -> nat)
    (set_list : list nat -> list nat) (fuel : nat) (st : problem)
    (r : array2 * bool * bool) :
  snd (simplex set_pop set_list fuel st) = Return r ->
  length (pb st) = nrows (pA st) /\ length (pc st) = ncols (pA st) /\
  simplexPhases set_pop set_list fuel
                (pA (normalize st)) (pb (normalize st)) (pc (normalize st))
  = Return r.
Proof.
  unfold simplex.
  destruct (Nat.eqb_spec (length (pb st)) (nrows (pA st))); cbn [negb];
    [ | discriminate ].
  destruct (Nat.eqb_spec (length (pc st)) (ncols (pA st))); cbn [negb];
    [ | discriminate ].
  cbn [snd]. auto.
Qed.

(** C10.  Whatever [simplex] returns, at most one of the flags [unbounded]
    and [infeasible] is set. *)
Theorem simplex_flags_exclusive (set_pop : list nat -> nat)
    (set_list : list nat -> list nat) (fuel : nat) (st : problem)
    (T : array2) (unbounded infeasible : bool) :
  snd (simplex set_pop set_list fuel st) = Return (T, unbounded, infeasible) ->
  (unbounded, infeasible) = (false, false) \/
  (unbounded, infeasible) = (true, false) \/
  (unbounded, infeasible) = (false, true).
Proof.
  intro H. apply simplex_return in H. destruct H as (_ & _ & H).
  apply simplexPhases_return in H.
  destruct H as (T1 & o & u1 & _ & [ H | [ H | H ] ]).
  - destruct H as (_ & _ & -> & ->). auto.
  - destruct H as (_ & _ & _ & -> & ->). auto.
  - destruct H as (_ & _ & ->). destruct unbounded; auto.
Qed.

Lemma simplex_flags_exclusive_witness :
  (false, true) = (false, false) \/
  (false, true) = (true, false) \/
  (false, true) = (false, true).
Proof.
  apply (simplex_flags_exclusive pop_least list_increasing 10 example3
                                 example3_tableau).
  vm_compute. reflexivity.
Defined.

(** The test of [simplex], [phaseOneTableau[-1, -1] < -sqrt(eps)], says that
    [-phaseOneTableau[-1, -1]], the value of the auxiliary objective, is
    above [sqrt(eps)]. *)
Lemma infeasibility_test (T : array2) :
  (last (last (rows T) []) NaN <? - sqrt_eps) = (copt T >? sqrt_eps).
Proof.
  unfold copt, gtb. destruct (last (last (rows T) []) NaN) as [x | | | ];
    try reflexivity.
  unfold sqrt_eps. cbn [neg ltb].
  set (s := Q2Qc (1 # 67108864)).
  destruct (Qc_ltb x (- s)) eqn:E1, (Qc_ltb s (- x)) eqn:E2;
    try reflexivity; exfalso.
  - apply Qc_ltb_lt in E1.
    assert (E3 : (s < - x)%Qc).
    { apply Qclt_minus_iff. apply Qclt_minus_iff in E1.
      now rewrite Qcplus_comm. }
    apply Qc_ltb_lt in E3. congruence.
  - apply Qc_ltb_lt in E2.
    assert (E3 : (x < - s)%Qc).
    { apply Qclt_minus_iff. apply Qclt_minus_iff in E2.
      now rewrite Qcplus_comm. }
    apply Qc_ltb_lt in E3. congruence.
Qed.

(** C2 (as the code has it).  When the sizes are compatible and phase I
    ends at a tableau [T1] without declaring the auxiliary problem
    unbounded, [simplex] reports the problem infeasible exactly when the
    value of the auxiliary objective, [-T1[-1, -1]], is above zero by more
    than [sqrt(eps)]; it then returns [T1] with the flags
    [(False, True)]. *)
Theorem simplex_infeasible_iff (set_pop : list nat -> nat)
    (set_list : list nat -> list nat) (fuel : nat) (st : problem)
    (T1 : array2) (optimal : bool) :
  length (pb st) = nrows (pA st) -> length (pc st) = ncols (pA st) ->
  simplexAlgorithmTableau fuel
    (firstTableau (pA (normalize st)) (pb (normalize st)))
  = Return (T1, optimal, false) ->
  ((copt T1 >? sqrt_eps) = true ->
   snd (simplex set_pop set_list fuel st) = Return (T1, false, true)) /\
  (forall T unbounded,
     snd (simplex set_pop set_list fuel st) = Return (T, unbounded, true) ->
     (copt T1 >? sqrt_eps) = true /\ T = T1 /\ unbounded = false).
Proof.
  intros Hb Hc P1. rewrite <- infeasibility_test. split.
  - intro G. unfold simplex.
    rewrite Hb, Hc, !Nat.eqb_refl. cbn [negb snd].
    unfold simplexPhases. rewrite P1. cbn [bind]. now rewrite G.
  - intros T u H. apply simplex_return in H. destruct H as (_ & _ & H).
    apply simplexPhases_return in H.
    destruct H as (T1' & o & u1 & P1' & H). rewrite P1 in P1'.
    inversion P1'; subst.
    destruct H as [ H | [ H | H ] ].
    + destruct H as (H & _). discriminate.
    + destruct H as (_ & G & -> & -> & _). auto.
    + destruct H as (_ & _ & H). discriminate.
Qed.

Lemma simplex_infeasible_iff_witness :
  snd (simplex pop_least list_increasing 10 example3)
  = Return (example3_tableau, false, true).
Proof.
  apply (simplex_infeasible_iff pop_least list_increasing 10 example3
                                example3_tableau true).
  - reflexivity.
  - reflexivity.
  - vm_compute. reflexivity.
  - vm_compute. reflexivity.
Defined.

(** C2 (as the claim has it) fails: on Example 3 phase I ends at once with
    a bounded optimum and [simplex] reports the problem infeasible, while
    the value of the auxiliary objective is 3, which is not below zero, with
    or without a tolerance. *)
Lemma infeasible_with_positive_auxiliary_value :
  simplexAlgorithmTableau 10
    (firstTableau (pA (normalize example3)) (pb (normalize example3)))
  = Return (example3_tableau, true, false) /\
  snd (simplex pop_least list_increasing 10 example3)
  = Return (example3_tableau, false, true) /\
  copt example3_tableau = of_Z 3 /\
  (copt example3_tableau <? zero) = false /\
  (copt example3_tableau <? - sqrt_eps) = false.
Proof. repeat split; vm_compute; reflexivity. Qed.

(* ================================================================= *)
(** ** The validation of the input *)

Lemma no_size_error_bind {A B : Type} (r : result A) (k : A -> result B) :
  no_size_error r -> (forall a, no_size_error (k a)) ->
  no_size_error (bind r k).
Proof.
  unfold no_size_error. destruct r as [ a | e | ]; cbn [bind]; intros H K.
  - apply K.
  - congruence.
  - discriminate.
Qed.

Lemma no_size_error_simplexTableau (T : array2) :
  no_size_error (simplexTableau T).
Proof.
  unfold simplexTableau. destruct (rows T); [ discriminate | ].
  destruct (negb _); [ discriminate | ].
  apply no_size_error_bind.
  - unfold argmin. destruct (steps _ _) as [ | [ | | | ] ]; discriminate.
  - intro q. destruct (_ =? inf); discriminate.
Qed.

Lemma no_size_error_pivoting (T : array2) (p q : nat) :
  no_size_error (pivoting T p q).
Proof.
  unfold pivoting. destruct (_ <=? _)%nat; [ discriminate | ].
  destruct (_ <=? _)%nat; [ discriminate | ].
  destruct (_ <? eps); discriminate.
Qed.

Lemma no_size_error_iteration (fuel : nat) (T : array2) :
  no_size_error (simplexAlgorithmTableau fuel T).
Proof.
  revert T. induction fuel as [ | fuel IH ]; intro T; cbn;
    [ discriminate | ].
  apply no_size_error_bind; [ apply no_size_error_simplexTableau | ].
  intros [[[cp rp] o] b]. destruct o; [ discriminate | ].
  destruct (negb b); [ discriminate | ].
  destruct cp, rp; try discriminate.
  apply no_size_error_bind; [ apply no_size_error_pivoting | apply IH ].
Qed.

Lemma no_size_error_basicRowsOf (T : array2) (count : nat) :
  no_size_error (basicRowsOf T count).
Proof.
  unfold basicRowsOf. induction (seq 0 count) as [ | k l IH ]; cbn;
    [ discriminate | ].
  apply no_size_error_bind.
  - unfold getRow. destruct (negb _); discriminate.
  - intro y. apply no_size_error_bind; [ exact IH | discriminate ].
Qed.

Lemma no_size_error_cleanBasis (set_pop : list nat -> nat)
    (set_list : list nat -> list nat) (fuel n m : nat) (T : array2)
    (basicRows : list (option nat)) (rowsToRemove : list nat) :
  no_size_error (cleanBasis set_pop set_list fuel n m T basicRows rowsToRemove).
Proof.
  revert T basicRows rowsToRemove.
  induction fuel as [ | fuel IH ]; intros T basicRows rowsToRemove; cbn;
    [ discriminate | ].
  destruct (tobeCleaned n m basicRows); [ discriminate | ].
  apply no_size_error_bind; [ | intros [[T' br'] rtr']; apply IH ].
  unfold cleanBody.
  destruct (nth _ basicRows None); [ | discriminate ].
  destruct (any _).
  - apply no_size_error_bind; [ apply no_size_error_pivoting | ].
    discriminate.
  - apply no_size_error_bind.
    + unfold delete_rows. destruct (forallb _ _); discriminate.
    + intro. apply no_size_error_bind;
        [ apply no_size_error_basicRowsOf | discriminate ].
Qed.

Lemma no_size_error_simplexPhases (set_pop : list nat -> nat)
    (set_list : list nat -> list nat) (fuel : nat) (A : array2)
    (b c : array1) :
  no_size_error (simplexPhases set_pop set_list fuel A b c).
Proof.
  unfold simplexPhases.
  apply no_size_error_bind; [ apply no_size_error_iteration | ].
  intros [[T1 o] u]. destruct u; [ discriminate | ].
  destruct (_ <? - sqrt_eps); [ discriminate | ].
  apply no_size_error_bind; [ apply no_size_error_basicRowsOf | ].
  intro br. apply no_size_error_bind; [ apply no_size_error_cleanBasis | ].
  intro cl. unfold phaseTwo.
  apply no_size_error_bind; [ apply no_size_error_basicRowsOf | ].
  intro br2. destruct (rows _); [ discriminate | ].
  apply no_size_error_bind; [ apply no_size_error_iteration | ].
  intros [[T2 o2] u2]. discriminate.
Qed.

(** C8 (as the code has it).  [simplex] validates the shapes of its
    arguments and nothing else: it raises its incompatible-sizes exception
    exactly when the length of [b] is not the number of rows of [A] or the
    length of [c] is not its number of columns, whatever the entries are,
    finite or not. *)
Theorem simplex_validates_shapes_only (set_pop : list nat -> nat)
    (set_list : list nat -> list nat) (fuel : nat) (st : problem) :
  snd (simplex set_pop set_list fuel st) = Raise IncompatibleSizes <->
  (length (pb st) <> nrows (pA st) \/ length (pc st) <> ncols (pA st)).
Proof.
  unfold simplex.
  destruct (Nat.eqb_spec (length (pb st)) (nrows (pA st))) as [Hb | Hb];
    cbn [negb].
  2: { cbn [snd]. split; auto. }
  destruct (Nat.eqb_spec (length (pc st)) (ncols (pA st))) as [Hc | Hc];
    cbn [negb].
  2: { cbn [snd]. split; auto. }
  cbn [snd]. split.
  - intro H. exfalso. revert H. apply no_size_error_simplexPhases.
  - intros [ H | H ]; contradiction.
Qed.

(** C8 (as the claim has it) fails: given a matrix [A] whose only entry is
    NaN, [simplex] raises nothing; it builds the first tableau with the
    NaN in it, iterates on it, and returns it with the verdict
    infeasible. *)
Lemma simplex_computes_with_nan :
  finite2 (pA nan_problem) = false /\
  snd (simplex pop_least list_increasing 10 nan_problem)
  = Return (Array2 3 [[NaN; one; one]; [NaN; zero; of_Z (-1)]], false, true).
Proof. split; vm_compute; reflexivity. Qed.

(* ================================================================= *)
(** ** Redundant constraints *)

Lemma returns_same1 (r : result array1) (v : array1) :
  match r with Return u => same1 u v | _ => false end = true ->
  r = Return v.
Proof.
  destruct r as [ u | e | ]; try discriminate.
  intro H. f_equal. now apply same1_eq.
Qed.

Lemma pop_one (set_pop : list nat -> nat) (s : list nat) (x : nat) :
  valid_pop set_pop -> s = [x] -> set_pop s = x.
Proof.
  intros V ->. destruct (V [x]) as [ H | [] ]; [ discriminate | now symmetry ].
Qed.

Lemma pop_two (set_pop : list nat -> nat) (s : list nat) (x y : nat) :
  valid_pop set_pop -> s = [x; y] -> set_pop s = x \/ set_pop s = y.
Proof.
  intros V ->. destruct (V [x; y]) as [ H | [ H | [] ] ];
    [ discriminate | now left | now right ].
Qed.

Lemma list_one (set_list : list nat -> list nat) (s : list nat) (x : nat) :
  valid_list set_list -> s = [x] -> set_list s = [x].
Proof.
  intros V ->. apply Permutation_length_1_inv, Permutation_sym, V.
Qed.

Lemma cleanBasis_done (set_pop : list nat -> nat)
    (set_list : list nat -> list nat) (fuel n m : nat) (T : array2)
    (basicRows : list (option nat)) (rowsToRemove : list nat) :
  tobeCleaned n m basicRows = [] ->
  cleanBasis set_pop set_list (S fuel) n m T basicRows rowsToRemove
  = Return (T, rowsToRemove).
Proof. intro H. cbn [cleanBasis]. now rewrite H. Qed.

Lemma cleanBasis_step (set_pop : list nat -> nat)
    (set_list : list nat -> list nat) (fuel n m : nat) (T : array2)
    (basicRows : list (option nat)) (rowsToRemove : list nat)
    (a : nat) (l : list nat)
    (T' : array2) (basicRows' : list (option nat)) (rowsToRemove' : list nat) :
  tobeCleaned n m basicRows <> [] ->
  set_pop (tobeCleaned n m basicRows) = a ->
  set_list (nonbasicSet n basicRows) = l ->
  cleanBody n m T basicRows rowsToRemove a l
  = Return (T', basicRows', rowsToRemove') ->
  cleanBasis set_pop set_list (S fuel) n m T basicRows rowsToRemove
  = cleanBasis set_pop set_list fuel n m T' basicRows' rowsToRemove'.
Proof.
  intros Hne Ha Hl Hb. cbn [cleanBasis].
  destruct (tobeCleaned n m basicRows) eqn:E; [ contradiction | ].
  rewrite Ha, Hl, Hb. reflexivity.
Qed.

Lemma simplex_compatible (set_pop : list nat -> nat)
    (set_list : list nat -> list nat) (fuel : nat) (st : problem) :
  length (pb st) = nrows (pA st) -> length (pc st) = ncols (pA st) ->
  snd (simplex set_pop set_list fuel st)
  = simplexPhases set_pop set_list fuel
      (pA (normalize st)) (pb (normalize st)) (pc (normalize st)).
Proof.
  intros Hb Hc. unfold simplex. now rewrite Hb, Hc, !Nat.eqb_refl.
Qed.

Lemma simplexPhases_feasible (set_pop : list nat -> nat)
    (set_list : list nat -> list nat) (fuel : nat) (A : array2)
    (b c : array1) (T1 : array2) (optimal : bool)
    (basicRows : list (option nat)) :
  simplexAlgorithmTableau fuel (firstTableau A b)
  = Return (T1, optimal, false) ->
  (last (last (rows T1) []) NaN <? - sqrt_eps) = false ->
  basicRowsOf T1 (nrows A + ncols A) = Return basicRows ->
  simplexPhases set_pop set_list fuel A b c
  = (cl <- cleanBasis set_pop set_list fuel (ncols A) (nrows A) T1
                      basicRows [] ;;
     phaseTwo fuel (ncols A) (nrows A) c (fst cl)).
Proof.
  intros P1 G B. unfold simplexPhases. rewrite P1. cbn [bind].
  rewrite G, B. reflexivity.
Qed.

(** Running [simplex] up to the loop [while not clean], and one pass
    through that loop for given choices of the two parameters. *)
Ltac run_phase_one :=
  rewrite simplex_compatible by reflexivity;
  erewrite simplexPhases_feasible;
    [ | vm_compute; reflexivity | vm_compute; reflexivity
      | vm_compute; reflexivity ].

Ltac clean_pass popped listed :=
  erewrite cleanBasis_step;
    [ | vm_compute; discriminate | popped | listed | vm_compute; reflexivity ].

Ltac clean_end :=
  erewrite cleanBasis_done by (vm_compute; reflexivity); cbn [bind fst].

(** Example 1, as the notebook prints it. *)
Lemma example1_solved (set_pop : list nat -> nat)
    (set_list : list nat -> list nat) :
  valid_pop set_pop -> valid_list set_list ->
  exists T,
    snd (simplex set_pop set_list 20 example1) = Return (T, false, false) /\
    copt T = ratio 7 4 /\
    solution T = Return [ratio 1 2; ratio 5 4; zero; one].
Proof.
  intros Vp Vl. run_phase_one.
  clean_pass ltac:(eapply pop_one; [ exact Vp | vm_compute; reflexivity ])
             ltac:(eapply list_one; [ exact Vl | vm_compute; reflexivity ]).
  clean_end.
  eexists. split; [ vm_compute; reflexivity | ]. split.
  - apply same_eq. vm_compute. reflexivity.
  - apply returns_same1. vm_compute. reflexivity.
Qed.

(** C4 fails on the code.  Example 1 is solved with optimal value 7/4 at
    (1/2, 5/4, 0, 1).  With its row 2, [0 4 9 0 | 5], appended once more,
    two constraints are redundant; at the second one [np.delete] is given
    both recorded indices and removes, from the tableau that has already
    lost a row, a row that is not redundant.  Whichever element
    [tobeCleaned.pop()] takes, [simplex] then returns a tableau presented
    as optimal whose value and solution are not those of Example 1, and
    whose solution has a negative entry. *)
Theorem duplicated_row_changes_result (set_pop : list nat -> nat)
    (set_list : list nat -> list nat) :
  valid_pop set_pop -> valid_list set_list ->
  (exists T,
     snd (simplex set_pop set_list 20 example1) = Return (T, false, false) /\
     copt T = ratio 7 4 /\
     solution T = Return [ratio 1 2; ratio 5 4; zero; one]) /\
  (exists T',
     snd (simplex set_pop set_list 20 example1_row2_again)
     = Return (T', false, false) /\
     ((copt T' = ratio 3 2 /\
       solution T' = Return [one; ratio 1 2; ratio (-3) 2; zero]) \/
      (copt T' = ratio 5 3 /\
       solution T' = Return [zero; of_Z 2; ratio (-5) 3; of_Z 2]))).
Proof.
  intros Vp Vl. split; [ now apply example1_solved | ].
  run_phase_one.
  match goal with
  | |- context [ cleanBasis _ _ _ ?n ?m _ ?br _ ] =>
      destruct (pop_two set_pop (tobeCleaned n m br) 6 8 Vp) as [ P | P ];
        [ vm_compute; reflexivity | | ]
  end.
  - (* the artificial variable of row 2 first *)
    clean_pass ltac:(exact P)
               ltac:(eapply list_one; [ exact Vl | vm_compute; reflexivity ]).
    clean_pass ltac:(eapply pop_one; [ exact Vp | vm_compute; reflexivity ])
               ltac:(eapply list_one; [ exact Vl | vm_compute; reflexivity ]).
    clean_end.
    eexists. split; [ vm_compute; reflexivity | ]. left. split.
    + apply same_eq. vm_compute. reflexivity.
    + apply returns_same1. vm_compute. reflexivity.
  - (* the artificial variable of row 4 first *)
    clean_pass ltac:(exact P)
               ltac:(eapply list_one; [ exact Vl | vm_compute; reflexivity ]).
    clean_pass ltac:(eapply pop_one; [ exact Vp | vm_compute; reflexivity ])
               ltac:(eapply list_one; [ exact Vl | vm_compute; reflexivity ]).
    clean_end.
    eexists. split; [ vm_compute; reflexivity | ]. right. split.
    + apply same_eq. vm_compute. reflexivity.
    + apply returns_same1. vm_compute. reflexivity.
Qed.

Lemma pop_least_valid : valid_pop pop_least.
Proof. intros [ | x s ] H; [ contradiction | now left ]. Qed.

Lemma list_increasing_valid : valid_list list_increasing.
Proof. intro s. apply Permutation_refl. Qed.

Lemma duplicated_row_changes_result_witness :
  exists T',
    snd (simplex pop_least list_increasing 20 example1_row2_again)
    = Return (T', false, false) /\
    ((copt T' = ratio 3 2 /\
      solution T' = Return [one; ratio 1 2; ratio (-3) 2; zero]) \/
     (copt T' = ratio 5 3 /\
      solution T' = Return [zero; of_Z 2; ratio (-5) 3; of_Z 2])).
Proof.
  exact (proj2 (duplicated_row_changes_result
                  pop_least list_increasing
                  pop_least_valid list_increasing_valid)).
Defined.

(* ================================================================= *)
(** ** The leaving row *)

Lemma Qc_ltb_total (x y : Qc) :
  Qc_ltb x y = false -> Qc_ltb y x || Qc_eqb y x = true.
Proof.
  intro H. apply orb_true_iff.
  destruct (Qclt_le_dec x y) as [ L | L ].
  - apply Qc_ltb_lt in L. congruence.
  - destruct (Qcle_lt_or_eq _ _ L) as [ L' | -> ].
    + left. now apply Qc_ltb_lt.
    + right. now apply Qc_eqb_eq.
Qed.

Lemma Qc_ltb_asym (x y : Qc) :
  Qc_ltb x y = true -> Qc_ltb y x || Qc_eqb y x = false.
Proof.
  intro H. apply Qc_ltb_lt in H. apply orb_false_iff. split.
  - destruct (Qc_ltb y x) eqn:E; [ | reflexivity ].
    apply Qc_ltb_lt in E. exfalso.
    exact (Qclt_not_le _ _ H (Qclt_le_weak _ _ E)).
  - destruct (Qc_eqb y x) eqn:E; [ | reflexivity ].
    apply Qc_eqb_eq in E. subst. exfalso.
    exact (Qclt_not_le _ _ H (Qcle_refl _)).
Qed.

Lemma not_geb_ltb (x mp : num) :
  ordered x -> ordered mp -> negb (x >=? mp) = (x <? mp).
Proof.
  unfold ordered, geb, leb.
  destruct x as [ x | | | ], mp as [ y | | | ]; cbn; intros Hx Hy;
    try reflexivity; try congruence.
  destruct (Qc_ltb x y) eqn:E.
  - now rewrite Qc_ltb_asym.
  - now rewrite Qc_ltb_total.
Qed.

Lemma leb_refl (a : num) : ordered a -> (a <=? a) = true.
Proof.
  unfold ordered, leb. destruct a as [ x | | | ]; cbn; intro H;
    try reflexivity; try congruence.
  apply orb_true_iff. right. now apply Qc_eqb_eq.
Qed.

Lemma ltb_leb (a b : num) : (a <? b) = true -> (a <=? b) = true.
Proof. unfold leb. now intros ->. Qed.

Lemma not_ltb_leb (a b : num) :
  ordered a -> ordered b -> (a <? b) = false -> (b <=? a) = true.
Proof.
  intros Ha Hb H. rewrite <- (not_geb_ltb a b Ha Hb) in H.
  unfold geb in H. now apply negb_false_iff in H.
Qed.

Lemma ltb_leb_trans (a b c : num) :
  (a <? b) = true -> (b <=? c) = true -> (a <? c) = true.
Proof.
  unfold leb.
  destruct a as [ x | | | ], b as [ y | | | ], c as [ z | | | ]; cbn;
    try reflexivity; try discriminate.
  intros H1 H2. apply Qc_ltb_lt in H1. apply Qc_ltb_lt.
  apply orb_true_iff in H2. destruct H2 as [ H2 | H2 ].
  - apply Qc_ltb_lt in H2. exact (Qclt_trans _ _ _ H1 H2).
  - apply Qc_eqb_eq in H2. now subst.
Qed.

Lemma ltb_trans (a b c : num) :
  (a <? b) = true -> (b <? c) = true -> (a <? c) = true.
Proof.
  intros H1 H2. apply ltb_leb_trans with (b := b); [ exact H1 | ].
  now apply ltb_leb.
Qed.

(** [np.argmin] on an array without NaN: the first index of the least
    element. *)
Lemma argmin_scan_first (l : array1) (i : nat) (mp : num) (ind : nat) :
  Forall ordered l -> ordered mp ->
  (argmin_scan l i mp ind = ind /\
   forall k, (k < length l)%nat -> (mp <=? get1 l k) = true) \/
  (exists j,
     argmin_scan l i mp ind = (i + j)%nat /\ (j < length l)%nat /\
     (get1 l j <? mp) = true /\
     (forall k, (k < length l)%nat -> (get1 l j <=? get1 l k) = true) /\
     (forall k, (k < j)%nat -> (get1 l j <? get1 l k) = true)).
Proof.
  revert i mp ind. induction l as [ | x l IH ]; intros i mp ind Hl Hmp.
  { left. split; [ reflexivity | intros k Hk; cbn in Hk; lia ]. }
  inversion Hl as [ | ? ? Hx Hl' ]; subst.
  cbn [argmin_scan]. rewrite (not_geb_ltb x mp Hx Hmp).
  destruct (x <? mp) eqn:E.
  - assert (Sx : argmin_scan l (S i) x i
                 = match x with NaN => i | _ => argmin_scan l (S i) x i end)
      by (destruct x; try reflexivity; now elim Hx).
    rewrite <- Sx. right.
    destruct (IH (S i) x i Hl' Hx) as [ [R A] | (j & R & Hj & Lj & A & B) ].
    + exists 0%nat. rewrite R. repeat split; try (cbn; lia).
      * exact E.
      * intros [ | k ] Hk; [ now apply leb_refl | ].
        apply A. cbn in Hk. lia.
    + exists (S j). rewrite R. repeat split; try (cbn; lia).
      * exact (ltb_trans _ _ _ Lj E).
      * intros [ | k ] Hk; [ now apply ltb_leb | ].
        apply A. cbn in Hk. lia.
      * intros [ | k ] Hk; [ exact Lj | apply B; lia ].
  - destruct (IH (S i) mp ind Hl' Hmp) as [ [R A] | (j & R & Hj & Lj & A & B) ].
    + left. split; [ exact R | ].
      intros [ | k ] Hk; [ now apply not_ltb_leb | ].
      apply A. cbn in Hk. lia.
    + right. exists (S j). rewrite R.
      assert (Lx : (get1 l j <? x) = true)
        by (apply ltb_leb_trans with (b := mp);
            [ exact Lj | now apply not_ltb_leb ]).
      repeat split; try (cbn; lia).
      * exact Lj.
      * intros [ | k ] Hk; [ now apply ltb_leb | ].
        apply A. cbn in Hk. lia.
      * intros [ | k ] Hk; [ exact Lx | apply B; lia ].
Qed.

Lemma argmin_first (l : array1) :
  l <> [] -> Forall ordered l ->
  exists q,
    argmin l = Return q /\ (q < length l)%nat /\
    (forall k, (k < length l)%nat -> (get1 l q <=? get1 l k) = true) /\
    (forall k, (k < q)%nat -> (get1 l q <? get1 l k) = true).
Proof.
  destruct l as [ | x l ]; [ contradiction | ]. intros _ Hl.
  inversion Hl as [ | ? ? Hx Hl' ]; subst.
  assert (E : argmin (x :: l) = Return (argmin_scan l 1 x 0))
    by (destruct x; try reflexivity; now elim Hx).
  rewrite E.
  destruct (argmin_scan_first l 1 x 0 Hl' Hx)
    as [ [R A] | (j & R & Hj & Lj & A & B) ].
  - exists 0%nat. rewrite R. repeat split; try (cbn; lia).
    intros [ | k ] Hk; [ now apply leb_refl | ].
    apply A. cbn in Hk. lia.
  - exists (S j). rewrite R. repeat split; try (cbn; lia).
    + intros [ | k ] Hk; [ now apply ltb_leb | ].
      apply A. cbn in Hk. lia.
    + intros [ | k ] Hk; [ exact Lj | apply B; lia ].
Qed.

Lemma length_removelast {A : Type} (l : list A) :
  length (removelast l) = (length l - 1)%nat.
Proof.
  induction l as [ | x [ | y l ] IH ]; try reflexivity.
  cbn [removelast length] in *. rewrite IH. lia.
Qed.

Lemma nth_removelast {A : Type} (l : list A) (k : nat) (d : A) :
  (k < length l - 1)%nat -> nth k (removelast l) d = nth k l d.
Proof.
  revert k. induction l as [ | x [ | y l ] IH ]; intros k H;
    cbn [length] in H; try lia.
  destruct k as [ | k ]; [ reflexivity | ].
  cbn [removelast nth]. apply IH. cbn [length]. lia.
Qed.

Lemma last_nth_pred {A : Type} (l : list A) (d : A) :
  last l d = nth (length l - 1) l d.
Proof.
  induction l as [ | x [ | y l ] IH ]; try reflexivity.
  cbn [last length] in *. rewrite IH.
  replace (S (S (length l)) - 1)%nat with (S (S (length l) - 1)) by lia.
  reflexivity.
Qed.

Lemma positive_nonzero (d : Qc) : (Fin d >? zero) = true -> d <> Q2Qc 0.
Proof.
  intros H E. subst d. vm_compute in H. discriminate.
Qed.

(** The entries of [steps] on a finite tableau: the ratio of the rows with
    a positive entry in column [p], [np.inf] for the others. *)
Lemma steps_entry (T : array2) (p k : nat) :
  wf_array2 T -> finite2 T = true ->
  (p < ncols T)%nat -> (k < nrows T - 1)%nat ->
  get1 (steps T p) k
  = (if get T k p >? zero then get T k (ncols T - 1) / get T k p else inf)
  /\ ordered (get1 (steps T p) k)
  /\ ((get T k p >? zero) = true -> get1 (steps T p) k <> inf).
Proof.
  intros W F Hp Hk.
  assert (Hk' : (k < nrows T)%nat) by lia.
  assert (E : get1 (steps T p) k
              = if get T k p >? zero
                then get T k (ncols T - 1) / get T k p else inf).
  { unfold steps, get1 at 1.
    rewrite (nth_indep _ NaN
               ((fun r => if get1 r p >? zero
                          then last r NaN / get1 r p else inf) []))
      by (rewrite length_map, length_removelast; exact Hk).
    rewrite (map_nth (fun r => if get1 r p >? zero
                               then last r NaN / get1 r p else inf)).
    rewrite nth_removelast by exact Hk. fold (row T k).
    rewrite last_nth_pred, (wf_row_length T k W Hk'). reflexivity. }
  rewrite E.
  destruct (finite2_get T k p W F Hk' Hp) as [d Ed].
  destruct (finite2_get T k (ncols T - 1) W F Hk') as [x Ex]; [ lia | ].
  rewrite Ed, Ex. split; [ reflexivity | ].
  destruct (Fin d >? zero) eqn:G.
  - rewrite (div_Fin x d (positive_nonzero d G)).
    split; [ discriminate | intros _; discriminate ].
  - split; [ discriminate | intro; discriminate ].
Qed.

Lemma length_steps (T : array2) (p : nat) :
  length (steps T p) = (nrows T - 1)%nat.
Proof. unfold steps. now rewrite length_map, length_removelast. Qed.

Lemma inf_leb (a : num) : ordered a -> (inf <=? a) = true -> a = inf.
Proof.
  unfold ordered, leb, inf. destruct a; cbn; try discriminate;
    try reflexivity; congruence.
Qed.

(** The leaving row of a finite tableau with at least one constraint row,
    once a column enters: the problem is declared unbounded exactly when
    no constraint row has a positive entry in the entering column;
    otherwise the row returned is the first one attaining the least ratio
    among the rows with a positive entry. *)
Lemma leaving_row_ratio_test (T : array2) :
  wf_array2 T -> finite2 T = true -> (2 <= nrows T)%nat ->
  any (negativeReducedCost T) = true ->
  let p := entering T in
  let m := (nrows T - 1)%nat in
  let ratio k := get T k (ncols T - 1) / get T k p in
  (simplexTableau T = Return (None, None, false, false)
   <-> forall k, (k < m)%nat -> (get T k p >? zero) = false) /\
  ((exists k, (k < m)%nat /\ (get T k p >? zero) = true) ->
   exists q,
     simplexTableau T = Return (Some p, Some q, false, true) /\
     (q < m)%nat /\ (get T q p >? zero) = true /\
     (forall k, (k < m)%nat -> (get T k p >? zero) = true ->
                (ratio q <=? ratio k) = true) /\
     (forall k, (k < q)%nat -> (get T k p >? zero) = true ->
                (ratio q <? ratio k) = true)).
Proof.
  intros W F Hm Hneg p m ratio.
  (* the entering column is a column of the tableau *)
  assert (Hp : (p < ncols T)%nat).
  { destruct (argmax_bool_first _ Hneg) as (L & _).
    unfold negativeReducedCost, reducedCost in L.
    rewrite length_map, length_removelast in L.
    assert (HL : length (last (rows T) []) = ncols T).
    { rewrite last_nth_pred. apply (wf_row_length T _ W). unfold nrows in *. lia. }
    unfold p, entering, negativeReducedCost, reducedCost. lia. }
  assert (St : forall k, (k < m)%nat ->
             get1 (steps T p) k = (if get T k p >? zero then ratio k else inf)
             /\ ordered (get1 (steps T p) k)
             /\ ((get T k p >? zero) = true -> get1 (steps T p) k <> inf))
    by (intros k Hk; now apply steps_entry).
  destruct (argmin_first (steps T p)) as (q & Eq & Hq & A & B).
  { intro E. apply (f_equal (@length _)) in E.
    rewrite length_steps in E. cbn in E. lia. }
  { apply Forall_forall. intros a Ha.
    destruct (In_nth _ _ NaN Ha) as (k & Hk & <-).
    rewrite length_steps in Hk. now apply St. }
  rewrite length_steps in Hq, A. fold m in Hq, A.
  assert (Run : simplexTableau T
                = if get1 (steps T p) q =? inf
                  then Return (None, None, false, false)
                  else Return (Some p, Some q, false, true)).
  { unfold simplexTableau.
    destruct (rows T) eqn:R; [ unfold nrows in Hm; rewrite R in Hm; cbn in Hm; lia | ].
    rewrite Hneg. cbn [negb]. fold p. rewrite Eq. reflexivity. }
  destruct (St q Hq) as (Sq & Oq & Nq).
  destruct (get T q p >? zero) eqn:Gq.
  - (* row q has a positive entry *)
    assert (Fq : (get1 (steps T p) q =? inf) = false).
    { destruct (get1 (steps T p) q) as [ x | | | ]; try reflexivity.
      now elim Nq. }
    rewrite Fq in Run. split.
    + split.
      * intro H. rewrite Run in H. discriminate.
      * intro H. rewrite (H q Hq) in Gq. discriminate.
    + intros _. exists q. split; [ exact Run | ].
      split; [ exact Hq | ]. split; [ exact Gq | ]. split.
      * intros k Hk Gk. specialize (A k Hk).
        destruct (St k Hk) as (Sk & _). rewrite Sq, Sk, Gk in A. exact A.
      * intros k Hk Gk. specialize (B k Hk).
        destruct (St k) as (Sk & _); [ lia | ].
        rewrite Sq, Sk, Gk in B. exact B.
  - (* row q has none: every step is np.inf *)
    rewrite Sq in Run. cbn [eqb inf] in Run.
    assert (All : forall k, (k < m)%nat -> (get T k p >? zero) = false).
    { intros k Hk. destruct (get T k p >? zero) eqn:Gk; [ | reflexivity ].
      destruct (St k Hk) as (_ & Ok & Nk). exfalso. apply (Nk Gk).
      apply inf_leb; [ exact Ok | ]. rewrite <- Sq. now apply A. }
    split.
    + split; [ intros _; exact All | intros _; exact Run ].
    + intros (k & Hk & Gk). rewrite (All k Hk) in Gk. discriminate.
Qed.

Lemma list_two (set_list : list nat -> list nat) (s : list nat) (x y : nat) :
  valid_list set_list -> s = [x; y] ->
  set_list s = [x; y] \/ set_list s = [y; x].
Proof.
  intros V ->. apply Permutation_length_2_inv, Permutation_sym, V.
Qed.

(** A problem whose only constraint is redundant reaches phase II with a
    tableau without constraint rows; when a reduced cost is negative there,
    the call ends with the [ValueError] of [np.argmin]. *)
Lemma only_redundant_raises (set_pop : list nat -> nat)
    (set_list : list nat -> list nat) :
  valid_pop set_pop -> valid_list set_list ->
  snd (simplex set_pop set_list 10 only_redundant) = Raise ValueError.
Proof.
  intros Vp Vl. run_phase_one.
  match goal with
  | |- context [ cleanBasis _ _ _ ?n _ _ ?br _ ] =>
      destruct (list_two set_list (nonbasicSet n br) 0 1 Vl) as [ L | L ];
        [ vm_compute; reflexivity | | ]
  end;
    ( clean_pass
        ltac:(eapply pop_one; [ exact Vp | vm_compute; reflexivity ])
        ltac:(exact L);
      clean_end; vm_compute; reflexivity ).
Qed.

(** C6 fails on the code at a tableau without constraint rows.  There a
    negative reduced cost selects an entering column and no constraint row
    has a positive entry in it, yet [simplexTableau] does not declare the
    problem unbounded: [np.argmin] is given the empty array [steps] and
    raises.  [simplex] reaches such a tableau on a problem whose only
    constraint is redundant. *)
Theorem selector_without_constraint_rows :
  any (negativeReducedCost no_constraint_row) = true /\
  entering no_constraint_row = 0%nat /\
  (nrows no_constraint_row - 1 = 0)%nat /\
  steps no_constraint_row 0 = [] /\
  simplexTableau no_constraint_row = Raise ValueError /\
  snd (simplex pop_least list_increasing 10 only_redundant) = Raise ValueError.
Proof.
  repeat split; vm_compute; reflexivity.
Qed.

(* ================================================================= *)
(** ** The results the notebooks print *)

Lemma same_rows_eq (u v : list array1) : same_rows u v = true -> u = v.
Proof.
  revert v. induction u as [ | a u IH ]; intros [ | b v ]; cbn;
    try discriminate; [ reflexivity | ].
  intro H. apply andb_true_iff in H. destruct H as [Ha Hu].
  f_equal; [ now apply same1_eq | now apply IH ].
Qed.

Lemma same2_eq (S T : array2) : same2 S T = true -> S = T.
Proof.
  destruct S as [n rs], T as [n' rt]. unfold same2. cbn.
  intro H. apply andb_true_iff in H. destruct H as [Hn Hr].
  apply Nat.eqb_eq in Hn. apply same_rows_eq in Hr. now subst.
Qed.

(** Example 1 of the pivoting notebook. *)
Lemma pivoting_example1_result :
  pivoting pivoting_example1 1 2 = Return pivoting_example1_printed.
Proof.
  destruct (pivoting pivoting_example1 1 2) as [ T | e | ] eqn:E;
    try (vm_compute in E; discriminate).
  f_equal. apply same2_eq.
  assert (H : match pivoting pivoting_example1 1 2 with
              | Return T => same2 T pivoting_example1_printed
              | _ => false
              end = true) by (vm_compute; reflexivity).
  now rewrite E in H.
Qed.

(** Example 6 of the tableau notebook: phase II is unbounded. *)
Lemma example6_unbounded (set_pop : list nat -> nat)
    (set_list : list nat -> list nat) :
  exists T,
    snd (simplex set_pop set_list 10 example6) = Return (T, true, false).
Proof.
  run_phase_one.
  erewrite cleanBasis_done by (vm_compute; reflexivity). cbn [bind fst].
  eexists. vm_compute. reflexivity.
Qed.

(* ================================================================= *)
(** ** The operations of binary64 *)

Lemma is_binary64_fixed (x : Qc) :
  Binary64.is_binary64 (Fin x) = true -> Binary64.round x = Fin x.
Proof.
  unfold Binary64.is_binary64. destruct (Binary64.round x) as [ y | | | ];
    try discriminate.
  intro E. apply Qc_eqb_eq in E. now subst.
Qed.

Lemma is_binary64_round (x : Qc) :
  Binary64.is_binary64 (Binary64.round x) = true.
Proof.
  destruct (Binary64.round x) as [ y | | | ] eqn:R; try reflexivity.
  unfold Binary64.is_binary64. rewrite (round_idem x y R).
  now apply Qc_eqb_eq.
Qed.

Lemma add_binary64 (a b : num) :
  Binary64.is_binary64 (Binary64.add a b) = true.
Proof.
  destruct a as [ x | | | ], b as [ y | | | ]; try reflexivity.
  apply is_binary64_round.
Qed.

Lemma sub_binary64 (a b : num) :
  Binary64.is_binary64 (Binary64.sub a b) = true.
Proof. apply add_binary64. Qed.

Lemma div_binary64 (a b : num) :
  Binary64.is_binary64 (Binary64.div a b) = true.
Proof.
  destruct a as [ x | | | ], b as [ y | | | ]; try reflexivity;
    cbn [Binary64.div Num.div].
  - destruct (Qc_eqb y (Q2Qc 0)); [ | apply is_binary64_round ].
    unfold signed_inf. destruct (Qc_eqb x (Q2Qc 0)); [ reflexivity | ].
    now destruct (xorb _ _).
  - now destruct (Qc_ltb y (Q2Qc 0)).
  - now destruct (Qc_ltb y (Q2Qc 0)).
Qed.

Lemma round_one : Binary64.round (Q2Qc 1) = one.
Proof. apply Fin_eq. vm_compute. reflexivity. Qed.

(** A quotient [a / a] that is finite is 1. *)
Lemma div_self (a : num) :
  is_finite (Binary64.div a a) = true -> Binary64.div a a = one.
Proof.
  destruct a as [ x | | | ]; try discriminate.
  cbn [Binary64.div Num.div]. destruct (Qc_eqb x (Q2Qc 0)) eqn:Z.
  - apply Qc_eqb_eq in Z. subst x. discriminate.
  - intros _. replace (x / x)%Qc with (Q2Qc 1); [ exact round_one | ].
    symmetry. apply Qcmult_inv_r. intro E. subst x. discriminate.
Qed.

Lemma div_one (a : num) :
  Binary64.is_binary64 a = true -> Binary64.div a one = a.
Proof.
  destruct a as [ x | | | ]; try reflexivity.
  intro B. cbn [Binary64.div one].
  replace (Qc_eqb (Q2Qc 1) (Q2Qc 0)) with false by reflexivity.
  replace (x / Q2Qc 1)%Qc with x; [ now apply is_binary64_fixed | ].
  field. discriminate.
Qed.

Lemma mul_one (a : num) :
  Binary64.is_binary64 a = true -> Binary64.mul a one = a.
Proof.
  destruct a as [ x | | | ]; try reflexivity.
  intro B. cbn [Binary64.mul one].
  replace (x * Q2Qc 1)%Qc with x by ring. now apply is_binary64_fixed.
Qed.

Lemma mul_zero (a : num) :
  is_finite a = true -> Binary64.mul zero a = zero.
Proof.
  destruct a as [ x | | | ]; try discriminate. intros _.
  cbn [Binary64.mul zero]. replace (Q2Qc 0 * x)%Qc with (Q2Qc 0) by ring.
  reflexivity.
Qed.

Lemma sub_zero (a : num) :
  Binary64.is_binary64 a = true -> Binary64.sub a zero = a.
Proof.
  destruct a as [ x | | | ]; try reflexivity.
  intro B. unfold Binary64.sub. cbn [neg zero Binary64.add].
  replace (x + - Q2Qc 0)%Qc with x by ring. now apply is_binary64_fixed.
Qed.

Lemma sub_self (a : num) :
  is_finite a = true -> Binary64.sub a a = zero.
Proof.
  destruct a as [ x | | | ]; try discriminate. intros _.
  unfold Binary64.sub. cbn [neg Binary64.add].
  replace (x + - x)%Qc with (Q2Qc 0) by ring. reflexivity.
Qed.

Local Open Scope Q_scope.

(** What rounding leaves of [a - (a * d) / d]: at most 2^-51 times the
    magnitude of [a], when [a] and [a * d] are away from the ends of the
    range of binary64. *)
Lemma residue_bound (a d : Qc) :
  d <> Q2Qc 0 ->
  2 ^ (-1021) <= Qabs a -> Qabs a <= 2 ^ 1022 ->
  2 ^ (-1022) <= Qabs (a * d) -> Qabs (a * d) < 2 ^ 1023 ->
  exists r : Qc,
    Binary64.sub (Fin a) (Binary64.div (Binary64.mul (Fin a) (Fin d)) (Fin d))
    = Fin r /\
    Qabs r <= 2 ^ (-51) * Qabs a.
Proof.
  intros Hd A0 A1 M0 M1.
  assert (Dq : ~ d == 0).
  { intro E. apply Hd. apply Qc_is_canon. rewrite E. reflexivity. }
  assert (Dp : 0 < Qabs d).
  { destruct (Q_dec d 0) as [ [ N | P ] | Z ]; [ | | contradiction ].
    - rewrite (Qabs_neg d) by now apply Qlt_le_weak.
      exact (Qopp_lt_compat _ _ N).
    - rewrite (Qabs_pos d) by now apply Qlt_le_weak. exact P. }
  (* the product *)
  destruct (round_accuracy (a * d)%Qc) as (P & RP & _ & EP).
  { now rewrite Qc_mult_eq. }
  rewrite Qc_mult_eq in EP. specialize (EP M0).
  cbn [Binary64.mul]. rewrite RP. cbn [Binary64.div].
  rewrite (Qc_eqb_neq _ _ Hd).
  (* the quotient *)
  assert (X2 : Qabs (P / d - a) <= Binary64.unit_roundoff * Qabs a).
  { setoid_replace (P / d - a) with ((P - a * d) / d) by (field; exact Dq).
    unfold Qdiv. rewrite Qabs_Qmult, Qabs_Qinv.
    apply Qle_shift_div_r; [ exact Dp | ].
    rewrite Qabs_Qmult in EP. lra. }
  assert (B2 : Qabs (P / d) <= (1 + Binary64.unit_roundoff) * Qabs a /\
               (1 - Binary64.unit_roundoff) * Qabs a <= Qabs (P / d)).
  { pose proof (Qabs_triangle (P / d - a) a) as T1.
    setoid_replace (P / d - a + a) with (P / d) in T1 by ring.
    pose proof (Qabs_triangle (P / d) (- (P / d - a))) as T2.
    setoid_replace (P / d + - (P / d - a)) with (this a) in T2 by ring.
    rewrite Qabs_opp in T2. split; lra. }
  destruct B2 as [B2 B2'].
  destruct (round_accuracy (P / d)%Qc) as (Q1 & RQ & _ & EQ).
  { rewrite Qc_div_eq. eapply Qle_lt_trans; [ exact B2 | ].
    apply Qle_lt_trans with ((1 + Binary64.unit_roundoff) * 2 ^ 1022).
    - apply Qmult_le_l; [ reflexivity | exact A1 ].
    - reflexivity. }
  rewrite Qc_div_eq in EQ.
  assert (N2 : 2 ^ (-1022) <= Qabs (P / d)).
  { eapply Qle_trans; [ | exact B2' ].
    apply Qle_trans with ((1 - Binary64.unit_roundoff) * 2 ^ (-1021)).
    - discriminate.
    - apply Qmult_le_l; [ reflexivity | exact A0 ]. }
  specialize (EQ N2). rewrite RQ.
  (* the difference *)
  unfold Binary64.sub. cbn [neg Binary64.add].
  assert (X3 : Qabs (a - Q1)
               <= (2 * Binary64.unit_roundoff + Binary64.unit_roundoff * Binary64.unit_roundoff) * Qabs a).
  { setoid_replace (a - Q1) with (- (Q1 - P / d) + - (P / d - a)) by ring.
    eapply Qle_trans; [ apply Qabs_triangle | ].
    rewrite !Qabs_opp.
    assert (Binary64.unit_roundoff * Qabs (P / d)
            <= Binary64.unit_roundoff * ((1 + Binary64.unit_roundoff) * Qabs a))
      by (apply Qmult_le_l; [ reflexivity | exact B2 ]).
    lra. }
  destruct (round_accuracy (a + - Q1)%Qc) as (r & RR & ER & _).
  { rewrite Qc_sub_eq. eapply Qle_lt_trans; [ exact X3 | ].
    apply Qle_lt_trans
      with ((2 * Binary64.unit_roundoff + Binary64.unit_roundoff * Binary64.unit_roundoff) * 2 ^ 1022).
    - apply Qmult_le_l; [ reflexivity | exact A1 ].
    - reflexivity. }
  rewrite Qc_sub_eq in ER.
  exists r. split; [ exact RR | ].
  pose proof (Qabs_triangle (r - (a - Q1)) (a - Q1)) as T3.
  setoid_replace (r - (a - Q1) + (a - Q1)) with (this r) in T3 by ring.
  assert (S : 2 ^ (-1075) <= 2 ^ (-54) * Qabs a).
  { apply Qle_trans with (2 ^ (-54) * 2 ^ (-1021)); [ discriminate | ].
    apply Qmult_le_l; [ reflexivity | exact A0 ]. }
  assert (K : Binary64.unit_roundoff * Qabs (a - Q1)
              <= Binary64.unit_roundoff
                 * ((2 * Binary64.unit_roundoff + Binary64.unit_roundoff * Binary64.unit_roundoff)
                    * Qabs a))
    by (apply Qmult_le_l; [ reflexivity | exact X3 ]).
  pose proof (Qabs_nonneg a) as Na.
  eapply Qle_trans; [ exact T3 | ].
  apply Qle_trans
    with ((Binary64.unit_roundoff
           * (2 * Binary64.unit_roundoff + Binary64.unit_roundoff * Binary64.unit_roundoff)
           + 2 ^ (-54)
           + (2 * Binary64.unit_roundoff + Binary64.unit_roundoff * Binary64.unit_roundoff))
          * Qabs a); [ lra | ].
  apply Qmult_le_compat_r; [ discriminate | exact Na ].
Qed.

Local Close Scope Q_scope.

(* ================================================================= *)
(** ** The pivot in binary64 *)

Lemma get1_map2 (f : num * num -> num) (u v : array1) (j : nat) :
  length u = length v -> (j < length u)%nat ->
  get1 (map f (combine u v)) j = f (get1 u j, get1 v j).
Proof.
  revert v j. induction u as [ | a u IH ]; intros [ | b v ] j L H;
    simpl in *; try lia.
  destruct j as [ | j ]; [ reflexivity | ].
  unfold get1 in *. simpl. apply IH; lia.
Qed.

Lemma forallb_map_all {A : Type} (P : num -> bool) (f : A -> num) (l : list A) :
  (forall x, P (f x) = true) -> forallb P (map f l) = true.
Proof.
  intro H. induction l as [ | x l IH ]; [ reflexivity | ].
  cbn [map forallb]. now rewrite H, IH.
Qed.

Lemma is_float64_rows (T : array2) :
  (forall i, (i < nrows T)%nat ->
             forallb Binary64.is_binary64 (row T i) = true) ->
  Binary64.is_float64 T = true.
Proof.
  intro H. apply forallb_forall. intros r Hr.
  destruct (In_nth _ _ [] Hr) as (i & Hi & <-). now apply H.
Qed.

Lemma is_float64_row (T : array2) (i : nat) :
  Binary64.is_float64 T = true -> (i < nrows T)%nat ->
  forallb Binary64.is_binary64 (row T i) = true.
Proof.
  unfold Binary64.is_float64, row, nrows. rewrite forallb_forall.
  intros F H. apply F, nth_In, H.
Qed.

Lemma forallb_get1 (P : num -> bool) (v : array1) (j : nat) :
  forallb P v = true -> (j < length v)%nat -> P (get1 v j) = true.
Proof.
  unfold get1. rewrite forallb_forall. intros F H. apply F, nth_In, H.
Qed.

Lemma is_float64_get (T : array2) (i j : nat) :
  wf_array2 T -> Binary64.is_float64 T = true ->
  (i < nrows T)%nat -> (j < ncols T)%nat ->
  Binary64.is_binary64 (get T i j) = true.
Proof.
  intros W F Hi Hj. unfold get. apply forallb_get1.
  - now apply is_float64_row.
  - now rewrite wf_row_length.
Qed.

Lemma list_get1_ext (u v : array1) :
  length u = length v ->
  (forall j, (j < length u)%nat -> get1 u j = get1 v j) -> u = v.
Proof. intros L E. apply (nth_ext _ _ NaN NaN); assumption. Qed.

(** Rounding changes neither the guards of [pivoting] nor the shape of
    its result: [Binary64.pivoting] raises what [pivoting] raises, and
    returns when it returns. *)
Lemma binary64_pivoting_guards (T : array2) (p q : nat) :
  match pivoting T p q, Binary64.pivoting T p q with
  | Return N, Return N' => nrows N = nrows N' /\ ncols N = ncols N'
  | Raise e, Raise e' => e = e'
  | _, _ => False
  end.
Proof.
  unfold pivoting, Binary64.pivoting.
  destruct (nrows T <=? q)%nat; [ reflexivity | ].
  destruct (ncols T <=? p)%nat; [ reflexivity | ].
  destruct (abs (get T q p) <? eps); [ reflexivity | ].
  unfold nrows. cbn [rows ncols]. now rewrite !length_map.
Qed.

(** The guards of [pivoting] passed, the new tableau has the shape of the
    old one and its entries are the rounded quotients and differences. *)
Lemma binary64_pivoting_inv (T T' : array2) (p q : nat) :
  Binary64.pivoting T p q = Return T' ->
  (q < nrows T)%nat /\ (p < ncols T)%nat /\
  (abs (get T q p) <? eps) = false /\
  ncols T' = ncols T /\ nrows T' = nrows T /\
  row T' q = Binary64.vdiv (row T q) (get T q p) /\
  forall i, (i < nrows T)%nat -> i <> q ->
    row T' i =
    Binary64.vsub (row T i)
      (Binary64.vdiv (Binary64.vmul (get T i p) (row T q)) (get T q p)).
Proof.
  unfold Binary64.pivoting.
  destruct (Nat.leb_spec (nrows T) q); [ discriminate | ].
  destruct (Nat.leb_spec (ncols T) p); [ discriminate | ].
  destruct (abs (get T q p) <? eps); [ discriminate | ].
  intro E. injection E as <-.
  repeat split; try assumption.
  - unfold nrows. simpl. now rewrite length_map, length_seq.
  - unfold row at 1. simpl. rewrite nth_map_seq by assumption.
    now rewrite Nat.eqb_refl.
  - intros i Hi Hne. unfold row at 1. simpl.
    rewrite nth_map_seq by assumption.
    destruct (Nat.eqb_spec i q); [ contradiction | reflexivity ].
Qed.

Lemma binary64_pivoting_returns (T : array2) (p q : nat) :
  (q < nrows T)%nat -> (p < ncols T)%nat ->
  (abs (get T q p) <? eps) = false ->
  exists T', Binary64.pivoting T p q = Return T'.
Proof.
  intros Hq Hp G. unfold Binary64.pivoting.
  destruct (Nat.leb_spec (nrows T) q); [ lia | ].
  destruct (Nat.leb_spec (ncols T) p); [ lia | ].
  rewrite G. eexists. reflexivity.
Qed.

Lemma binary64_pivoting_entries (T T' : array2) (p q : nat) :
  wf_array2 T -> Binary64.pivoting T p q = Return T' ->
  wf_array2 T' /\ Binary64.is_float64 T' = true /\
  (forall j, (j < ncols T)%nat ->
     get T' q j = Binary64.div (get T q j) (get T q p)) /\
  (forall i j, (i < nrows T)%nat -> i <> q -> (j < ncols T)%nat ->
     get T' i j =
     Binary64.sub (get T i j)
       (Binary64.div (Binary64.mul (get T i p) (get T q j)) (get T q p))).
Proof.
  intros W E.
  destruct (binary64_pivoting_inv T T' p q E)
    as (Hq & Hp & G & C & R & Rq & Ri).
  pose proof (wf_row_length T q W Hq) as Lq.
  assert (Lv : forall a, length (Binary64.vdiv (Binary64.vmul a (row T q))
                                   (get T q p)) = ncols T).
  { intro a. unfold Binary64.vdiv, Binary64.vmul.
    now rewrite !length_map. }
  split; [ | split; [ | split ] ].
  - apply Forall_rows. intros i Hi. rewrite R in Hi. rewrite C.
    destruct (Nat.eq_dec i q) as [-> | Hne ].
    + rewrite Rq. unfold Binary64.vdiv. now rewrite length_map.
    + rewrite (Ri i Hi Hne). unfold Binary64.vsub.
      rewrite length_map, length_combine, Lv, (wf_row_length T i W Hi). lia.
  - apply is_float64_rows. intros i Hi. rewrite R in Hi.
    destruct (Nat.eq_dec i q) as [-> | Hne ].
    + rewrite Rq. apply forallb_map_all. intro x. apply div_binary64.
    + rewrite (Ri i Hi Hne). apply forallb_map_all. intro x.
      apply sub_binary64.
  - intros j Hj. unfold get at 1. rewrite Rq. unfold Binary64.vdiv.
    now rewrite get1_map by now rewrite Lq.
  - intros i j Hi Hne Hj. unfold get at 1. rewrite (Ri i Hi Hne).
    unfold Binary64.vsub.
    rewrite get1_map2;
      [ | now rewrite Lv, (wf_row_length T i W Hi)
        | now rewrite (wf_row_length T i W Hi) ].
    cbn [fst snd]. unfold Binary64.vdiv, Binary64.vmul.
    rewrite !get1_map; [ reflexivity | now rewrite Lq | ].
    now rewrite length_map, Lq.
Qed.

(** A row with a zero in the column of the pivot is not changed, when the
    row of the pivot is finite. *)
Lemma binary64_pivoting_zero_row (T T' : array2) (p q i : nat) :
  wf_array2 T -> Binary64.pivoting T p q = Return T' ->
  (i < nrows T)%nat -> i <> q ->
  get T i p = zero -> finite1 (row T q) = true ->
  is_finite (get T q p) = true ->
  forallb Binary64.is_binary64 (row T i) = true ->
  row T' i = row T i.
Proof.
  intros W E Hi Hne Z Fq Fp Bi.
  destruct (binary64_pivoting_inv T T' p q E)
    as (Hq & Hp & G & C & R & Rq & Ri).
  destruct (binary64_pivoting_entries T T' p q W E) as (W' & _ & _ & Ei).
  assert (Hi' : (i < nrows T')%nat) by lia.
  apply list_get1_ext.
  - now rewrite (wf_row_length T' i W' Hi'), (wf_row_length T i W Hi).
  - intros j Hj. rewrite (wf_row_length T' i W' Hi'), C in Hj.
    fold (get T' i j) (get T i j). rewrite (Ei i j Hi Hne Hj), Z.
    destruct (finite1_get1 (row T q) j Fq) as [z Ez];
      [ now rewrite (wf_row_length T q W Hq) | ].
    fold (get T q j) in Ez. rewrite Ez.
    rewrite mul_zero by reflexivity.
    destruct (finite_inv _ Fp) as [x Ex]. rewrite Ex in *.
    pose proof (guard_nonzero x G) as Hx.
    assert (D : Binary64.div zero (Fin x) = zero).
    { cbn [Binary64.div zero]. rewrite (Qc_eqb_neq _ _ Hx).
      replace (Q2Qc 0 / x)%Qc with (Q2Qc 0); [ reflexivity | ].
      field. exact Hx. }
    rewrite D. apply sub_zero. unfold get.
    apply forallb_get1; [ exact Bi | now rewrite (wf_row_length T i W Hi) ].
Qed.

Lemma div_self_nonzero (x : Qc) :
  x <> Q2Qc 0 -> Binary64.div (Fin x) (Fin x) = one.
Proof.
  intro H. cbn [Binary64.div]. rewrite (Qc_eqb_neq _ _ H).
  replace (x / x)%Qc with (Q2Qc 1); [ exact round_one | ].
  symmetry. now apply Qcmult_inv_r.
Qed.

(** *** On an int64 tableau *)

Lemma in_int64_range (z : Z) :
  Binary64.in_int64 z = true -> (- 2 ^ 63 <= z < 2 ^ 63)%Z.
Proof.
  unfold Binary64.in_int64. rewrite andb_true_iff, Z.leb_le, Z.ltb_lt. tauto.
Qed.

Lemma wf_int_row (T : Binary64.int_array2) (i : nat) :
  Binary64.wf_int_array2 T -> (i < Binary64.int_nrows T)%nat ->
  length (Binary64.int_row T i) = Binary64.int_ncols T /\
  Forall (fun z => Binary64.in_int64 z = true) (Binary64.int_row T i).
Proof.
  unfold Binary64.wf_int_array2, Binary64.int_row, Binary64.int_nrows.
  rewrite Forall_forall. intros W H. apply W, nth_In, H.
Qed.

Lemma wf_int_get (T : Binary64.int_array2) (i j : nat) :
  Binary64.wf_int_array2 T ->
  (i < Binary64.int_nrows T)%nat -> (j < Binary64.int_ncols T)%nat ->
  Binary64.in_int64 (Binary64.int_get T i j) = true.
Proof.
  intros W Hi Hj. destruct (wf_int_row T i W Hi) as [L F].
  rewrite Forall_forall in F. apply F. unfold Binary64.int_get.
  apply nth_In. now rewrite L.
Qed.

Lemma get1_map_of {A : Type} (f : A -> num) (l : list A) (j : nat) (d : A) :
  (j < length l)%nat -> get1 (map f l) j = f (nth j l d).
Proof.
  intro H. unfold get1.
  rewrite (nth_indep (map f l) NaN (f d)) by now rewrite length_map.
  apply map_nth.
Qed.

Lemma int64_pivoting_inv (T : Binary64.int_array2) (T' : array2) (p q : nat) :
  Binary64.pivoting_int64 T p q = Return T' ->
  (q < Binary64.int_nrows T)%nat /\ (p < Binary64.int_ncols T)%nat /\
  (Binary64.of_int64 (Binary64.abs_int64 (Binary64.int_get T q p)) <? eps)
  = false /\
  ncols T' = Binary64.int_ncols T /\ nrows T' = Binary64.int_nrows T /\
  row T' q =
    map (fun x => Binary64.div (Binary64.of_int64 x)
                    (Binary64.of_int64 (Binary64.int_get T q p)))
        (Binary64.int_row T q) /\
  forall i, (i < Binary64.int_nrows T)%nat -> i <> q ->
    row T' i =
    map (fun xy =>
           Binary64.sub (Binary64.of_int64 (fst xy))
             (Binary64.div
                (Binary64.of_int64
                   (Binary64.wrap_int64 (Binary64.int_get T i p * snd xy)))
                (Binary64.of_int64 (Binary64.int_get T q p))))
        (combine (Binary64.int_row T i) (Binary64.int_row T q)).
Proof.
  unfold Binary64.pivoting_int64.
  destruct (Nat.leb_spec (Binary64.int_nrows T) q); [ discriminate | ].
  destruct (Nat.leb_spec (Binary64.int_ncols T) p); [ discriminate | ].
  destruct (_ <? eps); [ discriminate | ].
  intro E. injection E as <-.
  repeat split; try assumption.
  - unfold nrows. simpl. now rewrite length_map, length_seq.
  - unfold row at 1. simpl. rewrite nth_map_seq by assumption.
    now rewrite Nat.eqb_refl.
  - intros i Hi Hne. unfold row at 1. simpl.
    rewrite nth_map_seq by assumption.
    destruct (Nat.eqb_spec i q); [ contradiction | reflexivity ].
Qed.

Lemma int64_pivoting_returns (T : Binary64.int_array2) (p q : nat) :
  (q < Binary64.int_nrows T)%nat -> (p < Binary64.int_ncols T)%nat ->
  (Binary64.of_int64 (Binary64.abs_int64 (Binary64.int_get T q p)) <? eps)
  = false ->
  exists T', Binary64.pivoting_int64 T p q = Return T'.
Proof.
  intros Hq Hp G. unfold Binary64.pivoting_int64.
  destruct (Nat.leb_spec (Binary64.int_nrows T) q); [ lia | ].
  destruct (Nat.leb_spec (Binary64.int_ncols T) p); [ lia | ].
  rewrite G. eexists. reflexivity.
Qed.

Lemma int64_pivoting_entries (T : Binary64.int_array2) (T' : array2)
    (p q : nat) :
  Binary64.wf_int_array2 T -> Binary64.pivoting_int64 T p q = Return T' ->
  wf_array2 T' /\ Binary64.is_float64 T' = true /\
  (forall j, (j < Binary64.int_ncols T)%nat ->
     get T' q j =
     Binary64.div (Binary64.of_int64 (Binary64.int_get T q j))
                  (Binary64.of_int64 (Binary64.int_get T q p))) /\
  get T' q p = one /\
  (forall i j, (i < Binary64.int_nrows T)%nat -> i <> q ->
     (j < Binary64.int_ncols T)%nat ->
     get T' i j =
     Binary64.sub (Binary64.of_int64 (Binary64.int_get T i j))
       (Binary64.div
          (Binary64.of_int64
             (Binary64.wrap_int64
                (Binary64.int_get T i p * Binary64.int_get T q j)))
          (Binary64.of_int64 (Binary64.int_get T q p)))).
Proof.
  intros W E.
  destruct (int64_pivoting_inv T T' p q E)
    as (Hq & Hp & G & C & R & Rq & Ri).
  destruct (wf_int_row T q W Hq) as [Lq _].
  assert (Eq : forall j, (j < Binary64.int_ncols T)%nat ->
     get T' q j =
     Binary64.div (Binary64.of_int64 (Binary64.int_get T q j))
                  (Binary64.of_int64 (Binary64.int_get T q p))).
  { intros j Hj. unfold get at 1. rewrite Rq.
    now rewrite (get1_map_of _ _ _ 0%Z) by now rewrite Lq. }
  split; [ | split; [ | split; [ exact Eq | split ] ] ].
  - apply Forall_rows. intros i Hi. rewrite R in Hi. rewrite C.
    destruct (Nat.eq_dec i q) as [-> | Hne ].
    + rewrite Rq. now rewrite length_map.
    + rewrite (Ri i Hi Hne). destruct (wf_int_row T i W Hi) as [Li _].
      rewrite length_map, length_combine, Li, Lq. lia.
  - apply is_float64_rows. intros i Hi. rewrite R in Hi.
    destruct (Nat.eq_dec i q) as [-> | Hne ].
    + rewrite Rq. apply forallb_map_all. intro x. apply div_binary64.
    + rewrite (Ri i Hi Hne). apply forallb_map_all. intro x.
      apply sub_binary64.
  - rewrite (Eq p Hp).
    pose proof (wf_int_get T q p W Hq Hp) as I.
    assert (N : Binary64.int_get T q p <> 0%Z).
    { intro Z. rewrite Z in G. vm_compute in G. discriminate. }
    destruct (of_int64_nonzero _ (in_int64_range _ I) N) as (x & -> & Hx).
    now apply div_self_nonzero.
  - intros i j Hi Hne Hj. unfold get at 1. rewrite (Ri i Hi Hne).
    destruct (wf_int_row T i W Hi) as [Li _].
    rewrite (get1_map_of _ _ _ (0%Z, 0%Z))
      by (rewrite length_combine, Li, Lq; lia).
    rewrite combine_nth by now rewrite Li, Lq. reflexivity.
Qed.

(** An entry of the column of the pivot becomes zero when its product
    with the pivot is exact. *)
Lemma binary64_pivoting_exact_product (T T' : array2) (p q i : nat) :
  wf_array2 T -> Binary64.pivoting T p q = Return T' ->
  (i < nrows T)%nat -> i <> q ->
  is_finite (get T i p) = true -> is_finite (get T q p) = true ->
  Binary64.is_binary64 (get T i p) = true ->
  Binary64.mul (get T i p) (get T q p) = get T i p * get T q p ->
  get T' i p = zero.
Proof.
  intros W E Hi Hne Fa Fd Ba X.
  destruct (binary64_pivoting_inv T T' p q E)
    as (Hq & Hp & G & _).
  destruct (binary64_pivoting_entries T T' p q W E) as (_ & _ & _ & Ei).
  rewrite (Ei i p Hi Hne Hp), X.
  destruct (finite_inv _ Fa) as [x Ex]. destruct (finite_inv _ Fd) as [y Ey].
  rewrite Ex, Ey in *. pose proof (guard_nonzero y G) as Hy.
  cbn [mul Binary64.div]. rewrite (Qc_eqb_neq _ _ Hy).
  replace (x * y / y)%Qc with x by (field; exact Hy).
  rewrite (is_binary64_fixed x Ba). now apply sub_self.
Qed.

(** What the pivot leaves in the column of the pivot is small. *)
Lemma binary64_pivoting_residue (T T' : array2) (p q i : nat) (a d : Qc) :
  wf_array2 T -> Binary64.pivoting T p q = Return T' ->
  (i < nrows T)%nat -> i <> q ->
  get T i p = Fin a -> get T q p = Fin d ->
  (2 ^ (-1021) <= Qabs a <= 2 ^ 1022)%Q ->
  (2 ^ (-1021) <= Qabs (a * d) <= 2 ^ 1022)%Q ->
  exists r : Qc, get T' i p = Fin r /\ (Qabs r <= 2 ^ (-51) * Qabs a)%Q.
Proof.
  intros W E Hi Hne Ea Ed [A0 A1] [M0 M1].
  destruct (binary64_pivoting_inv T T' p q E) as (Hq & Hp & G & _).
  destruct (binary64_pivoting_entries T T' p q W E) as (_ & _ & _ & Ei).
  rewrite (Ei i p Hi Hne Hp), Ea, Ed. rewrite Ed in G.
  apply residue_bound; try assumption.
  - now apply guard_nonzero.
  - eapply Qle_trans; [ | exact M0 ]. discriminate.
  - eapply Qle_lt_trans; [ exact M1 | ]. reflexivity.
Qed.

(* ================================================================= *)
(** ** The pivot, as the code computes it *)

(** C5 (as the code has it).  On a float64 tableau, with the pivot
    position in range and a finite pivot entry of absolute value at least
    machine epsilon, [pivoting] returns a new array (at a fresh location of
    the heap, the given tableau and every other array unchanged) of the
    shape of the given one.  Its row [q] holds the binary64 quotients of
    the entries of row [q] by the pivot, so that entry [(q, p)] is exactly
    1.  Each other entry [(i, j)] is
    [T[i][j] - (T[i][p] * T[q][j]) / T[q][p]] with the product, the
    quotient and the difference each rounded to binary64.  Nothing makes
    the entries of column [p] zero in general.  Such an entry is zero when
    the product [T[i][p] * T[q][p]] is exact; it is at most 2^-51 times
    [T[i][p]] in magnitude when [T[i][p]] and that product are between
    2^-1021 and 2^1022 in magnitude; and a row whose entry in column [p]
    is exactly zero is returned as it was when the row of the pivot is
    finite (the two zeros of binary64 being one number).
    On an int64 tableau the same holds with the operands converted to
    float64 and the product [T[i][p] * T[q][j]] computed modulo 2^64. *)
Theorem pivoting_rounded :
  (forall (T : array2) (p q : nat),
     wf_array2 T -> (q < nrows T)%nat -> (p < ncols T)%nat ->
     is_finite (get T q p) = true ->
     (abs (get T q p) >=? eps) = true ->
     exists T',
       Binary64.pivoting T p q = Return T' /\
       (forall h l, nth_error h l = Some T ->
          exists l',
            Binary64.pivoting_heap h l p q = (h ++ [T'], Return l') /\
            l' <> l /\
            nth_error (h ++ [T']) l' = Some T' /\
            forall k, (k < length h)%nat ->
                      nth_error (h ++ [T']) k = nth_error h k) /\
       nrows T' = nrows T /\ ncols T' = ncols T /\ wf_array2 T' /\
       Binary64.is_float64 T' = true /\
       (forall j, (j < ncols T)%nat ->
          get T' q j = Binary64.div (get T q j) (get T q p)) /\
       get T' q p = one /\
       (forall i j, (i < nrows T)%nat -> i <> q -> (j < ncols T)%nat ->
          get T' i j =
          Binary64.sub (get T i j)
            (Binary64.div (Binary64.mul (get T i p) (get T q j))
                          (get T q p))) /\
       (forall i, (i < nrows T)%nat -> i <> q ->
          is_finite (get T i p) = true ->
          Binary64.is_binary64 (get T i p) = true ->
          Binary64.mul (get T i p) (get T q p) = get T i p * get T q p ->
          get T' i p = zero) /\
       (forall i a d, (i < nrows T)%nat -> i <> q ->
          get T i p = Fin a -> get T q p = Fin d ->
          (2 ^ (-1021) <= Qabs a <= 2 ^ 1022)%Q ->
          (2 ^ (-1021) <= Qabs (a * d) <= 2 ^ 1022)%Q ->
          exists r : Qc,
            get T' i p = Fin r /\ (Qabs r <= 2 ^ (-51) * Qabs a)%Q) /\
       (forall i, (i < nrows T)%nat -> i <> q ->
          get T i p = zero -> finite1 (row T q) = true ->
          forallb Binary64.is_binary64 (row T i) = true ->
          row T' i = row T i)) /\
  (forall (T : Binary64.int_array2) (p q : nat),
     Binary64.wf_int_array2 T ->
     (q < Binary64.int_nrows T)%nat -> (p < Binary64.int_ncols T)%nat ->
     (Binary64.of_int64 (Binary64.abs_int64 (Binary64.int_get T q p))
      >=? eps) = true ->
     exists T',
       Binary64.pivoting_int64 T p q = Return T' /\
       nrows T' = Binary64.int_nrows T /\
       ncols T' = Binary64.int_ncols T /\ wf_array2 T' /\
       Binary64.is_float64 T' = true /\
       (forall j, (j < Binary64.int_ncols T)%nat ->
          get T' q j =
          Binary64.div (Binary64.of_int64 (Binary64.int_get T q j))
                       (Binary64.of_int64 (Binary64.int_get T q p))) /\
       get T' q p = one /\
       (forall i j, (i < Binary64.int_nrows T)%nat -> i <> q ->
          (j < Binary64.int_ncols T)%nat ->
          get T' i j =
          Binary64.sub (Binary64.of_int64 (Binary64.int_get T i j))
            (Binary64.div
               (Binary64.of_int64
                  (Binary64.wrap_int64
                     (Binary64.int_get T i p * Binary64.int_get T q j)))
               (Binary64.of_int64 (Binary64.int_get T q p))))).
Proof.
  split.
  - intros T p q W Hq Hp Fp G. apply geb_not_ltb in G.
    destruct (binary64_pivoting_returns T p q Hq Hp G) as [T' E].
    destruct (binary64_pivoting_inv T T' p q E)
      as (_ & _ & _ & C & R & _ & _).
    destruct (binary64_pivoting_entries T T' p q W E)
      as (W' & B' & Eq & Ei).
    exists T'. split; [ exact E | ]. split.
    { intros h l Hl. exists (length h).
      unfold Binary64.pivoting_heap, alloc. rewrite Hl, E.
      split; [ reflexivity | ]. split; [ | split ].
      - assert (l < length h)%nat by (apply nth_error_Some; congruence). lia.
      - rewrite nth_error_app2, Nat.sub_diag by lia. reflexivity.
      - intros k Hk. now apply nth_error_app1. }
    repeat (split; [ assumption | ]).
    split; [ | split; [ exact Ei | split; [ | split ] ] ].
    + rewrite (Eq p Hp). destruct (finite_inv _ Fp) as [x Ex].
      rewrite Ex in *. apply div_self_nonzero. now apply guard_nonzero.
    + intros i Hi Hne Fa Ba X.
      now apply (binary64_pivoting_exact_product T T' p q i).
    + intros i a d Hi Hne Ea Ed Ra Rm.
      now apply (binary64_pivoting_residue T T' p q i a d).
    + intros i Hi Hne Z Fq Bi.
      now apply (binary64_pivoting_zero_row T T' p q i).
  - intros T p q W Hq Hp G. apply geb_not_ltb in G.
    destruct (int64_pivoting_returns T p q Hq Hp G) as [T' E].
    destruct (int64_pivoting_inv T T' p q E)
      as (_ & _ & _ & C & R & _ & _).
    destruct (int64_pivoting_entries T T' p q W E)
      as (W' & B' & Eq & One & Ei).
    exists T'. repeat (split; [ assumption | ]). exact Ei.
Qed.

Lemma pivoting_rounded_witness :
  (exists T',
     Binary64.pivoting tenths 0 0 = Return T' /\
     get T' 0 0 = one /\
     get T' 1 0 =
     Binary64.sub (get tenths 1 0)
       (Binary64.div (Binary64.mul (get tenths 1 0) (get tenths 0 0))
                     (get tenths 0 0))) /\
  (exists T',
     Binary64.pivoting_int64 pivoting_example2 1 1 = Return T' /\
     get T' 1 1 = one).
Proof.
  destruct pivoting_rounded as [F I]. split.
  - destruct (F tenths 0%nat 0%nat)
      as (T' & E & _ & _ & _ & _ & _ & _ & One & Ei & _ & _ & _).
    + unfold wf_array2. repeat constructor.
    + vm_compute; lia.
    + vm_compute; lia.
    + reflexivity.
    + vm_compute; reflexivity.
    + exists T'. split; [ exact E | ]. split; [ exact One | ].
      apply Ei; vm_compute; lia.
  - destruct (I pivoting_example2 1%nat 1%nat)
      as (T' & E & _ & _ & _ & _ & _ & One & _).
    + unfold Binary64.wf_int_array2. repeat constructor.
    + vm_compute; lia.
    + vm_compute; lia.
    + vm_compute; reflexivity.
    + exists T'. split; [ exact E | exact One ].
Defined.

(** C5 (as the claim has it) fails: pivoting the tableau of four entries
    0.1 on its first entry leaves -2^-56 where the claim has a zero, since
    0.1 * 0.1 / 0.1 is not 0.1 in binary64. *)
Lemma pivoting_column_not_zero :
  wf_array2 tenths /\ Binary64.is_float64 tenths = true /\
  (abs (get tenths 0 0) >=? eps) = true /\
  exists T',
    Binary64.pivoting tenths 0 0 = Return T' /\
    get T' 1 0 = ratio (-1) 72057594037927936 /\
    get T' 1 0 <> zero.
Proof.
  split; [ unfold wf_array2; repeat constructor | ].
  split; [ vm_compute; reflexivity | ].
  split; [ vm_compute; reflexivity | ].
  eexists. split; [ vm_compute; reflexivity | ].
  assert (E : forall a, same a (ratio (-1) 72057594037927936) = true ->
                        a = ratio (-1) 72057594037927936 /\ a <> zero).
  { intros a H. apply same_eq in H. subst a. split; [ reflexivity | ].
    intro Z. apply (f_equal (fun a => same a zero)) in Z.
    vm_compute in Z. discriminate. }
  apply E. vm_compute. reflexivity.
Qed.

(* ================================================================= *)
(** ** Pivoting once more *)

Lemma binary64_pivoting_unit (T1 : array2) (p q : nat) :
  wf_array2 T1 -> Binary64.is_float64 T1 = true -> finite2 T1 = true ->
  (q < nrows T1)%nat -> (p < ncols T1)%nat -> get T1 q p = one ->
  exists T2,
    Binary64.pivoting T1 p q = Return T2 /\
    wf_array2 T2 /\ Binary64.is_float64 T2 = true /\
    nrows T2 = nrows T1 /\ ncols T2 = ncols T1 /\
    row T2 q = row T1 q /\
    (forall i, (i < nrows T1)%nat -> i <> q -> get T2 i p = zero) /\
    (forall i, (i < nrows T1)%nat -> i <> q ->
       get T1 i p = zero -> row T2 i = row T1 i).
Proof.
  intros W B F Hq Hp One.
  assert (G : (abs (get T1 q p) <? eps) = false)
    by (rewrite One; vm_compute; reflexivity).
  destruct (binary64_pivoting_returns T1 p q Hq Hp G) as [T2 E].
  destruct (binary64_pivoting_inv T1 T2 p q E)
    as (_ & _ & _ & C & R & _ & _).
  destruct (binary64_pivoting_entries T1 T2 p q W E) as (W' & B' & Eq & Ei).
  exists T2. repeat (split; [ assumption | ]).
  assert (Hq' : (q < nrows T2)%nat) by lia.
  split; [ | split ].
  - apply list_get1_ext.
    + now rewrite (wf_row_length T2 q W' Hq'), (wf_row_length T1 q W Hq).
    + intros j Hj. rewrite (wf_row_length T2 q W' Hq'), C in Hj.
      fold (get T2 q j) (get T1 q j). rewrite (Eq j Hj), One.
      apply div_one. now apply is_float64_get.
  - intros i Hi Hne. rewrite (Ei i p Hi Hne Hp), One.
    pose proof (is_float64_get T1 i p W B Hi Hp) as Bi.
    rewrite (mul_one _ Bi), (div_one _ Bi).
    apply sub_self. destruct (finite2_get T1 i p W F Hi Hp) as [x ->].
    reflexivity.
  - intros i Hi Hne Z.
    apply (binary64_pivoting_zero_row T1 T2 p q i); try assumption.
    + now apply finite2_row.
    + now rewrite One.
    + now apply is_float64_row.
Qed.

(** A finite tableau that [pivoting] has returned is a float64 array with
    a 1 at the position of the pivot. *)
Lemma pivoted_unit_entry (T1 : array2) (p q : nat) :
  (exists T, wf_array2 T /\ Binary64.pivoting T p q = Return T1) \/
  (exists T, Binary64.wf_int_array2 T /\
             Binary64.pivoting_int64 T p q = Return T1) ->
  finite2 T1 = true ->
  wf_array2 T1 /\ Binary64.is_float64 T1 = true /\
  (q < nrows T1)%nat /\ (p < ncols T1)%nat /\ get T1 q p = one.
Proof.
  intros [ (T & W & E) | (T & W & E) ] F.
  - destruct (binary64_pivoting_inv T T1 p q E)
      as (Hq & Hp & _ & C & R & _ & _).
    destruct (binary64_pivoting_entries T T1 p q W E) as (W1 & B1 & Eq & _).
    repeat (split; [ assumption || lia | ]).
    destruct (finite2_get T1 q p W1 F ltac:(lia) ltac:(lia)) as [x Ex].
    rewrite (Eq p Hp) in *. apply div_self. now rewrite Ex.
  - destruct (int64_pivoting_inv T T1 p q E)
      as (Hq & Hp & _ & C & R & _ & _).
    destruct (int64_pivoting_entries T T1 p q W E)
      as (W1 & B1 & _ & One & _).
    repeat (split; [ assumption || lia | ]). exact One.
Qed.

(** C9 (as the code has it).  Let [T1] be a finite tableau that [pivoting]
    has returned for the position [(p, q)].  Pivoting [T1] at the same
    position returns a tableau [T2] of the same shape with the same row
    [q], in which column [p] is exactly the unit vector of row [q], and in
    which every row whose entry in column [p] was already zero is
    unchanged.  So [T2] is [T1] exactly when rounding has left nothing in
    column [p] of [T1] outside row [q]; and when [T2] is finite, a third
    pivot returns [T2] itself. *)
Theorem pivoting_again (T1 : array2) (p q : nat) :
  (exists T, wf_array2 T /\ Binary64.pivoting T p q = Return T1) \/
  (exists T, Binary64.wf_int_array2 T /\
             Binary64.pivoting_int64 T p q = Return T1) ->
  finite2 T1 = true ->
  exists T2,
    Binary64.pivoting T1 p q = Return T2 /\
    nrows T2 = nrows T1 /\ ncols T2 = ncols T1 /\
    row T2 q = row T1 q /\
    get T2 q p = one /\
    (forall i, (i < nrows T1)%nat -> i <> q -> get T2 i p = zero) /\
    (forall i, (i < nrows T1)%nat -> i <> q ->
       get T1 i p = zero -> row T2 i = row T1 i) /\
    (T2 = T1 <->
     forall i, (i < nrows T1)%nat -> i <> q -> get T1 i p = zero) /\
    (finite2 T2 = true -> Binary64.pivoting T2 p q = Return T2).
Proof.
  intros P F.
  destruct (pivoted_unit_entry T1 p q P F) as (W & B & Hq & Hp & One).
  destruct (binary64_pivoting_unit T1 p q W B F Hq Hp One)
    as (T2 & E & W2 & B2 & R & C & Rq & Z & K).
  assert (One2 : get T2 q p = one) by (unfold get; rewrite Rq; exact One).
  assert (Same : forall S S' : array2,
            nrows S' = nrows S -> ncols S' = ncols S ->
            row S' q = row S q ->
            (forall i, (i < nrows S)%nat -> i <> q -> get S i p = zero ->
                       row S' i = row S i) ->
            (forall i, (i < nrows S)%nat -> i <> q -> get S i p = zero) ->
            S' = S).
  { intros S S' RS CS RqS KS ZS. apply array2_ext; try assumption.
    intros i Hi. rewrite RS in Hi.
    destruct (Nat.eq_dec i q) as [-> | Hne ]; [ exact RqS | ].
    apply KS; try assumption. now apply ZS. }
  exists T2. repeat (split; [ assumption | ]). split.
  - split.
    + intros -> i Hi Hne. now apply Z.
    + intro ZS. now apply Same.
  - intro F2.
    destruct (binary64_pivoting_unit T2 p q W2 B2 F2 ltac:(lia) ltac:(lia) One2)
      as (T3 & E3 & _ & _ & R3 & C3 & Rq3 & _ & K3).
    rewrite E3. f_equal. apply Same; try assumption.
    intros i Hi Hne. apply Z; [ lia | exact Hne ].
Qed.

Lemma pivoting_again_witness :
  exists T1 T2,
    Binary64.pivoting tenths 0 0 = Return T1 /\
    Binary64.pivoting T1 0 0 = Return T2 /\
    row T2 0 = row T1 0 /\ get T2 1 0 = zero /\ T2 <> T1.
Proof.
  assert (E : exists T1,
             Binary64.pivoting tenths 0 0 = Return T1 /\
             finite2 T1 = true /\ nrows T1 = 2%nat /\
             same (get T1 1 0) zero = false).
  { eexists. split; [ vm_compute; reflexivity | ].
    repeat split; vm_compute; reflexivity. }
  destruct E as (T1 & E1 & F1 & R1 & N1).
  destruct (pivoting_again T1 0 0)
    as (T2 & E2 & _ & _ & Rq & _ & Z & _ & I & _).
  - left. exists tenths. split; [ | exact E1 ].
    unfold wf_array2. repeat constructor.
  - exact F1.
  - exists T1, T2. repeat (split; [ assumption | ]). split.
    + apply Z; lia.
    + intro H. pose proof (proj1 I H 1%nat) as H1.
      rewrite H1 in N1 by lia. discriminate.
Defined.

(** C9 (as the claim has it) fails: after a first pivot of the tableau of
    four entries 0.1 on its first entry, the second pivot removes the
    -2^-56 that the first one has left in column 0 and returns another
    tableau. *)
Lemma pivoting_twice_differs :
  exists T1 T2,
    Binary64.pivoting tenths 0 0 = Return T1 /\
    Binary64.pivoting T1 0 0 = Return T2 /\
    get T1 1 0 = ratio (-1) 72057594037927936 /\
    get T2 1 0 = zero /\
    T2 <> T1.
Proof.
  eexists. eexists. split; [ vm_compute; reflexivity | ].
  split; [ vm_compute; reflexivity | ].
  split; [ apply same_eq; vm_compute; reflexivity | ].
  split; [ apply same_eq; vm_compute; reflexivity | ].
  intro H. apply (f_equal (fun T => same (get T 1 0) zero)) in H.
  vm_compute in H. discriminate.
Qed.

(* ================================================================= *)
(** * Further properties of the tableau routines *)

(** ** The pivot that [simplexTableau] selects *)

Lemma argmin_scan_bound (l : array1) (i : nat) (mp : num) (ind : nat) :
  (ind < i)%nat -> (argmin_scan l i mp ind < i + length l)%nat.
Proof.
  revert i mp ind. induction l as [ | x l IH ]; intros i mp ind H;
    cbn [argmin_scan length]; [ lia | ].
  assert (G : forall mp' ind', (ind' < S i)%nat ->
             (argmin_scan l (S i) mp' ind' < i + S (length l))%nat).
  { intros mp' ind' H'. specialize (IH (S i) mp' ind' H'). lia. }
  destruct (negb (x >=? mp)).
  - destruct x; try (apply G; lia). lia.
  - apply G. lia.
Qed.

Lemma argmin_bound (l : array1) (q : nat) :
  argmin l = Return q -> (q < length l)%nat.
Proof.
  destruct l as [ | x l ]; [ discriminate | ].
  assert (B := argmin_scan_bound l 1 x 0).
  destruct x; cbn [argmin length]; intro E; inversion E; subst; lia.
Qed.

Lemma length_last_row (T : array2) :
  wf_array2 T -> rows T <> [] -> length (last (rows T) []) = ncols T.
Proof.
  intros W H. rewrite last_nth_pred. apply (wf_row_length T _ W).
  unfold nrows. destruct (rows T); [ contradiction | cbn; lia ].
Qed.

(** The entering column is a column other than the right-hand side, and
    its reduced cost is negative. *)
Lemma entering_negative (T : array2) :
  wf_array2 T -> rows T <> [] -> any (negativeReducedCost T) = true ->
  (entering T < ncols T - 1)%nat /\
  (get T (nrows T - 1) (entering T) <? zero) = true.
Proof.
  intros W NE Hneg. destruct (argmax_bool_first _ Hneg) as (L & V & _).
  unfold entering. set (p := argmax_bool (negativeReducedCost T)) in *.
  unfold negativeReducedCost, reducedCost in L, V.
  rewrite length_map, length_removelast, (length_last_row T W NE) in L.
  split; [ exact L | ].
  rewrite (nth_indep _ false ((fun x => x <? zero) NaN)) in V
    by (rewrite length_map, length_removelast, (length_last_row T W NE);
        exact L).
  rewrite (map_nth (fun x => x <? zero)) in V.
  rewrite nth_removelast in V
    by (rewrite (length_last_row T W NE); exact L).
  rewrite last_nth_pred in V. exact V.
Qed.

Lemma simplexTableau_pivot (T : array2) (p q : nat) (opt bounded : bool) :
  wf_array2 T ->
  simplexTableau T = Return (Some p, Some q, opt, bounded) ->
  opt = false /\ bounded = true /\
  p = entering T /\ (p < ncols T - 1)%nat /\ (q < nrows T - 1)%nat /\
  (get T (nrows T - 1) p <? zero) = true /\
  (get T q p >? zero) = true.
Proof.
  intros W H. unfold simplexTableau in H.
  destruct (rows T) as [ | r0 rs ] eqn:R; [ discriminate | ].
  destruct (any (negativeReducedCost T)) eqn:Hneg; cbn [negb] in H;
    [ | discriminate ].
  destruct (argmin (steps T (entering T))) as [ q' | e | ] eqn:Eq;
    cbn [bind] in H; try discriminate.
  destruct (get1 (steps T (entering T)) q' =? inf) eqn:Es;
    inversion H; subst; clear H.
  assert (NE : rows T <> []) by (rewrite R; discriminate).
  destruct (entering_negative T W NE Hneg) as (L & V).
  apply argmin_bound in Eq. rewrite length_steps in Eq.
  repeat split; try assumption.
  (* the pivot entry *)
  unfold steps, get1 at 1 in Es.
  rewrite (nth_indep _ NaN
             ((fun r => if get1 r (entering T) >? zero
                        then last r NaN / get1 r (entering T) else inf) []))
    in Es by (rewrite length_map, length_removelast; exact Eq).
  rewrite (map_nth (fun r => if get1 r (entering T) >? zero
                             then last r NaN / get1 r (entering T)
                             else inf)) in Es.
  rewrite nth_removelast in Es by exact Eq. fold (row T q) in Es.
  fold (get T q (entering T)) in Es.
  destruct (get T q (entering T) >? zero); [ reflexivity | ].
  discriminate.
Qed.

Lemma two_negative_costs_wf : wf_array2 two_negative_costs.
Proof. unfold wf_array2. repeat constructor. Qed.

(** X1.  On a rectangular tableau, whatever its entries, a pivot position
    returned by [simplexTableau] is a column other than the right-hand
    side and a constraint row; the reduced cost of the column is negative
    and the pivot entry is strictly positive, so that [pivoting] cannot
    fail there on its range checks. *)
Theorem selected_pivot_positive (T : array2) (p q : nat) (opt bounded : bool) :
  wf_array2 T ->
  simplexTableau T = Return (Some p, Some q, opt, bounded) ->
  (p < ncols T - 1)%nat /\ (q < nrows T - 1)%nat /\
  (get T (nrows T - 1) p <? zero) = true /\
  (get T q p >? zero) = true /\
  pivoting T p q <> Raise PivotRowOutOfRange /\
  pivoting T p q <> Raise PivotColumnOutOfRange.
Proof.
  intros W H.
  destruct (simplexTableau_pivot T p q opt bounded W H)
    as (_ & _ & _ & Hp & Hq & C & P).
  repeat split; try assumption; unfold pivoting;
    destruct (Nat.leb_spec (nrows T) q); try lia;
    destruct (Nat.leb_spec (ncols T) p); try lia;
    destruct (abs (get T q p) <? eps); discriminate.
Qed.

Lemma selected_pivot_positive_witness :
  simplexTableau two_negative_costs
  = Return (Some 0%nat, Some 0%nat, false, true) /\
  (get two_negative_costs 0 0 >? zero) = true.
Proof.
  split; [ vm_compute; reflexivity | ].
  apply (selected_pivot_positive two_negative_costs 0 0 false true
           two_negative_costs_wf).
  vm_compute. reflexivity.
Defined.

(** ** The iteration *)

Lemma pivoting_shape (T T' : array2) (p q : nat) :
  wf_array2 T -> pivoting T p q = Return T' ->
  wf_array2 T' /\ nrows T' = nrows T /\ ncols T' = ncols T /\
  (q < nrows T)%nat /\ (p < ncols T)%nat.
Proof.
  intros W H. unfold pivoting in H.
  destruct (Nat.leb_spec (nrows T) q); [ discriminate | ].
  destruct (Nat.leb_spec (ncols T) p); [ discriminate | ].
  destruct (abs (get T q p) <? eps); [ discriminate | ].
  inversion H; subst; clear H.
  split; [ | split; [ | repeat split; assumption ] ].
  2: { unfold nrows at 1. cbn [rows]. now rewrite length_map, length_seq. }
  unfold wf_array2. cbn [rows ncols]. apply Forall_forall. intros r Hr.
  apply in_map_iff in Hr. destruct Hr as (i & <- & Hi).
  apply in_seq in Hi.
  assert (Lq : length (row T q) = ncols T) by (apply wf_row_length; trivial).
  assert (Li : length (row T i) = ncols T) by (apply wf_row_length; trivial; lia).
  destruct (i =? q)%nat.
  - now rewrite length_vdiv.
  - rewrite length_vsub; [ exact Li | ].
    now rewrite length_vdiv, length_vmul, Li, Lq.
Qed.

Lemma simplexTableau_forms (T : array2) (cp rp : option nat) (o b : bool) :
  simplexTableau T = Return (cp, rp, o, b) ->
  (cp, rp, o, b) = (None, None, true, true) \/
  (cp, rp, o, b) = (None, None, false, false) \/
  exists p q, (cp, rp, o, b) = (Some p, Some q, false, true).
Proof.
  unfold simplexTableau. destruct (rows T); [ discriminate | ].
  destruct (negb _); [ intro H; inversion H; auto | ].
  destruct (argmin _) as [ q | e | ]; cbn [bind]; try discriminate.
  destruct (_ =? inf); intro H; inversion H; eauto.
Qed.

Lemma simplexTableau_optimal (T : array2) :
  simplexTableau T = Return (None, None, true, true) ->
  any (negativeReducedCost T) = false.
Proof.
  unfold simplexTableau. destruct (rows T); [ discriminate | ].
  destruct (any (negativeReducedCost T)); [ | reflexivity ].
  cbn [negb]. destruct (argmin _) as [ q | e | ]; cbn [bind];
    try discriminate.
  destruct (_ =? inf); discriminate.
Qed.

Lemma simplexTableau_unbounded (T : array2) :
  simplexTableau T = Return (None, None, false, false) ->
  any (negativeReducedCost T) = true.
Proof.
  unfold simplexTableau. destruct (rows T); [ discriminate | ].
  destruct (any (negativeReducedCost T)); [ reflexivity | ].
  cbn [negb]. discriminate.
Qed.

Lemma simplexTableau_raise (T : array2) (e : error) :
  simplexTableau T = Raise e ->
  (e = IndexError /\ nrows T = 0%nat) \/ (e = ValueError /\ nrows T = 1%nat).
Proof.
  unfold simplexTableau. destruct (rows T) as [ | r rs ] eqn:R.
  - intro H. inversion H. left. unfold nrows. now rewrite R.
  - destruct (negb _); [ discriminate | ].
    destruct (argmin _) as [ q | e' | ] eqn:E; cbn [bind]; try discriminate.
    + destruct (_ =? inf); discriminate.
    + intro H. inversion H; subst. right.
      unfold argmin in E.
      destruct (steps T (entering T)) as [ | [ | | | ] l ] eqn:S;
        try discriminate.
      inversion E. split; [ reflexivity | ].
      apply (f_equal (@length _)) in S. rewrite length_steps in S.
      unfold nrows in *. rewrite R in *. cbn [length] in *. lia.
Qed.

(** The reduced costs of a tableau, entry by entry. *)
Lemma no_negative_reduced_cost (T : array2) :
  wf_array2 T -> rows T <> [] ->
  any (negativeReducedCost T) = false ->
  forall j, (j < ncols T - 1)%nat -> (get T (nrows T - 1) j <? zero) = false.
Proof.
  intros W NE H j Hj. unfold any in H.
  assert (A : forall x, In x (negativeReducedCost T) -> x = false).
  { intros x Hx. destruct x; [ | reflexivity ].
    assert (E : existsb (fun x => x) (negativeReducedCost T) = true)
      by (apply existsb_exists; exists true; auto).
    congruence. }
  unfold negativeReducedCost, reducedCost in A.
  assert (L : length (removelast (last (rows T) [])) = (ncols T - 1)%nat)
    by now rewrite length_removelast, length_last_row.
  specialize (A (nth j (map (fun x => x <? zero)
                            (removelast (last (rows T) []))) false)).
  rewrite (nth_indep _ false ((fun x => x <? zero) NaN)) in A
    by (rewrite length_map, L; exact Hj).
  rewrite (map_nth (fun x => x <? zero)) in A.
  rewrite nth_removelast in A by (rewrite length_last_row; trivial).
  rewrite last_nth_pred in A. apply A.
  rewrite <- last_nth_pred.
  rewrite <- (nth_removelast _ _ NaN) by (rewrite length_last_row; trivial).
  apply (in_map (fun x => x <? zero)), nth_In. now rewrite L.
Qed.

Lemma iteration_shape_flags (fuel : nat) (T T' : array2)
    (optimal unbounded : bool) :
  wf_array2 T ->
  simplexAlgorithmTableau fuel T = Return (T', optimal, unbounded) ->
  wf_array2 T' /\ nrows T' = nrows T /\ ncols T' = ncols T /\
  (1 <= nrows T')%nat /\
  unbounded = negb optimal /\
  any (negativeReducedCost T') = negb optimal /\
  (optimal = true ->
   forall j, (j < ncols T' - 1)%nat ->
             (get T' (nrows T' - 1) j <? zero) = false).
Proof.
  revert T. induction fuel as [ | fuel IH ]; intros T W H;
    cbn [simplexAlgorithmTableau] in H; [ discriminate | ].
  destruct (simplexTableau T) as [ [[[cp rp] o] b] | e | ] eqn:E;
    cbn [bind] in H; try discriminate.
  assert (NE : rows T <> []).
  { intro R. unfold simplexTableau in E. rewrite R in E. discriminate. }
  assert (N1 : (1 <= nrows T)%nat).
  { unfold nrows. destruct (rows T); [ contradiction | cbn; lia ]. }
  destruct (simplexTableau_forms T cp rp o b E) as [ F | [ F | (p & q & F) ] ];
    inversion F; subst; cbn [negb] in H.
  - inversion H; subst. apply simplexTableau_optimal in E.
    repeat split; try assumption; try reflexivity.
    intros _. now apply no_negative_reduced_cost.
  - inversion H; subst. apply simplexTableau_unbounded in E.
    repeat split; try assumption; try reflexivity. discriminate.
  - destruct (pivoting T p q) as [ T1 | e | ] eqn:P; cbn [bind] in H;
      try discriminate.
    destruct (pivoting_shape T T1 p q W P) as (W1 & R1 & C1 & _).
    destruct (IH T1 W1 H) as (W' & R' & C' & rest).
    repeat split; try tauto; congruence.
Qed.

(** X2.  When [simplexAlgorithmTableau] returns on a rectangular tableau,
    the tableau it returns is rectangular and of the same shape, exactly
    one of the flags [optimal] and [unbounded] is set, and when [optimal]
    is set no reduced cost of the returned tableau is negative, while
    when [unbounded] is set the entering column has a negative reduced
    cost. *)
Theorem iteration_returns (fuel : nat) (T T' : array2)
    (optimal unbounded : bool) :
  wf_array2 T ->
  simplexAlgorithmTableau fuel T = Return (T', optimal, unbounded) ->
  wf_array2 T' /\ nrows T' = nrows T /\ ncols T' = ncols T /\
  ((optimal = true /\ unbounded = false /\
    forall j, (j < ncols T' - 1)%nat ->
              (get T' (nrows T' - 1) j <? zero) = false) \/
   (optimal = false /\ unbounded = true /\
    (entering T' < ncols T' - 1)%nat /\
    (get T' (nrows T' - 1) (entering T') <? zero) = true)).
Proof.
  intros W H.
  destruct (iteration_shape_flags fuel T T' optimal unbounded W H)
    as (W' & R & C & N1 & U & A & Cert).
  repeat (split; [ assumption | ]).
  destruct optimal; cbn [negb] in *; subst unbounded.
  - left. repeat split. now apply Cert.
  - right. repeat split; apply entering_negative; trivial;
      intro E; unfold nrows in N1; rewrite E in N1; cbn in N1; lia.
Qed.

Lemma two_negative_costs_solved :
  exists T',
    simplexAlgorithmTableau 10 two_negative_costs = Return (T', true, false).
Proof.
  destruct (simplexAlgorithmTableau 10 two_negative_costs)
    as [ [[T' o] u] | e | ] eqn:E; try (vm_compute in E; discriminate).
  assert (H : match simplexAlgorithmTableau 10 two_negative_costs with
              | Return (_, o, u) => o && negb u
              | _ => false
              end = true) by (vm_compute; reflexivity).
  rewrite E in H. destruct o, u; try discriminate. now exists T'.
Qed.

Lemma iteration_returns_witness :
  exists T',
    simplexAlgorithmTableau 10 two_negative_costs = Return (T', true, false) /\
    (get T' 1 0 <? zero) = false /\ (get T' 1 1 <? zero) = false.
Proof.
  destruct two_negative_costs_solved as (T' & E).
  destruct (iteration_returns 10 two_negative_costs T' true false
              two_negative_costs_wf E)
    as (_ & R & C & [ (_ & _ & Cert) | (D & _) ]); [ | discriminate ].
  exists T'. split; [ exact E | ].
  assert (R2 : nrows T' = 2%nat) by (rewrite R; reflexivity).
  assert (C3 : ncols T' = 3%nat) by (rewrite C; reflexivity).
  rewrite R2, C3 in Cert. split; apply Cert; cbn; lia.
Defined.

Lemma iteration_raise_cases (fuel : nat) (T : array2) (e : error) :
  wf_array2 T ->
  simplexAlgorithmTableau fuel T = Raise e ->
  (e = PivotTooCloseToZero /\ (2 <= nrows T)%nat) \/
  (e = ValueError /\ nrows T = 1%nat) \/
  (e = IndexError /\ nrows T = 0%nat).
Proof.
  revert T. induction fuel as [ | fuel IH ]; intros T W H;
    cbn [simplexAlgorithmTableau] in H; [ discriminate | ].
  destruct (simplexTableau T) as [ [[[cp rp] o] b] | e' | ] eqn:E;
    cbn [bind] in H; try discriminate.
  2: { inversion H; subst.
       destruct (simplexTableau_raise T e E) as [ [-> N] | [-> N] ]; auto. }
  destruct (simplexTableau_forms T cp rp o b E) as [ F | [ F | (p & q & F) ] ];
    inversion F; subst; cbn [negb] in H; try discriminate.
  destruct (simplexTableau_pivot T p q false true W E)
    as (_ & _ & _ & Hp & Hq & _).
  destruct (pivoting T p q) as [ T1 | e1 | ] eqn:P; cbn [bind] in H;
    try discriminate.
  - destruct (pivoting_shape T T1 p q W P) as (W1 & R1 & _).
    rewrite <- R1. now apply IH.
  - inversion H; subst. left. split; [ | lia ].
    unfold pivoting in P.
    destruct (Nat.leb_spec (nrows T) q); [ lia | ].
    destruct (Nat.leb_spec (ncols T) p); [ lia | ].
    destruct (abs (get T q p) <? eps); now inversion P.
Qed.

(** The [ValueError] of [np.argmin] is raised exactly on a tableau with
    no constraint row and a negative reduced cost, and the [IndexError]
    exactly on a tableau with no row at all; both are raised in the first
    pass through the loop. *)
Lemma iteration_value_error (fuel : nat) (T : array2) :
  wf_array2 T ->
  (simplexAlgorithmTableau (S fuel) T = Raise ValueError <->
   nrows T = 1%nat /\ any (negativeReducedCost T) = true).
Proof.
  intro W. split.
  - intro H.
    destruct (iteration_raise_cases (S fuel) T ValueError W H)
      as [ [E _] | [ [_ N] | [E _] ] ]; try discriminate.
    split; [ exact N | ].
    destruct (any (negativeReducedCost T)) eqn:A; [ reflexivity | ].
    exfalso. cbn [simplexAlgorithmTableau] in H. unfold simplexTableau in H.
    unfold nrows in N. destruct (rows T); [ discriminate | ].
    rewrite A in H. cbn in H. discriminate.
  - intros [N A]. cbn [simplexAlgorithmTableau]. unfold simplexTableau.
    unfold nrows in N.
    destruct (rows T) as [ | r [ | r' l ] ] eqn:R; try discriminate.
    rewrite A. cbn [negb]. unfold steps. rewrite R. reflexivity.
Qed.

Lemma iteration_index_error (fuel : nat) (T : array2) :
  wf_array2 T ->
  (simplexAlgorithmTableau (S fuel) T = Raise IndexError <->
   nrows T = 0%nat).
Proof.
  intro W. split.
  - intro H.
    destruct (iteration_raise_cases (S fuel) T IndexError W H)
      as [ [E _] | [ [E _] | [_ N] ] ]; try discriminate. exact N.
  - intro N. cbn [simplexAlgorithmTableau]. unfold simplexTableau.
    unfold nrows in N. destruct (rows T); [ reflexivity | discriminate ].
Qed.

(** X3.  On a rectangular tableau [simplexAlgorithmTableau] never fails on
    the range checks of [pivoting].  With at least one constraint row its
    only exception is the one for a pivot too close to zero.  The
    [ValueError] of [np.argmin] is raised exactly when the tableau has no
    constraint row but a negative reduced cost, and an [IndexError]
    exactly when it has no row at all. *)
Theorem iteration_raises (fuel : nat) (T : array2) (e : error) :
  wf_array2 T ->
  (simplexAlgorithmTableau fuel T = Raise e ->
   (e = PivotTooCloseToZero /\ (2 <= nrows T)%nat) \/
   (e = ValueError /\ nrows T = 1%nat /\
    any (negativeReducedCost T) = true) \/
   (e = IndexError /\ nrows T = 0%nat)) /\
  (simplexAlgorithmTableau (S fuel) T = Raise ValueError <->
   nrows T = 1%nat /\ any (negativeReducedCost T) = true) /\
  (simplexAlgorithmTableau (S fuel) T = Raise IndexError <->
   nrows T = 0%nat).
Proof.
  intro W. split; [ | split ].
  - intro H.
    destruct (iteration_raise_cases fuel T e W H)
      as [ C | [ [-> N] | C ] ]; [ now left | | now right; right ].
    right; left. split; [ reflexivity | ].
    destruct fuel as [ | fuel' ]; [ discriminate | ].
    now apply (iteration_value_error fuel' T W).
  - now apply iteration_value_error.
  - now apply iteration_index_error.
Qed.

Lemma no_constraint_row_wf : wf_array2 no_constraint_row.
Proof. unfold wf_array2. repeat constructor. Qed.

Lemma iteration_raises_witness :
  simplexAlgorithmTableau 5 no_constraint_row = Raise ValueError /\
  nrows no_constraint_row = 1%nat /\
  any (negativeReducedCost no_constraint_row) = true.
Proof.
  destruct (iteration_raises 4 no_constraint_row ValueError
              no_constraint_row_wf) as (_ & V & _).
  split; [ apply V; split; reflexivity | split; reflexivity ].
Defined.

(** The test [==] on numbers. *)
Lemma eqb_eq (a b : num) : (a =? b) = true -> a = b.
Proof.
  destruct a, b; cbn; try discriminate; try reflexivity.
  intro H. apply Qc_eqb_eq in H. now subst.
Qed.

(** ** The row of a basic variable *)

Lemma getRow_loop_found (column : array1) (j0 r j : nat) :
  getRow_loop column j0 (Some r) = Some j <->
  j = r /\ forall i, (i < length column)%nat ->
                     counts_nonzero (get1 column i) = false.
Proof.
  revert j0. induction column as [ | x column IH ]; intro j0;
    cbn [getRow_loop length].
  - split; [ intro H; inversion H; split; [ reflexivity | intros; lia ]
           | intros [-> _]; reflexivity ].
  - fold (counts_nonzero x). destruct (counts_nonzero x) eqn:Z.
    + split; [ discriminate | ].
      intros [_ H]. specialize (H 0%nat ltac:(lia)).
      change (counts_nonzero x = false) in H. congruence.
    + rewrite IH. split; intros [-> H]; split; try reflexivity.
      * intros [ | i ] Hi; [ exact Z | apply H; lia ].
      * intros i Hi. apply (H (S i)). lia.
Qed.

Lemma getRow_loop_search (column : array1) (j0 j : nat) :
  getRow_loop column j0 None = Some j <->
  exists k, j = (j0 + k)%nat /\ (k < length column)%nat /\
            counts_nonzero (get1 column k) = true /\
            counts_one (get1 column k) = true /\
            forall i, (i < length column)%nat -> i <> k ->
                      counts_nonzero (get1 column i) = false.
Proof.
  revert j0. induction column as [ | x column IH ]; intro j0;
    cbn [getRow_loop length].
  - split; [ discriminate | intros (k & _ & H & _); lia ].
  - fold (counts_nonzero x) (counts_one x).
    destruct (counts_nonzero x) eqn:Z.
    + destruct (counts_one x) eqn:O.
      * rewrite getRow_loop_found. split.
        -- intros [-> H]. exists 0%nat. repeat split; try assumption; try lia.
           intros [ | i ] Hi Hne; [ lia | apply H; lia ].
        -- intros (k & -> & Hk & Zk & Ok & H).
           destruct k as [ | k ].
           ++ split; [ lia | ]. intros i Hi. apply (H (S i)); lia.
           ++ specialize (H 0%nat ltac:(lia) ltac:(lia)).
              change (counts_nonzero x = false) in H. congruence.
      * split; [ discriminate | ].
        intros (k & -> & Hk & Zk & Ok & H). destruct k as [ | k ].
        -- change (counts_one x = true) in Ok. congruence.
        -- specialize (H 0%nat ltac:(lia) ltac:(lia)).
           change (counts_nonzero x = false) in H. congruence.
    + rewrite IH. split.
      * intros (k & -> & Hk & Zk & Ok & H). exists (S k).
        repeat split; try assumption; try lia.
        intros [ | i ] Hi Hne; [ exact Z | apply H; lia ].
      * intros (k & -> & Hk & Zk & Ok & H). destruct k as [ | k ].
        -- change (counts_nonzero x = true) in Zk. congruence.
        -- exists k. repeat split; try assumption; try lia.
           intros i Hi Hne. apply (H (S i)); lia.
Qed.

Lemma get1_column (T : array2) (index i : nat) :
  (i < nrows T)%nat -> get1 (column T index) i = get T i index.
Proof.
  intro H. unfold column, get1 at 1.
  rewrite (nth_indep _ NaN ((fun r => get1 r index) []))
    by (rewrite length_map; exact H).
  now rewrite (map_nth (fun r => get1 r index)).
Qed.

Lemma getRow_found (T : array2) (index j : nat) :
  (index < ncols T - 1)%nat ->
  (getRow T index = Return (Some j) <->
   (j < nrows T)%nat /\
   counts_nonzero (get T j index) = true /\
   counts_one (get T j index) = true /\
   forall i, (i < nrows T)%nat -> i <> j ->
             counts_nonzero (get T i index) = false).
Proof.
  intro Hi. unfold getRow.
  destruct (Nat.ltb_spec index (ncols T - 1)); [ | lia ]. cbn [negb].
  assert (L : length (column T index) = nrows T)
    by (unfold column; now rewrite length_map).
  split.
  - intro Ret. inversion Ret as [E]. apply getRow_loop_search in E.
    destruct E as (k & -> & Hk & Z & O & Oth). cbn [Nat.add].
    rewrite L in Hk, Oth. rewrite get1_column in Z, O by exact Hk.
    repeat split; try assumption.
    intros i Hi' Hne. rewrite <- get1_column by exact Hi'. now apply Oth.
  - intros (Hj & Z & O & Oth). f_equal. apply getRow_loop_search.
    exists j. rewrite L. rewrite get1_column by exact Hj.
    repeat split; try assumption.
    intros i Hi' Hne. rewrite get1_column by exact Hi'. now apply Oth.
Qed.

(** X6.  For a variable index in range, [getRow] returns row [j] exactly
    when the entry of the column in row [j] is above sqrt(eps) in absolute
    value and within eps of 1, and every other entry of the column, the
    one in the last row included, is at most sqrt(eps) in absolute value;
    in every other case it returns [None], and it raises only for an index
    out of range. *)
Theorem getRow_characterised (T : array2) (index : nat) :
  (index < ncols T - 1)%nat ->
  (forall j,
     getRow T index = Return (Some j) <->
     (j < nrows T)%nat /\
     (abs (get T j index) >? sqrt_eps) = true /\
     (abs (get T j index - one) <=? eps) = true /\
     forall i, (i < nrows T)%nat -> i <> j ->
               (abs (get T i index) >? sqrt_eps) = false) /\
  (exists r, getRow T index = Return r).
Proof.
  intro Hi. split.
  - intro j. exact (getRow_found T index j Hi).
  - unfold getRow. destruct (Nat.ltb_spec index (ncols T - 1)); [ | lia ].
    cbn [negb]. eexists. reflexivity.
Qed.

Lemma getRow_characterised_witness :
  getRow pivoting_example1 0 = Return (Some 1%nat).
Proof.
  destruct (getRow_characterised pivoting_example1 0) as (H & _).
  - vm_compute; lia.
  - apply H. split; [ vm_compute; lia | ].
    split; [ vm_compute; reflexivity | ].
    split; [ vm_compute; reflexivity | ].
    intros [ | [ | [ | [ | i ] ] ] ] Hi Hne;
      try (vm_compute; reflexivity); try lia.
    vm_compute in Hi. lia.
Defined.

(** X7.  After [pivoting] on a float64 tableau at a position [(p, q)]
    whose column is not the right-hand side and whose pivot is finite,
    [getRow] finds the variable [p] basic in row [q] exactly when rounding
    has left no entry above sqrt(eps) in absolute value in the other rows
    of column [p]; otherwise it finds it not basic at all.  It never finds
    it basic in another row. *)
Theorem pivot_column_becomes_basic (T T' : array2) (p q : nat) :
  wf_array2 T -> (p < ncols T - 1)%nat ->
  is_finite (get T q p) = true ->
  Binary64.pivoting T p q = Return T' ->
  (getRow T' p = Return (Some q) <->
   forall i, (i < nrows T)%nat -> i <> q ->
             (abs (get T' i p) >? sqrt_eps) = false) /\
  (getRow T' p = Return (Some q) \/ getRow T' p = Return None).
Proof.
  intros W Hp Fp Piv.
  destruct (binary64_pivoting_inv T T' p q Piv)
    as (Hq & Hp' & G & C & R & _ & _).
  destruct (binary64_pivoting_entries T T' p q W Piv) as (_ & _ & Eq & _).
  assert (One : get T' q p = one).
  { rewrite (Eq p Hp'). destruct (finite_inv _ Fp) as [x Ex].
    rewrite Ex in *. apply div_self_nonzero. now apply guard_nonzero. }
  assert (Hp'' : (p < ncols T' - 1)%nat) by lia.
  pose proof (getRow_found T' p) as Found.
  assert (I : getRow T' p = Return (Some q) <->
              forall i, (i < nrows T)%nat -> i <> q ->
                        (abs (get T' i p) >? sqrt_eps) = false).
  { rewrite (Found q Hp''). unfold counts_nonzero, counts_one.
    rewrite One, R. split.
    - intros (_ & _ & _ & Oth). exact Oth.
    - intro Oth. split; [ exact Hq | ].
      split; [ vm_compute; reflexivity | ].
      split; [ vm_compute; reflexivity | exact Oth ]. }
  split; [ exact I | ].
  assert (Ret : exists r, getRow T' p = Return r).
  { unfold getRow. destruct (Nat.ltb_spec p (ncols T' - 1)); [ | lia ].
    cbn [negb]. eexists. reflexivity. }
  destruct Ret as [ [ j | ] Ret ]; [ | now right ].
  left. destruct (Nat.eq_dec j q) as [ -> | Hne ]; [ exact Ret | ].
  exfalso. apply (Found j Hp'') in Ret.
  destruct Ret as (_ & _ & _ & Oth).
  specialize (Oth q ltac:(lia) ltac:(congruence)).
  unfold counts_nonzero in Oth. rewrite One in Oth. vm_compute in Oth.
  discriminate.
Qed.

Lemma pivot_column_becomes_basic_witness :
  (exists T',
     Binary64.pivoting tenths 0 0 = Return T' /\
     getRow T' 0 = Return (Some 0%nat)) /\
  (exists T',
     Binary64.pivoting tenth_and_large 0 0 = Return T' /\
     getRow T' 0 = Return None).
Proof.
  split.
  - assert (E : exists T',
               Binary64.pivoting tenths 0 0 = Return T' /\
               (abs (get T' 1 0) >? sqrt_eps) = false)
      by (eexists; split; vm_compute; reflexivity).
    destruct E as (T' & E & Small). exists T'. split; [ exact E | ].
    destruct (pivot_column_becomes_basic tenths T' 0 0) as (I & _).
    + unfold wf_array2. repeat constructor.
    + vm_compute; lia.
    + reflexivity.
    + exact E.
    + apply I. intros [ | [ | i ] ] Hi Hne; try lia; [ exact Small | ].
      vm_compute in Hi. lia.
  - assert (E : exists T',
               Binary64.pivoting tenth_and_large 0 0 = Return T' /\
               (abs (get T' 1 0) >? sqrt_eps) = true)
      by (eexists; split; vm_compute; reflexivity).
    destruct E as (T' & E & Large). exists T'. split; [ exact E | ].
    destruct (pivot_column_becomes_basic tenth_and_large T' 0 0)
      as (I & [ S | N ]).
    + unfold wf_array2. repeat constructor.
    + vm_compute; lia.
    + reflexivity.
    + exact E.
    + exfalso. rewrite (proj1 I S 1%nat) in Large;
        [ discriminate | vm_compute; lia | lia ].
    + exact N.
Defined.

(** ** Reading the solution *)

Lemma mapM_getRow (T : array2) (a len : nat) :
  (a + len <= ncols T - 1)%nat ->
  mapM (getRow T) (seq a len)
  = Return (map (fun k => getRow_loop (column T k) 0 None) (seq a len)).
Proof.
  revert a. induction len as [ | len IH ]; intros a H; cbn [seq mapM map];
    [ reflexivity | ].
  unfold getRow at 1.
  destruct (Nat.ltb_spec a (ncols T - 1)); [ | lia ]. cbn [negb bind].
  rewrite IH by lia. reflexivity.
Qed.

Lemma basicRowsOf_in_range (T : array2) (count : nat) :
  (count <= ncols T - 1)%nat ->
  exists basicRows,
    basicRowsOf T count = Return basicRows /\
    length basicRows = count /\
    forall k, (k < count)%nat ->
              getRow T k = Return (nth k basicRows None).
Proof.
  intro H. unfold basicRowsOf. rewrite mapM_getRow by lia.
  eexists. split; [ reflexivity | ]. split.
  - now rewrite length_map, length_seq.
  - intros k Hk. rewrite nth_map_seq by exact Hk.
    unfold getRow. destruct (Nat.ltb_spec k (ncols T - 1)); [ | lia ].
    reflexivity.
Qed.

Lemma solution_entries (T : array2) :
  exists s,
    solution T = Return s /\ length s = (ncols T - 1)%nat /\
    forall k, (k < ncols T - 1)%nat ->
      (forall r, getRow T k = Return (Some r) ->
                 get1 s k = last (row T r) NaN) /\
      (getRow T k = Return None -> get1 s k = zero).
Proof.
  unfold solution.
  destruct (basicRowsOf_in_range T (ncols T - 1) (le_n _))
    as (br & -> & L & G).
  cbn [bind].
  set (f := fun o : option nat => match o with
                                  | Some r => last (row T r) NaN
                                  | None => zero
                                  end).
  exists (map f br). split; [ reflexivity | ].
  split; [ now rewrite length_map | ].
  intros k Hk.
  assert (E : get1 (map f br) k = f (nth k br None)).
  { unfold get1.
    rewrite (nth_indep (map f br) NaN (f None))
      by (rewrite length_map, L; exact Hk).
    apply map_nth. }
  rewrite E. specialize (G k Hk). split.
  - intros r Hr. rewrite Hr in G. inversion G as [G']. reflexivity.
  - intro Hn. rewrite Hn in G. inversion G as [G']. reflexivity.
Qed.

Lemma neg_neg (a : num) : - - a = a.
Proof.
  destruct a; cbn [neg]; try reflexivity. f_equal. ring.
Qed.

(** X8.  [getRow] scans the last row as well: a variable whose column is
    zero (up to sqrt(eps)) on every constraint row and whose reduced cost
    is 1 (up to eps) is reported basic in the last row, and the value
    that [printResults] then gives it in the solution is the corner entry
    [finalTableau[-1, -1]], the opposite of the optimal value it prints. *)
Theorem variable_basic_in_objective_row (T : array2) (k : nat) :
  (1 <= nrows T)%nat -> (k < ncols T - 1)%nat ->
  (abs (get T (nrows T - 1) k) >? sqrt_eps) = true ->
  (abs (get T (nrows T - 1) k - one) <=? eps) = true ->
  (forall i, (i < nrows T - 1)%nat ->
             (abs (get T i k) >? sqrt_eps) = false) ->
  getRow T k = Return (Some (nrows T - 1)%nat) /\
  exists s, solution T = Return s /\ get1 s k = - copt T.
Proof.
  intros N1 Hk Z O Oth.
  assert (G : getRow T k = Return (Some (nrows T - 1)%nat)).
  { apply getRow_found; [ exact Hk | ].
    split; [ lia | ]. split; [ exact Z | ]. split; [ exact O | ].
    intros i Hi Hne. apply Oth. lia. }
  split; [ exact G | ].
  destruct (solution_entries T) as (s & E & _ & Ent).
  exists s. split; [ exact E | ].
  destruct (Ent k Hk) as (Some_ & _). rewrite (Some_ _ G).
  unfold copt. rewrite neg_neg. unfold row.
  now rewrite (last_nth_pred (rows T)).
Qed.

(** On min x1 + x2 subject to x1 = 1, whose solution is (1, 0) with value
    1, [simplex] returns the tableau [free_variable_tableau], from which
    [printResults] reads the solution (1, -1). *)
Lemma free_variable_misread (set_pop : list nat -> nat)
    (set_list : list nat -> list nat) :
  snd (simplex set_pop set_list 10 free_variable_problem)
  = Return (free_variable_tableau, false, false) /\
  solution free_variable_tableau = Return [one; of_Z (-1)] /\
  copt free_variable_tableau = one.
Proof.
  split; [ | split; vm_compute; reflexivity ].
  run_phase_one.
  erewrite cleanBasis_done by (vm_compute; reflexivity). cbn [bind fst].
  vm_compute. reflexivity.
Qed.

Lemma variable_basic_in_objective_row_witness :
  snd (simplex pop_least list_increasing 10 free_variable_problem)
  = Return (free_variable_tableau, false, false) /\
  getRow free_variable_tableau 1 = Return (Some 1%nat) /\
  exists s, solution free_variable_tableau = Return s /\
            get1 s 1 = - copt free_variable_tableau.
Proof.
  split; [ apply free_variable_misread | ].
  apply (variable_basic_in_objective_row free_variable_tableau 1).
  - vm_compute; lia.
  - vm_compute; lia.
  - vm_compute; reflexivity.
  - vm_compute; reflexivity.
  - intros i Hi. assert (i = 0%nat) as -> by (vm_compute in Hi; lia).
    vm_compute. reflexivity.
Defined.

(** ** The sign normalisation of [simplex] *)

Lemma neg_negative (a : num) : (a <? zero) = true -> (- a <? zero) = false.
Proof.
  destruct a as [ x | | | ]; cbn; try discriminate; try reflexivity.
  intro H. apply Qc_ltb_lt in H.
  destruct (Qc_ltb (- x) (Q2Qc 0)) eqn:E; [ | reflexivity ].
  apply Qc_ltb_lt in E. exfalso.
  apply Qclt_minus_iff in H.
  replace (Q2Qc 0 + - x)%Qc with (- x)%Qc in H by ring.
  apply (Qclt_not_le _ _ H). apply Qclt_le_weak. exact E.
Qed.

Lemma of_Z_negative (z : Z) : (of_Z z <? zero) = true <-> (z < 0)%Z.
Proof.
  unfold of_Z, zero, ltb. rewrite Qc_ltb_lt. unfold Qclt.
  rewrite !Q2Qc_eq. change 0%Q with (inject_Z 0). now rewrite <- Zlt_Qlt.
Qed.

Lemma Qfloor_of_Z (z : Z) : Qfloor (Q2Qc (inject_Z z)) = z.
Proof. rewrite (Qfloor_comp _ _ (Q2Qc_eq (inject_Z z))). apply Qfloor_Z. Qed.

Lemma of_Z_inj (y z : Z) : of_Z y = of_Z z -> y = z.
Proof.
  intro E. apply (f_equal (fun a => match a with
                                    | Fin x => Qfloor x
                                    | _ => 0%Z
                                    end)) in E.
  unfold of_Z in E. now rewrite !Qfloor_of_Z in E.
Qed.

(** The opposite of a negative entry is not negative on float64; on int64
    it is negative exactly when the entry is -2^63. *)
Lemma negative_negative (d : dtype) (a : num) :
  (d = int64 -> int64_entry a) ->
  (a <? zero) = true ->
  ((negative d a <? zero) = true <-> d = int64 /\ a = of_Z (- 2 ^ 63)).
Proof.
  intros I N. destruct d.
  - cbn [negative]. rewrite (neg_negative a N). split; [ discriminate | ].
    intros [D _]. discriminate.
  - destruct (I eq_refl) as (z & -> & R).
    apply of_Z_negative in N. cbn [negative of_Z]. rewrite Qfloor_of_Z.
    fold (of_Z (Binary64.wrap_int64 (- z))) (of_Z z).
    rewrite of_Z_negative. split.
    + intro E. split; [ reflexivity | ]. f_equal.
      unfold Binary64.wrap_int64 in E.
      destruct (Z.eq_dec z (- 2 ^ 63)) as [ L | L ]; [ exact L | ].
      rewrite Z.mod_small in E by lia. lia.
    + intros [_ E]. apply of_Z_inj in E. subst z. reflexivity.
Qed.

Lemma normalize_as_negative (dA db : dtype) (st : problem) (i : nat) :
  (db = int64 -> Forall int64_entry (pb st)) ->
  (i < length (pb st))%nat ->
  ((get1 (pb (normalize_as dA db st)) i <? zero) = true <->
   db = int64 /\ get1 (pb st) i = of_Z (- 2 ^ 63)).
Proof.
  intros I L.
  assert (Ii : db = int64 -> int64_entry (get1 (pb st) i)).
  { intro D. specialize (I D). rewrite Forall_forall in I.
    apply I. unfold get1. now apply nth_In. }
  destruct (normalize_as_loop dA db (negativeb (pb st)) st
              (NoDup_negativeb (pb st)))
    as (_ & _ & _ & _ & Out & In_).
  fold (normalize_as dA db st) in Out, In_.
  destruct (get1 (pb st) i <? zero) eqn:N.
  - destruct (In_ i) as (_ & B); [ now apply In_negativeb | ].
    rewrite (B L). now apply negative_negative.
  - destruct (Out i) as (_ & ->).
    { rewrite In_negativeb. intros [_ H]. congruence. }
    rewrite N. split; [ discriminate | ].
    intros [_ E]. rewrite E in N. vm_compute in N. discriminate.
Qed.

Lemma normalize_as_nonnegative (dA db : dtype) (st : problem) :
  (db = int64 -> Forall int64_entry (pb st)) ->
  db = float64 \/ (forall i, get1 (pb st) i <> of_Z (- 2 ^ 63)) ->
  forall i, (get1 (pb (normalize_as dA db st)) i <? zero) = false.
Proof.
  intros I C i.
  destruct (Nat.lt_ge_cases i (length (pb st))) as [ L | L ].
  - destruct (get1 (pb (normalize_as dA db st)) i <? zero) eqn:N;
      [ | reflexivity ].
    apply (normalize_as_negative dA db st i I L) in N.
    destruct N as [D E]. destruct C as [ C | C ];
      [ congruence | now elim (C i) ].
  - destruct (normalize_as_loop dA db (negativeb (pb st)) st
                (NoDup_negativeb (pb st))) as (_ & _ & _ & Len & _).
    fold (normalize_as dA db st) in Len.
    unfold get1. rewrite nth_overflow by lia. reflexivity.
Qed.

Lemma simplex_as_arrays (set_pop : list nat -> nat)
    (set_list : list nat -> list nat) (dA db : dtype) (fuel : nat)
    (st : problem) :
  length (pb st) = nrows (pA st) -> length (pc st) = ncols (pA st) ->
  fst (simplex_as set_pop set_list dA db fuel st) = normalize_as dA db st.
Proof.
  intros Hb Hc. unfold simplex_as.
  rewrite Hb, Hc, !Nat.eqb_refl. reflexivity.
Qed.

(** X9.  After a call of [simplex] on arrays of compatible sizes, an entry
    of the caller's [b] is negative exactly when [b] is an int64 array and
    the entry was -2^63, which is its own opposite modulo 2^64.  So when
    [b] is a float64 array, or an int64 array that does not hold -2^63, no
    entry of [b] is negative after the call, and calling [simplex] again
    on the arrays as the first call left them changes them no more. *)
Theorem simplex_normalises_b (set_pop : list nat -> nat)
    (set_list : list nat -> list nat) (dA db : dtype) (fuel : nat)
    (st : problem) :
  length (pb st) = nrows (pA st) -> length (pc st) = ncols (pA st) ->
  (db = int64 -> Forall int64_entry (pb st)) ->
  let st' := fst (simplex_as set_pop set_list dA db fuel st) in
  (forall i, (i < length (pb st))%nat ->
     ((get1 (pb st') i <? zero) = true <->
      db = int64 /\ get1 (pb st) i = of_Z (- 2 ^ 63))) /\
  (db = float64 \/ (forall i, get1 (pb st) i <> of_Z (- 2 ^ 63)) ->
   (forall i, (get1 (pb st') i <? zero) = false) /\
   (forall fuel', fst (simplex_as set_pop set_list dA db fuel' st') = st')).
Proof.
  intros Hb Hc I st'. subst st'.
  rewrite (simplex_as_arrays set_pop set_list dA db fuel st Hb Hc).
  split; [ intros i L; now apply normalize_as_negative | ].
  intro C.
  pose proof (normalize_as_nonnegative dA db st I C) as N.
  split; [ exact N | ].
  intro fuel'. unfold simplex_as.
  destruct (negb (length (pb (normalize_as dA db st))
                  =? nrows (pA (normalize_as dA db st)))%nat);
    [ reflexivity | ].
  destruct (negb (length (pc (normalize_as dA db st))
                  =? ncols (pA (normalize_as dA db st)))%nat);
    [ reflexivity | ].
  cbn [fst]. unfold normalize_as at 1.
  rewrite (negativeb_nil (pb (normalize_as dA db st))); [ reflexivity | ].
  intros i _. apply N.
Qed.

Lemma least_int64_entries : Forall int64_entry (pb least_int64_problem).
Proof.
  constructor; [ | constructor ].
  exists (- 2 ^ 63)%Z. split; [ reflexivity | lia ].
Qed.

Lemma simplex_normalises_b_witness :
  (let st' := fst (simplex pop_least list_increasing 10 example3) in
   (forall i, (get1 (pb st') i <? zero) = false) /\
   (forall fuel', fst (simplex pop_least list_increasing fuel' st') = st')) /\
  (get1 (pb (fst (simplex_as pop_least list_increasing int64 int64 10
                             least_int64_problem))) 0 <? zero) = true.
Proof.
  split.
  - destruct (simplex_normalises_b pop_least list_increasing float64 float64
                10 example3) as (_ & B);
      [ reflexivity | reflexivity | discriminate | ].
    apply B. now left.
  - destruct (simplex_normalises_b pop_least list_increasing int64 int64
                10 least_int64_problem) as (A & _);
      [ reflexivity | reflexivity | intros _; exact least_int64_entries | ].
    apply (A 0%nat); [ vm_compute; lia | ]. split; reflexivity.
Defined.

(** ** The first tableau of the auxiliary problem *)

Lemma length_eye_row (m i : nat) : length (eye_row m i) = m.
Proof. unfold eye_row. now rewrite length_map, length_seq. Qed.


Lemma firstTableau_ncols (A : array2) (b : array1) :
  ncols (firstTableau A b) = (ncols A + nrows A + 1)%nat.
Proof. reflexivity. Qed.

Lemma firstTableau_nrows (A : array2) (b : array1) :
  nrows (firstTableau A b) = (nrows A + 1)%nat.
Proof.
  unfold nrows, firstTableau. cbn [rows].
  now rewrite length_app, length_map, length_seq.
Qed.



Lemma firstTableau_wf (A : array2) (b : array1) :
  wf_array2 A -> wf_array2 (firstTableau A b).
Proof.
  intro W. unfold wf_array2, firstTableau. cbn [rows ncols].
  apply Forall_app. split.
  - apply Forall_forall. intros r I. apply in_map_iff in I.
    destruct I as (i & <- & I). apply in_seq in I.
    rewrite !length_app, length_eye_row. cbn [length].
    rewrite (wf_row_length A i W) by lia. lia.
  - constructor; [ | constructor ].
    rewrite !length_app, length_map, length_seq, repeat_length.
    cbn [length]. lia.
Qed.











(** ** The shape of the normalised arrays *)

Lemma normalize_shape (st : problem) :
  wf_array2 (pA st) -> length (pb st) = nrows (pA st) ->
  wf_array2 (pA (normalize st)) /\
  length (pb (normalize st)) = nrows (pA (normalize st)) /\
  nrows (pA (normalize st)) = nrows (pA st) /\
  ncols (pA (normalize st)) = ncols (pA st) /\
  pc (normalize st) = pc st.
Proof.
  intros W L.
  destruct (normalize_as_loop float64 float64 (negativeb (pb st)) st
              (NoDup_negativeb (pb st)))
    as (C & NC & NR & LB & Out & In_).
  change (fold_left _ (negativeb (pb st)) st) with (normalize st) in *.
  split; [ | repeat split; congruence ].
  apply Forall_rows. intros i Hi. rewrite NC. rewrite NR in Hi.
  destruct (in_dec Nat.eq_dec i (negativeb (pb st))) as [ I | I ].
  - destruct (In_ i I) as (R & _). rewrite (R Hi).
    unfold vneg. rewrite length_map. now apply wf_row_length.
  - destruct (Out i I) as (-> & _). now apply wf_row_length.
Qed.

(** ** The certificate of an unbounded problem *)











(** ** The tableau that [simplex] returns *)

Lemma drop_at_In {A : Type} (idx : list nat) (i : nat) (l : list A) (x : A) :
  In x (drop_at idx i l) -> In x l.
Proof.
  revert i. induction l as [ | y l IH ]; intros i H; [ exact H | ].
  cbn [drop_at] in H. destruct (mem i idx).
  - right. exact (IH _ H).
  - destruct H as [ H | H ]; [ now left | right; exact (IH _ H) ].
Qed.

Lemma length_drop_at {A : Type} (idx : list nat) (i : nat) (l : list A) :
  (length (drop_at idx i l) <= length l)%nat.
Proof.
  revert i. induction l as [ | y l IH ]; intro i; [ reflexivity | ].
  cbn [drop_at]. specialize (IH (S i)).
  destruct (mem i idx); cbn [length]; lia.
Qed.

Lemma delete_rows_shape (T T' : array2) (idx : list nat) :
  wf_array2 T -> delete_rows T idx = Return T' ->
  wf_array2 T' /\ ncols T' = ncols T /\ (nrows T' <= nrows T)%nat.
Proof.
  unfold delete_rows. intros W H.
  destruct (forallb (fun i => (i <? nrows T)%nat) idx); [ | discriminate ].
  inversion H; subst T'; clear H.
  split; [ | split; [ reflexivity | apply length_drop_at ] ].
  unfold wf_array2. cbn [rows ncols]. apply Forall_forall.
  intros r I. apply drop_at_In in I.
  exact (proj1 (Forall_forall _ _) W r I).
Qed.

Lemma cleanBody_shape (n m : nat) (T T' : array2)
    (basicRows basicRows' : list (option nat))
    (rowsToRemove rowsToRemove' : list nat) (a : nat) (l : list nat) :
  wf_array2 T ->
  cleanBody n m T basicRows rowsToRemove a l
  = Return (T', basicRows', rowsToRemove') ->
  wf_array2 T' /\ ncols T' = ncols T /\ (nrows T' <= nrows T)%nat.
Proof.
  unfold cleanBody. intros W H.
  destruct (nth a basicRows None) as [ r | ]; [ | discriminate ].
  destruct (any _).
  - destruct (pivoting T _ r) as [ T1 | e | ] eqn:P; cbn [bind] in H;
      try discriminate.
    inversion H; subst; clear H.
    destruct (pivoting_shape T T' _ r W P) as (W' & N & C & _).
    repeat split; [ exact W' | exact C | lia ].
  - destruct (delete_rows T (rowsToRemove ++ [r])) as [ T1 | e | ] eqn:D;
      cbn [bind] in H; try discriminate.
    destruct (basicRowsOf T1 (m + n)) as [ br | e | ]; cbn [bind] in H;
      try discriminate.
    inversion H; subst; clear H.
    exact (delete_rows_shape T T' _ W D).
Qed.

Lemma cleanBasis_shape (set_pop : list nat -> nat)
    (set_list : list nat -> list nat) (fuel n m : nat) (T T' : array2)
    (basicRows : list (option nat)) (rowsToRemove rowsToRemove' : list nat) :
  wf_array2 T ->
  cleanBasis set_pop set_list fuel n m T basicRows rowsToRemove
  = Return (T', rowsToRemove') ->
  wf_array2 T' /\ ncols T' = ncols T /\ (nrows T' <= nrows T)%nat.
Proof.
  revert T basicRows rowsToRemove.
  induction fuel as [ | fuel IH ]; intros T basicRows rowsToRemove W H;
    cbn [cleanBasis] in H; [ discriminate | ].
  destruct (tobeCleaned n m basicRows) as [ | k s ].
  - inversion H; subst. auto.
  - destruct (cleanBody n m T basicRows rowsToRemove _ _)
      as [ [[T1 br1] rr1] | e | ] eqn:B; cbn [bind] in H; try discriminate.
    destruct (cleanBody_shape n m T T1 _ _ _ _ _ _ W B) as (W1 & C1 & N1).
    destruct (IH T1 br1 rr1 W1 H) as (W' & C' & N').
    repeat split; [ exact W' | congruence | lia ].
Qed.

Lemma In_removelast {A : Type} (l : list A) (x : A) :
  In x (removelast l) -> In x l.
Proof.
  induction l as [ | y l IH ]; [ easy | ].
  destruct l as [ | z l ]; [ easy | ].
  cbn [removelast]. intros [ H | H ]; [ now left | right; now apply IH ].
Qed.

Lemma delete_columns_shape (T : array2) (n m : nat) :
  wf_array2 T -> ncols T = (n + m + 1)%nat ->
  wf_array2 (delete_columns T n (n + m)) /\
  ncols (delete_columns T n (n + m)) = (n + 1)%nat /\
  nrows (delete_columns T n (n + m)) = nrows T.
Proof.
  intros W C. unfold delete_columns, wf_array2, nrows. cbn [rows ncols].
  split; [ | split; [ lia | apply length_map ] ].
  apply Forall_forall. intros r I. apply in_map_iff in I.
  destruct I as (r0 & <- & I).
  pose proof (proj1 (Forall_forall _ _) W r0 I) as L. cbn beta in L.
  rewrite length_app, length_firstn, length_skipn. lia.
Qed.

Lemma length_phaseTwoLastRow (S : array2) (c : array1)
    (basicRows : list (option nat)) (n : nat) :
  length (phaseTwoLastRow S c basicRows n) = (n + 1)%nat.
Proof.
  unfold phaseTwoLastRow.
  now rewrite length_app, length_map, length_seq.
Qed.

Lemma set_last_row_shape (T : array2) (r : array1) :
  wf_array2 T -> length r = ncols T -> rows T <> [] ->
  wf_array2 (set_last_row T r) /\
  ncols (set_last_row T r) = ncols T /\
  nrows (set_last_row T r) = nrows T.
Proof.
  intros W L R. unfold set_last_row, wf_array2, nrows. cbn [rows ncols].
  split; [ | split; [ reflexivity | ] ].
  - apply Forall_app. split.
    + apply Forall_forall. intros x I. apply In_removelast in I.
      exact (proj1 (Forall_forall _ _) W x I).
    + now constructor.
  - rewrite length_app, length_removelast. cbn [length].
    destruct (rows T); [ congruence | cbn [length]; lia ].
Qed.

Lemma phaseTwo_shape (fuel n m : nat) (c : array1) (T T' : array2)
    (unbounded infeasible : bool) :
  wf_array2 T -> ncols T = (n + m + 1)%nat ->
  phaseTwo fuel n m c T = Return (T', unbounded, infeasible) ->
  infeasible = false /\
  wf_array2 T' /\ ncols T' = (n + 1)%nat /\ nrows T' = nrows T /\
  (1 <= nrows T')%nat /\
  any (negativeReducedCost T') = unbounded /\
  (unbounded = false ->
   forall j, (j < n)%nat -> (get T' (nrows T' - 1) j <? zero) = false).
Proof.
  intros W C H. unfold phaseTwo in H.
  destruct (delete_columns_shape T n m W C) as (Ws & Cs & Ns).
  destruct (basicRowsOf (delete_columns T n (n + m)) n) as [ br | e | ];
    cbn [bind] in H; try discriminate.
  destruct (rows (delete_columns T n (n + m))) as [ | r0 l0 ] eqn:R;
    [ discriminate | ].
  assert (R' : rows (delete_columns T n (n + m)) <> [])
    by (rewrite R; discriminate).
  destruct (set_last_row_shape (delete_columns T n (n + m))
              (phaseTwoLastRow (delete_columns T n (n + m)) c br n) Ws)
    as (W2 & C2 & N2);
    [ rewrite length_phaseTwoLastRow; lia | exact R' | ].
  destruct (simplexAlgorithmTableau fuel _) as [ [[T2 o] u] | e | ] eqn:It;
    cbn [bind] in H; try discriminate.
  inversion H; subst; clear H.
  destruct (iteration_shape_flags fuel _ T' o unbounded W2 It)
    as (W' & N' & C' & N1 & U & Neg & Opt).
  split; [ reflexivity | ]. split; [ exact W' | ].
  split; [ congruence | ]. split; [ congruence | ]. split; [ exact N1 | ].
  split; [ congruence | ].
  intros ->. destruct o; [ | discriminate ].
  intros j Hj. apply Opt; [ reflexivity | ].
  rewrite C', C2, Cs. lia.
Qed.

Lemma simplex_outcomes (set_pop : list nat -> nat)
    (set_list : list nat -> list nat) (fuel : nat) (st : problem)
    (T : array2) (unbounded infeasible : bool) :
  wf_array2 (pA st) ->
  snd (simplex set_pop set_list fuel st) = Return (T, unbounded, infeasible) ->
  let n := ncols (pA st) in
  let m := nrows (pA st) in
  let first := firstTableau (pA (normalize st)) (pb (normalize st)) in
  (exists T1 o, simplexAlgorithmTableau fuel first = Return (T1, o, true) /\
                T = first /\ unbounded = true /\ infeasible = false) \/
  (exists o, simplexAlgorithmTableau fuel first = Return (T, o, false) /\
             (last (last (rows T) []) NaN <? - sqrt_eps) = true /\
             unbounded = false /\ infeasible = true) \/
  (infeasible = false /\
   wf_array2 T /\ ncols T = (n + 1)%nat /\ (1 <= nrows T <= m + 1)%nat /\
   any (negativeReducedCost T) = unbounded /\
   (unbounded = false ->
    forall j, (j < n)%nat -> (get T (nrows T - 1) j <? zero) = false)).
Proof.
  intros W H n m first.
  destruct (simplex_return set_pop set_list fuel st _ H) as (Lb & Lc & Ph).
  destruct (normalize_shape st W Lb) as (W' & _ & NR & NC & _).
  unfold simplexPhases in Ph. fold first in Ph.
  destruct (simplexAlgorithmTableau fuel first) as [ [[T1 o] u] | e | ] eqn:It;
    cbn [bind] in Ph; try discriminate.
  destruct u.
  - left. inversion Ph; subst. now exists T1, o.
  - destruct (last (last (rows T1) []) NaN <? - sqrt_eps) eqn:Inf.
    + right. left. inversion Ph; subst. now exists o.
    + right. right.
      pose proof (firstTableau_wf _ (pb (normalize st)) W') as Wf.
      destruct (iteration_shape_flags fuel first T1 o false Wf It)
        as (W1 & N1 & C1 & _).
      unfold first in N1, C1.
      rewrite firstTableau_nrows in N1. rewrite firstTableau_ncols in C1.
      destruct (basicRowsOf T1 _) as [ br | e | ]; cbn [bind] in Ph;
        try discriminate.
      destruct (cleanBasis set_pop set_list fuel _ _ T1 br [])
        as [ [Tc rr] | e | ] eqn:Cl; cbn [bind] in Ph; try discriminate.
      destruct (cleanBasis_shape _ _ _ _ _ T1 Tc br [] rr W1 Cl)
        as (Wc & Cc & Nc).
      cbn [fst] in Ph.
      assert (CcT : ncols Tc = (ncols (pA (normalize st))
                                + nrows (pA (normalize st)) + 1)%nat) by lia.
      destruct (phaseTwo_shape fuel _ _ _ Tc T unbounded infeasible Wc
                  CcT Ph)
        as (I & WT & CT & NT & N1' & Neg & Opt).
      rewrite NC in CT, Opt. rewrite NR in N1.
      repeat split; try assumption; lia.
Qed.

(** X15.  When [simplex], called on a rectangular [A], returns with both
    flags false (the outcome that [printResults] reports as optimal), the
    tableau has n + 1 columns and between 1 and m + 1 rows, none of its
    reduced costs is negative, and [printResults] reads from it a
    solution of n entries. *)
Theorem simplex_optimal_tableau (set_pop : list nat -> nat)
    (set_list : list nat -> list nat) (fuel : nat) (st : problem)
    (T : array2) :
  wf_array2 (pA st) ->
  snd (simplex set_pop set_list fuel st) = Return (T, false, false) ->
  wf_array2 T /\ ncols T = (ncols (pA st) + 1)%nat /\
  (1 <= nrows T <= nrows (pA st) + 1)%nat /\
  (forall j, (j < ncols (pA st))%nat ->
             (get T (nrows T - 1) j <? zero) = false) /\
  exists s, solution T = Return s /\ length s = ncols (pA st).
Proof.
  intros W H.
  destruct (simplex_outcomes set_pop set_list fuel st T false false W H)
    as [ (T1 & o & _ & _ & U & _) | [ (o & _ & _ & _ & I) |
         (_ & WT & CT & NT & _ & Opt) ] ]; try discriminate.
  split; [ exact WT | ]. split; [ exact CT | ]. split; [ exact NT | ].
  split; [ exact (Opt eq_refl) | ].
  destruct (solution_entries T) as (s & E & L & _).
  exists s. split; [ exact E | ]. rewrite L, CT. lia.
Qed.

Lemma simplex_optimal_tableau_witness :
  exists s, solution free_variable_tableau = Return s /\
            length s = ncols (pA free_variable_problem).
Proof.
  apply (simplex_optimal_tableau pop_least list_increasing 10
           free_variable_problem free_variable_tableau).
  - repeat constructor.
  - apply free_variable_misread.
Defined.

(** ** The exceptions of [simplex] *)

Lemma nth_update_cases {A : Type} (l : list A) (i k : nat) (x d : A) :
  nth k (update l i x) d = x \/ nth k (update l i x) d = nth k l d.
Proof.
  revert i k. induction l as [ | y l IH ]; intros i k; [ now right | ].
  destruct i as [ | i ]; destruct k as [ | k ]; cbn [update nth]; auto.
Qed.

Lemma gtb_not_ltb (a b : num) : (a >? b) = true -> (a <? b) = false.
Proof.
  intro H. apply geb_not_ltb. unfold geb. apply ltb_leb. exact H.
Qed.

Lemma basicRowsOf_rows (T : array2) (count : nat)
    (basicRows : list (option nat)) :
  (count <= ncols T - 1)%nat ->
  basicRowsOf T count = Return basicRows ->
  length basicRows = count /\
  forall k r, nth k basicRows None = Some r -> (r < nrows T)%nat.
Proof.
  intros C H.
  destruct (basicRowsOf_in_range T count C) as (br & E & L & G).
  rewrite H in E. inversion E; subst br; clear E.
  split; [ exact L | ]. intros k r Hk.
  destruct (Nat.lt_ge_cases k count) as [ Lt | Ge ].
  - specialize (G k Lt). rewrite Hk in G.
    apply getRow_found in G; [ tauto | lia ].
  - rewrite nth_overflow in Hk by lia. discriminate.
Qed.

Lemma nth_map_in {A B : Type} (f : A -> B) (l : list A) (i : nat)
    (d : B) (d' : A) :
  (i < length l)%nat -> nth i (map f l) d = f (nth i l d').
Proof.
  intro H. rewrite (nth_indep (map f l) d (f d'))
    by (rewrite length_map; exact H).
  apply map_nth.
Qed.

Lemma pivoting_in_range (T : array2) (p q : nat) :
  (q < nrows T)%nat -> (p < ncols T)%nat ->
  (abs (get T q p) <? eps) = false ->
  exists T', pivoting T p q = Return T'.
Proof.
  intros Hq Hp G. unfold pivoting.
  destruct (Nat.leb_spec (nrows T) q); [ lia | ].
  destruct (Nat.leb_spec (ncols T) p); [ lia | ].
  rewrite G. eexists. reflexivity.
Qed.

Lemma cleanBody_steps (set_list : list nat -> list nat) (n m : nat)
    (T : array2) (basicRows : list (option nat)) (rowsToRemove : list nat)
    (a : nat) :
  valid_list set_list ->
  wf_array2 T -> ncols T = (n + m + 1)%nat ->
  length basicRows = (m + n)%nat ->
  (forall k r, nth k basicRows None = Some r -> (r < nrows T)%nat) ->
  match cleanBody n m T basicRows rowsToRemove a
                  (set_list (nonbasicSet n basicRows)) with
  | Return (T', basicRows', _) =>
      wf_array2 T' /\ ncols T' = (n + m + 1)%nat /\
      length basicRows' = (m + n)%nat /\
      forall k r, nth k basicRows' None = Some r -> (r < nrows T')%nat
  | Raise e => e = IndexError
  | OutOfFuel => False
  end.
Proof.
  intros V W C L I. unfold cleanBody.
  destruct (nth a basicRows None) as [ r | ] eqn:Ha; [ | reflexivity ].
  pose proof (I a r Ha) as Hr.
  set (nonbasic := set_list (nonbasicSet n basicRows)).
  set (nz := map (fun k => abs (get1 (row T r) k) >? eps) nonbasic).
  destruct (any nz) eqn:Any.
  - destruct (argmax_bool_first nz Any) as (Lt & Tr & _).
    unfold nz in Lt. rewrite length_map in Lt.
    set (colpivot := nth (argmax_bool nz) nonbasic 0%nat) in *.
    assert (Hc : (colpivot < n)%nat).
    { assert (In colpivot (nonbasicSet n basicRows)) as In_.
      { apply (Permutation_in _ (V (nonbasicSet n basicRows))).
        apply nth_In. exact Lt. }
      unfold nonbasicSet in In_. apply filter_In in In_.
      destruct In_ as (In_ & _). apply in_seq in In_. lia. }
    assert (G : (abs (get T r colpivot) <? eps) = false).
    { apply gtb_not_ltb. unfold nz in Tr at 2.
      rewrite (nth_map_in (fun k => abs (get1 (row T r) k) >? eps)
                          nonbasic (argmax_bool nz) false 0%nat Lt) in Tr.
      exact Tr. }
    destruct (pivoting_in_range T colpivot r Hr ltac:(lia) G) as (T' & P).
    rewrite P. cbn [bind].
    destruct (pivoting_shape T T' colpivot r W P) as (W' & N' & C' & _).
    split; [ exact W' | ]. split; [ lia | ]. split.
    + now rewrite !length_update.
    + intros k r' Hk. rewrite N'.
      destruct (nth_update_cases (update basicRows colpivot (Some r)) a k
                  None None) as [ E | E ]; rewrite E in Hk;
        [ discriminate | ].
      destruct (nth_update_cases basicRows colpivot k (Some r) None)
        as [ E' | E' ]; rewrite E' in Hk.
      * inversion Hk; subst. exact Hr.
      * exact (I k r' Hk).
  - destruct (delete_rows T (rowsToRemove ++ [r])) as [ T1 | e | ] eqn:D;
      cbn [bind].
    + destruct (delete_rows_shape T T1 _ W D) as (W1 & C1 & _).
      destruct (basicRowsOf_in_range T1 (m + n) ltac:(lia))
        as (br & E & _).
      rewrite E. cbn [bind].
      destruct (basicRowsOf_rows T1 (m + n) br ltac:(lia) E) as (L1 & I1).
      split; [ exact W1 | ]. split; [ lia | ]. split; assumption.
    + unfold delete_rows in D.
      destruct (forallb _ _); now inversion D.
    + unfold delete_rows in D.
      destruct (forallb _ _); discriminate.
Qed.

Lemma cleanBasis_raises (set_pop : list nat -> nat)
    (set_list : list nat -> list nat) (fuel n m : nat)
    (T : array2) (basicRows : list (option nat)) (rowsToRemove : list nat)
    (e : error) :
  valid_list set_list ->
  wf_array2 T -> ncols T = (n + m + 1)%nat ->
  length basicRows = (m + n)%nat ->
  (forall k r, nth k basicRows None = Some r -> (r < nrows T)%nat) ->
  cleanBasis set_pop set_list fuel n m T basicRows rowsToRemove = Raise e ->
  e = IndexError.
Proof.
  intro V. revert T basicRows rowsToRemove.
  induction fuel as [ | fuel IH ]; intros T basicRows rowsToRemove W C L I H;
    cbn [cleanBasis] in H; [ discriminate | ].
  destruct (tobeCleaned n m basicRows) as [ | k s ]; [ discriminate | ].
  pose proof (cleanBody_steps set_list n m T basicRows rowsToRemove
                (set_pop (k :: s)) V W C L I) as B.
  destruct (cleanBody n m T basicRows rowsToRemove _ _)
    as [ [[T1 br1] rr1] | e1 | ]; cbn [bind] in H.
  - destruct B as (W1 & C1 & L1 & I1). exact (IH T1 br1 rr1 W1 C1 L1 I1 H).
  - inversion H as [He]. rewrite <- He. exact B.
  - discriminate.
Qed.

Lemma phaseTwo_raises (fuel n m : nat) (c : array1) (T : array2) (e : error) :
  wf_array2 T -> ncols T = (n + m + 1)%nat ->
  phaseTwo fuel n m c T = Raise e ->
  e = PivotTooCloseToZero \/ e = ValueError \/ e = IndexError.
Proof.
  intros W C H. unfold phaseTwo in H.
  destruct (delete_columns_shape T n m W C) as (Ws & Cs & Ns).
  destruct (basicRowsOf_in_range (delete_columns T n (n + m)) n ltac:(lia))
    as (br & E & _).
  rewrite E in H. cbn [bind] in H.
  destruct (rows (delete_columns T n (n + m))) as [ | r0 l0 ] eqn:R;
    [ inversion H; auto | ].
  assert (R' : rows (delete_columns T n (n + m)) <> [])
    by (rewrite R; discriminate).
  destruct (set_last_row_shape (delete_columns T n (n + m))
              (phaseTwoLastRow (delete_columns T n (n + m)) c br n) Ws)
    as (W2 & C2 & N2);
    [ rewrite length_phaseTwoLastRow; lia | exact R' | ].
  destruct (simplexAlgorithmTableau fuel _) as [ [[T2 o] u] | e2 | ] eqn:It;
    cbn [bind] in H; try discriminate.
  inversion H; subst.
  destruct (iteration_raise_cases fuel _ e W2 It) as [ X | [ X | X ] ];
    destruct X; auto.
Qed.

Lemma simplex_raise_cases (set_pop : list nat -> nat)
    (set_list : list nat -> list nat) (fuel : nat) (st : problem)
    (e : error) :
  valid_list set_list -> wf_array2 (pA st) ->
  snd (simplex set_pop set_list fuel st) = Raise e ->
  e = IncompatibleSizes \/ e = PivotTooCloseToZero \/
  e = ValueError \/ e = IndexError.
Proof.
  intros V W H. unfold simplex in H.
  destruct (Nat.eqb_spec (length (pb st)) (nrows (pA st))) as [ Lb | _ ];
    cbn [negb snd] in H; [ | inversion H; auto ].
  destruct (negb (length (pc st) =? ncols (pA st))%nat);
    cbn [snd] in H; [ inversion H; auto | ].
  right.
  destruct (normalize_shape st W Lb) as (W' & _ & NR & NC & _).
  set (A := pA (normalize st)) in *. set (b := pb (normalize st)) in *.
  unfold simplexPhases in H.
  pose proof (firstTableau_wf A b W') as Wf.
  destruct (simplexAlgorithmTableau fuel (firstTableau A b))
    as [ [[T1 o] u] | e1 | ] eqn:It; cbn [bind] in H; try discriminate.
  2: { inversion H; subst.
       destruct (iteration_raise_cases fuel _ e Wf It) as [ X | [ X | X ] ];
         destruct X; auto. }
  destruct u; [ discriminate | ].
  destruct (last (last (rows T1) []) NaN <? - sqrt_eps); [ discriminate | ].
  destruct (iteration_shape_flags fuel _ T1 o false Wf It)
    as (W1 & N1 & C1 & _).
  rewrite firstTableau_ncols in C1.
  destruct (basicRowsOf_in_range T1 (nrows A + ncols A) ltac:(lia))
    as (br & E & _).
  rewrite E in H. cbn [bind] in H.
  destruct (basicRowsOf_rows T1 (nrows A + ncols A) br ltac:(lia) E)
    as (L1 & I1).
  destruct (cleanBasis set_pop set_list fuel (ncols A) (nrows A) T1 br [])
    as [ [Tc rr] | ec | ] eqn:Cl; cbn [bind] in H; try discriminate.
  - destruct (cleanBasis_shape _ _ _ _ _ T1 Tc br [] rr W1 Cl)
      as (Wc & Cc & _).
    cbn [fst] in H.
    apply (phaseTwo_raises fuel (ncols A) (nrows A) (pc (normalize st)) Tc e);
      [ exact Wc | lia | exact H ].
  - inversion H; subst. right. right.
    apply (cleanBasis_raises set_pop set_list fuel (ncols A) (nrows A)
             T1 br [] e V W1); [ lia | exact L1 | exact I1 | exact Cl ].
Qed.

(** X16.  Called on a rectangular [A], [simplex] never fails on a range
    check of [pivoting] or of [getRow], in phase I, in the cleaning of the
    basis or in phase II: every pivot position and every variable index
    that it passes to them is in range. *)
Theorem simplex_raises_only (set_pop : list nat -> nat)
    (set_list : list nat -> list nat) (fuel : nat) (st : problem)
    (e : error) :
  valid_pop set_pop -> valid_list set_list -> wf_array2 (pA st) ->
  snd (simplex set_pop set_list fuel st) = Raise e ->
  e <> PivotRowOutOfRange /\ e <> PivotColumnOutOfRange /\
  e <> VariableOutOfRange.
Proof.
  intros _ V W H.
  destruct (simplex_raise_cases set_pop set_list fuel st e V W H)
    as [ -> | [ -> | [ -> | -> ] ] ]; repeat split; discriminate.
Qed.

Lemma only_redundant_wf : wf_array2 (pA only_redundant).
Proof. repeat constructor. Qed.

Lemma simplex_raises_only_witness :
  snd (simplex pop_least list_increasing 10 only_redundant)
  = Raise ValueError /\
  ValueError <> PivotRowOutOfRange /\ ValueError <> PivotColumnOutOfRange /\
  ValueError <> VariableOutOfRange.
Proof.
  split;
    [ exact (only_redundant_raises pop_least list_increasing
               pop_least_valid list_increasing_valid) | ].
  apply (simplex_raises_only pop_least list_increasing 10 only_redundant).
  - exact pop_least_valid.
  - exact list_increasing_valid.
  - exact only_redundant_wf.
  - exact (only_redundant_raises pop_least list_increasing
             pop_least_valid list_increasing_valid).
Defined.

(* ================================================================= *)
(** * The simplex in basis form *)

Lemma eqb_inf_inf (x : num) : x = inf -> (x =? inf) = true.
Proof. intros ->. reflexivity. Qed.

Ltac bind_case H x E :=
  match type of H with
  | context [bind ?r _] =>
      destruct r as [ x | ? | ] eqn:E; cbn [bind] in H; try discriminate H
  end.

Ltac body_binds H :=
  let B := fresh "B" in let EB := fresh "EB" in
  bind_case H B EB;
  let xb := fresh "xb" in let Exb := fresh "Exb" in
  bind_case H xb Exb;
  let minusd := fresh "minusd" in let Ed := fresh "Ed" in
  bind_case H minusd Ed;
  let cB := fresh "cB" in let EcB := fresh "EcB" in
  bind_case H cB EcB;
  let cost := fresh "cost" in let Ecost := fresh "Ecost" in
  bind_case H cost Ecost;
  let cBd := fresh "cBd" in let EcBd := fresh "EcBd" in
  bind_case H cBd EcBd.

Lemma first_negative (rc : array1) :
  any (map (fun x => x <? zero) rc) = true ->
  let p := argmax_bool (map (fun x => x <? zero) rc) in
  (get1 rc p <? zero) = true /\
  forall j, (j < p)%nat -> (get1 rc j <? zero) = false.
Proof.
  intros Any p. destruct (argmax_bool_first _ Any) as (Lt & Tr & Before).
  fold p in Lt, Tr, Before. rewrite length_map in Lt. split.
  - rewrite (nth_map_in (fun x => x <? zero) rc p false NaN Lt) in Tr.
    exact Tr.
  - intros j Hj. specialize (Before j Hj).
    rewrite (nth_map_in (fun x => x <? zero) rc j false NaN) in Before by lia.
    exact Before.
Qed.

Lemma no_negative (rc : array1) :
  any (map (fun x => x <? zero) rc) = false ->
  forall j, (get1 rc j <? zero) = false.
Proof.
  intros Any j.
  destruct (Nat.lt_ge_cases j (length rc)) as [ Lt | Ge ].
  - destruct (get1 rc j <? zero) eqn:N; [ | reflexivity ].
    assert (X : any (map (fun x => x <? zero) rc) = true).
    { unfold any. apply existsb_exists. exists true. split; [ | easy ].
      rewrite <- N. unfold get1.
      rewrite <- (nth_map_in (fun x => x <? zero) rc j false NaN Lt).
      apply nth_In. now rewrite length_map. }
    congruence.
  - unfold get1. now rewrite nth_overflow.
Qed.

Lemma length_mapM {A B : Type} (f : A -> result B) (l : list A)
    (ys : list B) :
  mapM f l = Return ys -> length ys = length l.
Proof.
  revert ys. induction l as [ | x l IH ]; intros ys H; cbn [mapM] in H.
  - now inversion H.
  - destruct (f x); cbn [bind] in H; try discriminate.
    destruct (mapM f l) eqn:M; cbn [bind] in H; try discriminate.
    inversion H; subst. cbn [length]. f_equal. now apply IH.
Qed.

Lemma body_stop (solve_vector : array2 -> array1 -> result array1)
    (solve_matrix : array2 -> array2 -> result array2)
    (A : array2) (b c : array1) (basis : list nat)
    (optimal : BasisForm.optimalbasis) (unbounded : bool)
    (it : BasisForm.iteration) :
  BasisForm.body solve_vector solve_matrix A b c basis
  = Return (BasisForm.Stop optimal unbounded it) ->
  BasisForm.it_basis it = basis /\
  ((optimal = BasisForm.CallerBasis /\ unbounded = false /\
    BasisForm.it_p it = None /\ BasisForm.it_q it = None /\
    BasisForm.it_step it = None /\ BasisForm.it_direction it = None /\
    forall j, (get1 (BasisForm.it_reducedCost it) j <? zero) = false) \/
   (optimal = BasisForm.Zeros (nrows A) /\ unbounded = true /\
    BasisForm.it_step it = Some inf /\
    exists p, BasisForm.it_p it = Some p /\
              (get1 (BasisForm.it_reducedCost it) p <? zero) = true /\
              forall j, (j < p)%nat ->
                (get1 (BasisForm.it_reducedCost it) j <? zero) = false)).
Proof.
  unfold BasisForm.body. intro H. body_binds H.
  destruct (BasisForm.subtract c cBd) as [ rc | ? | ] eqn:Erc;
    cbn [bind] in H; try discriminate H.
  destruct (any (map (fun x => x <? zero) rc)) eqn:Any; cbn [negb] in H.
  - destruct (mapM _ (seq 0 (nrows A))) as [ steps | ? | ] eqn:Est;
      cbn [bind] in H; try discriminate H.
    destruct (argmin steps) as [ q | ? | ] eqn:Eq; cbn [bind] in H;
      try discriminate H.
    destruct (get1 steps q =? inf) eqn:Inf.
    + inversion H; subst; clear H. cbn. split; [ reflexivity | ]. right.
      apply eqb_eq in Inf. rewrite Inf.
      repeat split.
      exists (argmax_bool (map (fun x => x <? zero) rc)).
      split; [ reflexivity | ]. now apply first_negative.
    + destruct (q <? length basis)%nat; discriminate H.
  - inversion H; subst; clear H. cbn. split; [ reflexivity | ]. left.
    repeat split. now apply no_negative.
Qed.

Lemma body_exchange (solve_vector : array2 -> array1 -> result array1)
    (solve_matrix : array2 -> array2 -> result array2)
    (A : array2) (b c : array1) (basis basis' : list nat)
    (it : BasisForm.iteration) :
  BasisForm.body solve_vector solve_matrix A b c basis
  = Return (BasisForm.Exchange basis' it) ->
  BasisForm.it_basis it = basis /\
  exists p q,
    BasisForm.it_p it = Some p /\ BasisForm.it_q it = Some q /\
    (q < length basis)%nat /\ (q < nrows A)%nat /\
    BasisForm.it_step it <> Some inf /\
    basis' = update basis q p /\
    (get1 (BasisForm.it_reducedCost it) p <? zero) = true /\
    forall j, (j < p)%nat ->
      (get1 (BasisForm.it_reducedCost it) j <? zero) = false.
Proof.
  unfold BasisForm.body. intro H. body_binds H.
  destruct (BasisForm.subtract c cBd) as [ rc | ? | ] eqn:Erc;
    cbn [bind] in H; try discriminate H.
  destruct (any (map (fun x => x <? zero) rc)) eqn:Any; cbn [negb] in H;
    [ | discriminate H ].
  destruct (mapM _ (seq 0 (nrows A))) as [ steps | ? | ] eqn:Est;
    cbn [bind] in H; try discriminate H.
  destruct (argmin steps) as [ q | ? | ] eqn:Eq; cbn [bind] in H;
    try discriminate H.
  destruct (get1 steps q =? inf) eqn:Inf; [ discriminate H | ].
  destruct (Nat.ltb_spec q (length basis)) as [ Lq | ]; [ | discriminate H ].
  inversion H; subst; clear H. cbn. split; [ reflexivity | ].
  exists (argmax_bool (map (fun x => x <? zero) rc)), q.
  split; [ reflexivity | ]. split; [ reflexivity | ].
  split; [ exact Lq | ]. split.
  { pose proof (argmin_bound steps q Eq) as Bq.
    rewrite (length_mapM _ _ _ Est), length_seq in Bq. exact Bq. }
  split.
  { intro X. inversion X as [X']. rewrite (eqb_inf_inf _ X') in Inf.
    discriminate. }
  split; [ reflexivity | ]. now apply first_negative.
Qed.

Lemma last_cons_default {A : Type} (l : list A) (a d : A) :
  last (a :: l) d = last l a.
Proof.
  revert a d. induction l as [ | x l IH ]; intros a d; [ reflexivity | ].
  change (last (a :: x :: l) d) with (last (x :: l) d).
  now rewrite (IH x d), (IH x a).
Qed.

Lemma last_map_default {A B : Type} (f : A -> B) (l : list A) (a : A)
    (d : B) :
  l <> [] -> f (last l a) = last (map f l) d.
Proof.
  induction l as [ | x l IH ]; intro Ne; [ congruence | ].
  destruct l as [ | y l ]; [ reflexivity | ].
  change (f (last (y :: l) a) = last (map f (y :: l)) d).
  apply IH. discriminate.
Qed.

Lemma loop_returns (solve_vector : array2 -> array1 -> result array1)
    (solve_matrix : array2 -> array2 -> result array2)
    (fuel : nat) (A : array2) (b c : array1) (basis : list nat)
    (done : list BasisForm.iteration) (basis' : list nat)
    (optimal : BasisForm.optimalbasis) (unbounded : bool)
    (iters : list BasisForm.iteration) :
  BasisForm.loop solve_vector solve_matrix fuel A b c basis done
  = (basis', Return (optimal, unbounded, iters)) ->
  exists first rest,
    iters = done ++ first :: rest /\
    BasisForm.chained (first :: rest) /\
    BasisForm.it_basis first = basis /\
    BasisForm.it_basis (last rest first) = basis' /\
    length basis' = length basis /\
    ((optimal = BasisForm.CallerBasis /\ unbounded = false /\
      BasisForm.it_p (last rest first) = None /\
      BasisForm.it_step (last rest first) = None /\
      forall j, (get1 (BasisForm.it_reducedCost (last rest first)) j
                 <? zero) = false) \/
     (optimal = BasisForm.Zeros (nrows A) /\ unbounded = true /\
      BasisForm.it_step (last rest first) = Some inf /\
      exists p, BasisForm.it_p (last rest first) = Some p /\
                (get1 (BasisForm.it_reducedCost (last rest first)) p
                 <? zero) = true)).
Proof.
  revert basis done.
  induction fuel as [ | fuel IH ]; intros basis done H;
    cbn [BasisForm.loop] in H; [ discriminate | ].
  destruct (BasisForm.body solve_vector solve_matrix A b c basis)
    as [ [ ob unb it | basis1 it ] | e | ] eqn:Body; try discriminate.
  - inversion H; subst; clear H.
    destruct (body_stop _ _ _ _ _ _ _ _ _ Body) as (Eb & Cases).
    exists it, []. cbn [last].
    split; [ reflexivity | ]. split; [ exact I | ].
    split; [ exact Eb | ]. split; [ exact Eb | ]. split; [ reflexivity | ].
    destruct Cases as [ (-> & -> & P & _ & S & _ & N) |
                        (-> & -> & S & p & P & N & _) ].
    + left. repeat split; assumption.
    + right. repeat split; try assumption. now exists p.
  - destruct (body_exchange _ _ _ _ _ _ _ _ Body)
      as (Eb & p & q & P & Q & Lq & _ & S & -> & _).
    destruct (IH _ _ H) as (first & rest & -> & Ch & Ef & El & Len & Cases).
    exists it, (first :: rest).
    split; [ now rewrite <- app_assoc | ].
    split.
    { split; [ | exact Ch ].
      exists p, q. rewrite Eb, Ef. repeat split; assumption. }
    split; [ exact Eb | ].
    rewrite !(last_cons_default rest first it).
    split; [ exact El | ].
    split; [ now rewrite Len, length_update | ].
    exact Cases.
Qed.

(** X19.  The basis-form [simplex] works on the caller's list [basis]
    itself: when it returns, the list has its length of before and holds
    the basis of the last iteration, while [iters[0]] records the basis
    that was passed; with [unbounded] false the returned [optimalbasis]
    is that very list, and with [unbounded] true it is a new array
    [np.zeros((m, 1))]. *)
Theorem basis_simplex_overwrites_basis
    (solve_vector : array2 -> array1 -> result array1)
    (solve_matrix : array2 -> array2 -> result array2)
    (fuel : nat) (A : array2) (b c : array1) (basis basis' : list nat)
    (optimal : BasisForm.optimalbasis) (unbounded : bool)
    (iters : list BasisForm.iteration) :
  BasisForm.simplex solve_vector solve_matrix fuel A b c basis
  = (basis', Return (optimal, unbounded, iters)) ->
  length basis' = length basis /\
  hd [] (map BasisForm.it_basis iters) = basis /\
  last (map BasisForm.it_basis iters) [] = basis' /\
  (unbounded = false -> optimal = BasisForm.CallerBasis) /\
  (unbounded = true -> optimal = BasisForm.Zeros (nrows A)).
Proof.
  unfold BasisForm.simplex. intro H.
  destruct (negb (length b =? nrows A)%nat); [ discriminate | ].
  destruct (negb (length c =? ncols A)%nat); [ discriminate | ].
  destruct (loop_returns _ _ _ _ _ _ _ _ _ _ _ _ H)
    as (first & rest & -> & _ & Ef & El & Len & Cases).
  cbn [app map hd]. split; [ exact Len | ]. split; [ exact Ef | ].
  split.
  { change (BasisForm.it_basis first :: map BasisForm.it_basis rest)
      with (map BasisForm.it_basis (first :: rest)).
    rewrite <- El, <- (last_cons_default rest first first).
    symmetry. apply (last_map_default BasisForm.it_basis). discriminate. }
  destruct Cases as [ (-> & -> & _) | (-> & -> & _) ]; split; intro;
    congruence.
Qed.

Lemma square_example_run :
  exists iters,
    BasisForm.simplex BasisForm.gauss_vector BasisForm.gauss_matrix 10
      BasisForm.square_A BasisForm.square_b BasisForm.square_c [2; 3]%nat
    = ([0; 1]%nat, Return (BasisForm.CallerBasis, false, iters)).
Proof. eexists. vm_compute. reflexivity. Qed.

Lemma basis_simplex_overwrites_basis_witness :
  exists iters,
    BasisForm.simplex BasisForm.gauss_vector BasisForm.gauss_matrix 10
      BasisForm.square_A BasisForm.square_b BasisForm.square_c [2; 3]%nat
    = ([0; 1]%nat, Return (BasisForm.CallerBasis, false, iters)) /\
    hd [] (map BasisForm.it_basis iters) = [2; 3]%nat /\
    last (map BasisForm.it_basis iters) [] = [0; 1]%nat.
Proof.
  destruct square_example_run as (iters & R).
  exists iters. split; [ exact R | ].
  destruct (basis_simplex_overwrites_basis _ _ _ _ _ _ _ _ _ _ _ R)
    as (_ & H & L & _).
  split; assumption.
Defined.

(** X20.  The iterations that the basis-form [simplex] returns are never
    empty and follow from one another: every iteration but the last has
    an entering index [p] and a leaving position [q] inside the basis,
    with a step other than [np.inf], and the basis of the next iteration
    is its own with [basis[q] = p]; the last iteration either has no
    negative reduced cost and [p], [step] None (then [unbounded] is
    false), or has a negative reduced cost at its [p] and the step
    [np.inf] (then [unbounded] is true). *)
Theorem basis_simplex_iterations
    (solve_vector : array2 -> array1 -> result array1)
    (solve_matrix : array2 -> array2 -> result array2)
    (fuel : nat) (A : array2) (b c : array1) (basis basis' : list nat)
    (optimal : BasisForm.optimalbasis) (unbounded : bool)
    (iters : list BasisForm.iteration) :
  BasisForm.simplex solve_vector solve_matrix fuel A b c basis
  = (basis', Return (optimal, unbounded, iters)) ->
  exists first rest,
    iters = first :: rest /\
    BasisForm.chained iters /\
    ((unbounded = false /\
      BasisForm.it_p (last rest first) = None /\
      BasisForm.it_step (last rest first) = None /\
      forall j, (get1 (BasisForm.it_reducedCost (last rest first)) j
                 <? zero) = false) \/
     (unbounded = true /\
      BasisForm.it_step (last rest first) = Some inf /\
      exists p, BasisForm.it_p (last rest first) = Some p /\
                (get1 (BasisForm.it_reducedCost (last rest first)) p
                 <? zero) = true)).
Proof.
  unfold BasisForm.simplex. intro H.
  destruct (negb (length b =? nrows A)%nat); [ discriminate | ].
  destruct (negb (length c =? ncols A)%nat); [ discriminate | ].
  destruct (loop_returns _ _ _ _ _ _ _ _ _ _ _ _ H)
    as (first & rest & -> & Ch & _ & _ & _ & Cases).
  exists first, rest. cbn [app]. split; [ reflexivity | ].
  split; [ exact Ch | ].
  destruct Cases as [ (_ & -> & P & S & N) | (_ & -> & S & p & P & N) ].
  - left. repeat split; assumption.
  - right. repeat split; try assumption. now exists p.
Qed.

Lemma basis_simplex_iterations_witness :
  exists iters,
    BasisForm.simplex BasisForm.gauss_vector BasisForm.gauss_matrix 10
      BasisForm.square_A BasisForm.square_b BasisForm.square_c [2; 3]%nat
    = ([0; 1]%nat, Return (BasisForm.CallerBasis, false, iters)) /\
    BasisForm.chained iters.
Proof.
  destruct square_example_run as (iters & R).
  exists iters. split; [ exact R | ].
  destruct (basis_simplex_iterations _ _ _ _ _ _ _ _ _ _ _ R)
    as (first & rest & _ & Ch & _).
  exact Ch.
Defined.

(* ================================================================= *)
(** * Newton's local method *)

Section NewtonProperties.

Variable fct : array1 -> option (num * array1 * array2).
Variable norm : array1 -> num.
Variable solve : array2 -> array1 -> option array1.
Variable eps : num.
Variable maxiter : Z.

Lemma iterate_returns (fuel : nat) (k : Z) (x g : array1) (H : array2)
    (f : num) (xo : option array1) (m : Newton.message) :
  fct x = Some (f, g, H) ->
  Newton.iterate fct norm solve eps maxiter fuel k x g H
  = Newton.Returns xo m ->
  exists (x' : array1) (f' : num) (g' : array1) (H' : array2) (k' : Z),
    fct x' = Some (f', g', H') /\ (k <= k')%Z /\
    ((norm g' >? eps) = false \/ (maxiter < k')%Z) /\
    (((norm g' <=? eps) = true /\ xo = Some x' /\
      m = Newton.PrecisionReached (norm g') eps) \/
     ((norm g' <=? eps) = false /\ xo = None /\
      m = Newton.MaximumIterations maxiter)).
Proof.
  revert k x g H f.
  induction fuel as [ | fuel IH ]; intros k x g H f Fx R;
    cbn [Newton.iterate] in R; [ discriminate | ].
  destruct ((norm g >? eps) && (k <=? maxiter)%Z) eqn:C.
  - destruct (solve H (vneg g)) as [ d | ]; [ | discriminate ].
    destruct (Newton.plus x d) as [ x1 | ]; [ | discriminate ].
    destruct (fct x1) as [ [[f1 g1] H1] | ] eqn:F1; [ | discriminate ].
    destruct (IH _ _ _ _ f1 F1 R) as (x' & f' & g' & H' & k' & F' & K & S & M).
    exists x', f', g', H', k'. repeat split; try assumption. lia.
  - exists x, f, g, H, k. split; [ exact Fx | ]. split; [ lia | ].
    split.
    { apply andb_false_iff in C. destruct C as [ C | C ]; [ now left | ].
      right. apply Z.leb_gt in C. exact C. }
    destruct (norm g <=? eps) eqn:P; inversion R; subst; auto.
Qed.

Lemma iterate_fuel (fuel : nat) (k : Z) (x g : array1) (H : array2) :
  (0 < fuel)%nat -> (maxiter + 1 - k < Z.of_nat fuel)%Z ->
  Newton.iterate fct norm solve eps maxiter fuel k x g H <> Newton.NoFuel.
Proof.
  revert k x g H.
  induction fuel as [ | fuel IH ]; intros k x g H Pos Lt; [ lia | ].
  cbn [Newton.iterate].
  destruct ((norm g >? eps) && (k <=? maxiter)%Z) eqn:C.
  - apply andb_prop in C. destruct C as (_ & C). apply Z.leb_le in C.
    destruct (solve H (vneg g)) as [ d | ]; [ | discriminate ].
    destruct (Newton.plus x d) as [ x1 | ]; [ | discriminate ].
    destruct (fct x1) as [ [[f1 g1] H1] | ]; [ | discriminate ].
    apply IH; lia.
  - destruct (norm g <=? eps); discriminate.
Qed.

(** X21.  What [newtonLocal] returns: a point [x] is returned only
    together with the message that the precision has been reached, and
    then the gradient that [fct] gives at [x] has a norm of at most
    [eps]; [None] is returned only with the message on the maximum number
    of iterations, and then the norm of the last gradient is not at most
    [eps].  The message on a numerical issue is never returned. *)
Theorem newtonLocal_returns (fuel : nat) (x0 : array1)
    (xo : option array1) (m : Newton.message) :
  Newton.newtonLocal fct norm solve eps maxiter fuel x0
  = Newton.Returns xo m ->
  (forall k, m <> Newton.NumericalIssue k) /\
  exists (x : array1) (f : num) (g : array1) (H : array2),
    fct x = Some (f, g, H) /\
    (((norm g <=? eps) = true /\ xo = Some x /\
      m = Newton.PrecisionReached (norm g) eps) \/
     ((norm g <=? eps) = false /\ xo = None /\
      m = Newton.MaximumIterations maxiter)).
Proof.
  unfold Newton.newtonLocal. intro R.
  destruct (fct x0) as [ [[f0 g0] H0] | ] eqn:F0; [ | discriminate ].
  destruct (iterate_returns fuel 0 x0 g0 H0 f0 xo m F0 R)
    as (x & f & g & H & k & F & _ & _ & M).
  split.
  - intros k' E. destruct M as [ (_ & _ & M) | (_ & _ & M) ]; congruence.
  - now exists x, f, g, H.
Qed.

(** X22.  [newtonLocal] ends after at most [maxiter + 1] passes through
    its loop, whatever [fct] and [np.linalg.solve] return: a bound of
    [maxiter + 2] tests of the loop condition is never exhausted. *)
Theorem newtonLocal_terminates (fuel : nat) (x0 : array1) :
  (maxiter + 1 < Z.of_nat fuel)%Z -> (0 < fuel)%nat ->
  Newton.newtonLocal fct norm solve eps maxiter fuel x0 <> Newton.NoFuel.
Proof.
  intros Lt Pos. unfold Newton.newtonLocal.
  destruct (fct x0) as [ [[f0 g0] H0] | ]; [ | discriminate ].
  apply iterate_fuel; [ exact Pos | lia ].
Qed.

Lemma iterate_point (fuel : nat) (k : Z) (x g : array1) (H : array2)
    (f : num) (xo : option array1) (m : Newton.message) :
  fct x = Some (f, g, H) ->
  Newton.iterate fct norm solve eps maxiter fuel k x g H
  = Newton.Returns xo m ->
  exists (n : nat) (x' : array1) (f' : num) (g' : array1) (H' : array2),
    (n = 0%nat \/ (k + Z.of_nat n <= maxiter + 1)%Z) /\
    Newton.point fct solve n x = Some x' /\
    fct x' = Some (f', g', H') /\
    ((norm g' >? eps) = false \/ (maxiter < k + Z.of_nat n)%Z) /\
    (((norm g' <=? eps) = true /\ xo = Some x') \/
     ((norm g' <=? eps) = false /\ xo = None)) /\
    forall j, (j < n)%nat ->
      exists xj fj gj Hj,
        Newton.point fct solve j x = Some xj /\
        fct xj = Some (fj, gj, Hj) /\ (norm gj >? eps) = true.
Proof.
  revert k x g H f.
  induction fuel as [ | fuel IH ]; intros k x g H f Fx R;
    cbn [Newton.iterate] in R; [ discriminate | ].
  destruct ((norm g >? eps) && (k <=? maxiter)%Z) eqn:C.
  - apply andb_prop in C. destruct C as (N & K). apply Z.leb_le in K.
    destruct (solve H (vneg g)) as [ d | ] eqn:Sv; [ | discriminate ].
    destruct (Newton.plus x d) as [ x1 | ] eqn:P; [ | discriminate ].
    destruct (fct x1) as [ [[f1 g1] H1] | ] eqn:F1; [ | discriminate ].
    assert (St : Newton.step fct solve x = Some x1)
      by (unfold Newton.step; now rewrite Fx, Sv).
    destruct (IH _ _ _ _ f1 F1 R)
      as (n & x' & f' & g' & H' & Bn & Pt & F' & Stop & Xo & Before).
    exists (S n), x', f', g', H'.
    split; [ right; lia | ].
    split; [ cbn [Newton.point]; now rewrite St | ].
    split; [ exact F' | ].
    split.
    { destruct Stop as [ Stop | Stop ]; [ now left | right; lia ]. }
    split; [ exact Xo | ].
    intros [ | j ] Hj.
    + exists x, f, g, H. repeat split; assumption.
    + destruct (Before j ltac:(lia)) as (xj & fj & gj & Hj' & Pj & Fj & Nj).
      exists xj, fj, gj, Hj'. split; [ | split; assumption ].
      cbn [Newton.point]. now rewrite St.
  - exists 0%nat, x, f, g, H.
    split; [ now left | ]. split; [ reflexivity | ]. split; [ exact Fx | ].
    split.
    { apply andb_false_iff in C. destruct C as [ C | C ]; [ now left | ].
      apply Z.leb_gt in C. right. lia. }
    split.
    { destruct (norm g <=? eps); inversion R; auto. }
    intros j Hj. lia.
Qed.

(** X25.  The point that [newtonLocal] returns is the first of the points
    x0, x1, ..., where each is the one before plus the solution [d] of
    [H d = -g], at which the norm of the gradient is not above [eps]; it
    is reached after at most [maxiter + 1] steps, one more than
    [maxiter] says.  When [None] is returned instead, the norm of the
    gradient at the point where the loop stopped is not at most [eps],
    and either [maxiter + 1] steps were made or that norm does not
    compare with [eps]. *)
Theorem newtonLocal_first_point (fuel : nat) (x0 : array1)
    (xo : option array1) (m : Newton.message) :
  Newton.newtonLocal fct norm solve eps maxiter fuel x0
  = Newton.Returns xo m ->
  exists (n : nat) (x : array1) (f : num) (g : array1) (H : array2),
    (n = 0%nat \/ (Z.of_nat n <= maxiter + 1)%Z) /\
    Newton.point fct solve n x0 = Some x /\
    fct x = Some (f, g, H) /\
    (forall j, (j < n)%nat ->
       exists xj fj gj Hj,
         Newton.point fct solve j x0 = Some xj /\
         fct xj = Some (fj, gj, Hj) /\ (norm gj >? eps) = true) /\
    (((norm g <=? eps) = true /\ xo = Some x) \/
     ((norm g <=? eps) = false /\ xo = None /\
      ((norm g >? eps) = false \/ (maxiter < Z.of_nat n)%Z))).
Proof.
  unfold Newton.newtonLocal. intro R.
  destruct (fct x0) as [ [[f0 g0] H0] | ] eqn:F0; [ | discriminate ].
  destruct (iterate_point fuel 0 x0 g0 H0 f0 xo m F0 R)
    as (n & x & f & g & H & Bn & Pt & F & Stop & Xo & Before).
  exists n, x, f, g, H.
  split; [ destruct Bn; [ now left | right; lia ] | ].
  split; [ exact Pt | ]. split; [ exact F | ]. split; [ exact Before | ].
  destruct Xo as [ (P & ->) | (P & ->) ]; [ now left | right ].
  split; [ exact P | ]. split; [ reflexivity | ].
  destruct Stop; [ now left | right; lia ].
Qed.

End NewtonProperties.

Lemma newton_example_run :
  exists x m,
    Newton.newtonLocal Newton.func Newton.norm1 Newton.solve_exact
      (ratio 1 100) 100 200 (vecZ [6; 0]%Z)
    = Newton.Returns (Some x) m.
Proof. do 2 eexists. vm_compute. reflexivity. Qed.

Lemma newtonLocal_returns_witness :
  exists x f g H,
    Newton.newtonLocal Newton.func Newton.norm1 Newton.solve_exact
      (ratio 1 100) 100 200 (vecZ [6; 0]%Z)
    = Newton.Returns (Some x)
        (Newton.PrecisionReached (Newton.norm1 g) (ratio 1 100)) /\
    Newton.func x = Some (f, g, H) /\
    (Newton.norm1 g <=? ratio 1 100) = true.
Proof.
  destruct newton_example_run as (x & m & R).
  destruct (newtonLocal_returns Newton.func Newton.norm1 Newton.solve_exact
              (ratio 1 100) 100 200 (vecZ [6; 0]%Z) (Some x) m R)
    as (_ & x' & f & g & H & F & [ (P & E & M) | (_ & E & _) ]);
    [ | discriminate E ].
  inversion E; subst x'. exists x, f, g, H.
  split; [ now rewrite R, M | ]. split; assumption.
Defined.

Lemma newtonLocal_terminates_witness :
  Newton.newtonLocal Newton.func Newton.norm1 Newton.solve_exact
    (ratio 1 100) 100 102 (vecZ [6; 0]%Z) <> Newton.NoFuel.
Proof.
  apply (newtonLocal_terminates Newton.func Newton.norm1 Newton.solve_exact
           (ratio 1 100) 100 102 (vecZ [6; 0]%Z)); lia.
Defined.

Lemma newtonLocal_first_point_witness :
  exists (n : nat) (x : array1) (m : Newton.message),
    (n = 0%nat \/ (Z.of_nat n <= 100 + 1)%Z) /\
    Newton.point Newton.func Newton.solve_exact n (vecZ [6; 0]%Z) = Some x /\
    Newton.newtonLocal Newton.func Newton.norm1 Newton.solve_exact
      (ratio 1 100) 100 200 (vecZ [6; 0]%Z)
    = Newton.Returns (Some x) m.
Proof.
  destruct newton_example_run as (x & m & R).
  destruct (newtonLocal_first_point Newton.func Newton.norm1
              Newton.solve_exact (ratio 1 100) 100 200 (vecZ [6; 0]%Z)
              (Some x) m R)
    as (n & x' & f & g & H & Bn & Pt & _ & _ & [ (_ & E) | (_ & E & _) ]);
    [ | discriminate E ].
  inversion E; subst x'. exists n, x, m.
  split; [ exact Bn | ]. split; [ exact Pt | exact R ].
Defined.

(* ================================================================= *)
(** * Two variables read as basic in the same row *)

(** X28.  [getRow] does not ask that the rows it reports are different:
    when two variables are found basic in the same row [r],
    [printResults] gives both the right-hand side of that row.  On
    min x1 + x2 subject to x1 + x2 = 1, whose two columns are equal,
    [simplex] returns a tableau from which [printResults] reads the
    solution (1, 1), which does not satisfy the constraint, and the
    optimal value 2, while the point (1, 0) has the cost 1. *)
Theorem two_variables_basic_in_one_row (T : array2) (j k r : nat) :
  j <> k -> (j < ncols T - 1)%nat -> (k < ncols T - 1)%nat ->
  getRow T j = Return (Some r) -> getRow T k = Return (Some r) ->
  exists s,
    solution T = Return s /\
    get1 s j = last (row T r) NaN /\ get1 s k = last (row T r) NaN.
Proof.
  intros _ Hj Hk Gj Gk.
  destruct (solution_entries T) as (s & E & _ & Ent).
  exists s. split; [ exact E | ]. split.
  - now apply (proj1 (Ent j Hj)).
  - now apply (proj1 (Ent k Hk)).
Qed.

Lemma duplicate_column_read (set_pop : list nat -> nat)
    (set_list : list nat -> list nat) :
  snd (simplex set_pop set_list 10 duplicate_column_problem)
  = Return (duplicate_column_tableau, false, false) /\
  solution duplicate_column_tableau = Return [one; one] /\
  copt duplicate_column_tableau = of_Z 2 /\
  dot (row (pA duplicate_column_problem) 0) [one; one] = of_Z 2 /\
  dot (row (pA duplicate_column_problem) 0) [one; zero] = one /\
  dot (pc duplicate_column_problem) [one; zero] = one.
Proof.
  split; [ | repeat split; vm_compute; reflexivity ].
  run_phase_one.
  erewrite cleanBasis_done by (vm_compute; reflexivity). cbn [bind fst].
  vm_compute. reflexivity.
Qed.

Lemma two_variables_basic_in_one_row_witness :
  snd (simplex pop_least list_increasing 10 duplicate_column_problem)
  = Return (duplicate_column_tableau, false, false) /\
  exists s,
    solution duplicate_column_tableau = Return s /\
    get1 s 0 = last (row duplicate_column_tableau 0) NaN /\
    get1 s 1 = last (row duplicate_column_tableau 0) NaN.
Proof.
  split; [ apply duplicate_column_read | ].
  apply (two_variables_basic_in_one_row duplicate_column_tableau 0 1 0).
  - discriminate.
  - vm_compute; lia.
  - vm_compute; lia.
  - vm_compute; reflexivity.
  - vm_compute; reflexivity.
Defined.

